(** * Storefront widgets: predictive search, product quiz, quote list,
      facets, theme toggle, pagination

    A shallow embedding of the browser-side controllers of the theme:

    - the modal predictive search (class [PredictiveSearch] with
      [handleInput], [handleKeydown], [search], [renderResults],
      [escapeHtml]), module [SearchModal];
    - the custom-element predictive search of [assets/analytics.js]
      (class [PredictiveSearch extends HTMLElement] with [onChange],
      [navigateResults], [getSearchResults], [renderSearchResults]),
      module [SearchElement];
    - the product quiz of [assets/quote-system.js] ([getRecommendations],
      [renderResults]), module [ProductQuiz], with the rounding of
      JavaScript's arithmetic in module [Binary64];
    - the quote list of [assets/quote-system.js] ([loadItems], [saveItems],
      [addItem], [removeItem], [convertCartToQuote], [handleSubmit]),
      module [QuoteSystem], over a model of [JSON.stringify] and
      [JSON.parse], module [JSON];
    - the steps of the quiz ([nextStep], [prevStep], [showResults],
      [restart], [updateProgress]), module [QuizSteps], and its
      multi-select ([handleMultipleChoice], [saveCurrentAnswer]), module
      [MultiChoice];
    - the facets of [assets/quote-system.js] ([handleSort],
      [applyFilters]), module [Facets];
    - the theme toggle of [assets/theme-toggle.js], module [ThemeToggle];
    - the load-more pagination ([loadMore]), module
      [CollectionPagination];
    - the footer of the cart drawer over refreshes
      ([assets/cart-drawer.js], [refresh]), module [CartDrawer].

    Conventions.  A JavaScript string is the list of its UTF-16 code units.
    Event handlers are functions from widget state to widget state; what
    the browser does between two handlers (a timer firing, a fetch
    settling, a key being pressed) is an [Event], and a run of the page is
    a list of events folded over the initial state.  Promises are modelled
    by the list of requests that have not settled yet. *)

From Stdlib Require Import ZArith NArith QArith Qround Qabs Qpower Lqa.
From Stdlib Require Import List String Ascii Lia.
From Stdlib Require DecimalN DecimalPos SpecFloat.
Close Scope Q_scope.
From stdpp Require Import gmap list sorting.

Open Scope Z_scope.

(** ** JavaScript strings *)

Abbreviation jsstring := (list N).

(** The code units of an ASCII literal. *)
Definition lit (s : string) : jsstring :=
  N_of_ascii <$> list_ascii_of_string s.

(** The double quote, U+0022. *)
Definition dq : jsstring := [34%N].

(** [WhiteSpace] and [LineTerminator] code points, the characters
    [String.prototype.trim] removes. *)
Definition isWhiteSpace (c : N) : bool :=
  ((9 <=? c) && (c <=? 13) || (c =? 32) || (c =? 160) || (c =? 5760)
   || (8192 <=? c) && (c <=? 8202) || (c =? 8232) || (c =? 8233)
   || (c =? 8239) || (c =? 8287) || (c =? 12288) || (c =? 65279))%N.

Fixpoint trimStart (s : jsstring) : jsstring :=
  match s with
  | [] => []
  | c :: r => if isWhiteSpace c then trimStart r else s
  end.

Definition trimEnd (s : jsstring) : jsstring := rev (trimStart (rev s)).

(** [String.prototype.trim]. *)
Definition trim (s : jsstring) : jsstring := trimEnd (trimStart s).

(** [s.length] as a JavaScript number. *)
Definition jslength {A} (l : list A) : Z := Z.of_nat (length l).

Arguments trim : simpl never.
Arguments jslength : simpl never.

(** ** The payload of [/search/suggest.json] *)

Record ProductSummary := {
  product_title : jsstring;
  product_url : jsstring;
  product_vendor : option jsstring;
  product_price : Z;
  product_compare_at_price_max : Z;
  product_image : option jsstring
}.

Record ArticleSummary := {
  article_title : jsstring;
  article_url : jsstring;
  article_image : option jsstring
}.

Record PageSummary := {
  page_title : jsstring;
  page_url : jsstring
}.

(** [data.resources.results]; each of the three arrays may be missing. *)
Record Results := {
  products : option (list ProductSummary);
  articles : option (list ArticleSummary);
  pages : option (list PageSummary)
}.

(** The parsed body of a response: an object, hence truthy, whose
    [resources.results] may be missing. *)
Record SearchData := { resources_results : option Results }.

(** [x || []] for an array that may be undefined. *)
Definition orEmpty {A} (x : option (list A)) : list A := default [] x.

(** [data.resources?.results || {}] *)
Definition resourcesOf (data : SearchData) : Results :=
  default {| products := None; articles := None; pages := None |}
          (resources_results data).

Definition productsOf (data : SearchData) := orEmpty (products (resourcesOf data)).
Definition articlesOf (data : SearchData) := orEmpty (articles (resourcesOf data)).
Definition pagesOf (data : SearchData) := orEmpty (pages (resourcesOf data)).

(** [!products.length && !articles.length && !pages.length] *)
Definition noResults (data : SearchData) : bool :=
  (length (productsOf data) =? 0)%nat && (length (articlesOf data) =? 0)%nat
  && (length (pagesOf data) =? 0)%nat.

(** Every product, article and page becomes one row of the listing (one
    element carrying [data-search-result], respectively
    [data-predictive-search-item]). *)
Definition rowCount (data : SearchData) : nat :=
  (length (productsOf data) + length (articlesOf data) + length (pagesOf data))%nat.

(** ** Property reads on the caches

    Both widgets keep their cache in an object created by [{}] and read it
    with [cache[key]].  Such a read finds an own property first and then
    the properties of [Object.prototype]: its methods, its [constructor]
    and the accessor [__proto__]. *)
Definition objectPrototypeNames : list jsstring :=
  lit <$> ["constructor"; "__defineGetter__"; "__defineSetter__";
           "hasOwnProperty"; "__lookupGetter__"; "__lookupSetter__";
           "isPrototypeOf"; "propertyIsEnumerable"; "toString"; "valueOf";
           "__proto__"; "toLocaleString"]%string.

Definition inherited (key : jsstring) : bool :=
  bool_decide (key ∈ objectPrototypeNames).

(** What the renderers read from a member of [Object.prototype], a
    function or the prototype itself: a truthy value without
    [resources]. *)
Definition prototypeMember : SearchData := {| resources_results := None |}.

(** [object[key]] for an object created by [{}] with the own properties
    [own]; [None] stands for [undefined]. *)
Definition getProperty (own : gmap jsstring SearchData) (key : jsstring)
    : option SearchData :=
  match own !! key with
  | Some data => Some data
  | None => if inherited key then Some prototypeMember else None
  end.

(** ** [encodeURIComponent]

    [encodeURIComponent] throws a [URIError] when its argument has a
    surrogate code unit outside a pair: a low surrogate that follows no
    high surrogate, or a high surrogate that no low surrogate follows. *)
Definition isHighSurrogate (c : N) : bool := ((55296 <=? c) && (c <=? 56319))%N.
Definition isLowSurrogate (c : N) : bool := ((56320 <=? c) && (c <=? 57343))%N.

Fixpoint wellFormed (s : jsstring) : bool :=
  match s with
  | [] => true
  | c :: r =>
    if isHighSurrogate c then
      match r with
      | d :: r' => isLowSurrogate d && wellFormed r'
      | [] => false
      end
    else negb (isLowSurrogate c) && wellFormed r
  end.

(** ** What the browser reports back *)

(** How a [fetch] ends when its signal was not aborted: the promise is
    rejected, or a response arrives with its [ok] flag and a body that
    [response.json()] parses or not. *)
Inductive Outcome :=
| NetworkFailure
| Response (ok : bool) (body : option SearchData).

Inductive Key := ArrowDown | ArrowUp | Enter | Escape | OtherKey.

(** A request that has been issued and has not settled: the
    [AbortController] whose signal it carries, and the query. *)
Record Request := { controller : nat; query : jsstring }.

(** Observable effects on the network and the location, oldest first. *)
Inductive Effect :=
| Abort (c : nat)
| Fetch (c : nat) (q : jsstring)
| Navigate (row : nat).

(** ** [escapeHtml]

    [div.textContent = text; return div.innerHTML] serialises one text node:
    the HTML fragment serialisation algorithm replaces [&], U+00A0, [<] and
    [>] by character references and leaves every other code unit alone. *)
Definition escapeChar (c : N) : jsstring :=
  if (c =? 38)%N then lit "&amp;"
  else if (c =? 160)%N then lit "&nbsp;"
  else if (c =? 60)%N then lit "&lt;"
  else if (c =? 62)%N then lit "&gt;"
  else [c].

Definition escapeHtml (text : jsstring) : jsstring :=
  concat (escapeChar <$> text).

(** [s] starts with [p]. *)
Fixpoint startsWith (p s : jsstring) : bool :=
  match p, s with
  | [], _ => true
  | a :: p', b :: s' => (a =? b)%N && startsWith p' s'
  | _ :: _, [] => false
  end.

(** What an HTML parser reads back from markup made of text and the four
    character references above: [skip] counts the code units of a
    reference still to be consumed. *)
Fixpoint decodeRefs (skip : nat) (s : jsstring) : jsstring :=
  match s with
  | [] => []
  | c :: r =>
    match skip with
    | S k => decodeRefs k r
    | O =>
      if (c =? 38)%N then
        if startsWith (lit "amp;") r then 38%N :: decodeRefs 4 r
        else if startsWith (lit "nbsp;") r then 160%N :: decodeRefs 5 r
        else if startsWith (lit "lt;") r then 60%N :: decodeRefs 3 r
        else if startsWith (lit "gt;") r then 62%N :: decodeRefs 3 r
        else c :: decodeRefs 0 r
      else c :: decodeRefs 0 r
    end
  end.

Definition textOf (markup : jsstring) : jsstring := decodeRefs 0 markup.

(** How a fetch fails: the promise is rejected, the status is not OK, or
    the body does not parse. *)
Definition failure (out : Outcome) : bool :=
  match out with
  | Response true (Some _) => false
  | _ => true
  end.

(** ** The modal predictive search *)

Module SearchModal.

(** What [resultsContainer.innerHTML] holds: nothing, the loading
    spinner, the message for a query without results, the listing of a
    payload, or the error message. *)
Inductive Panel :=
| Blank
| Spinner
| NoResults (q : jsstring)
| Listing (data : SearchData) (q : jsstring)
| ErrorMessage.

(** The markup [renderResults] writes for an empty result set: the text
    of the template literal before and after its one interpolation,
    [${this.escapeHtml(query)}]. *)
Definition emptyStateBefore : jsstring :=
  lit "
          <div class=" ++ dq ++ lit "search-results__empty" ++ dq ++ lit ">
            <p>No results found for " ++ dq ++ lit "<strong>".

Definition emptyStateAfter : jsstring :=
  lit "</strong>" ++ dq ++ lit "</p>
            <p class=" ++ dq ++ lit "search-results__empty-hint" ++ dq
  ++ lit ">Try different keywords or browse our collections</p>
          </div>
        ".

Definition emptyStateHtml (q : jsstring) : jsstring :=
  emptyStateBefore ++ escapeHtml q ++ emptyStateAfter.

Definition spinnerHtml : jsstring :=
  lit "
        <div class=" ++ dq ++ lit "search-results__loading" ++ dq ++ lit ">
          <span class=" ++ dq ++ lit "spinner" ++ dq ++ lit "></span>
          Searching...
        </div>
      ".

Definition errorHtml : jsstring :=
  lit "
          <div class=" ++ dq ++ lit "search-results__error" ++ dq ++ lit ">
            <p>Something went wrong. Please try again.</p>
          </div>
        ".

(** [innerHTML] of the container.  The rows of a listing are produced by
    [renderProductResult], [renderArticleResult] and [renderPageResult],
    whose money formatting and regular-expression highlighting are taken
    as the parameter [listing]. *)
Definition innerHTML (listing : SearchData -> jsstring -> jsstring)
    (p : Panel) : jsstring :=
  match p with
  | Blank => []
  | Spinner => spinnerHtml
  | NoResults q => emptyStateHtml q
  | Listing data q => listing data q
  | ErrorMessage => errorHtml
  end.

(** [resultsContainer.querySelectorAll('[data-search-result]').length] *)
Definition rows (p : Panel) : nat :=
  match p with
  | Listing data _ => rowCount data
  | _ => O
  end.

Record Widget := {
  (* the fields the constructor sets *)
  cache : gmap jsstring SearchData;
  selectedIndex : Z;
  debounceTimeout : option jsstring;  (* the query a pending timer will search *)
  abortController : option nat;
  (* the document *)
  isActive : bool;                    (* the modal carries [is-active] *)
  inputValue : jsstring;
  resultsContainer : Panel;
  (* the browser *)
  inflight : list Request;            (* fetches that have not settled *)
  aborted : gset nat;                 (* controllers that were aborted *)
  controllers : nat;                  (* controllers created so far *)
  effects : list Effect
}.

Definition with_cache v w := {|
  cache := v; selectedIndex := selectedIndex w;
  debounceTimeout := debounceTimeout w; abortController := abortController w;
  isActive := isActive w; inputValue := inputValue w;
  resultsContainer := resultsContainer w; inflight := inflight w;
  aborted := aborted w; controllers := controllers w; effects := effects w |}.

Definition with_selectedIndex v w := {|
  cache := cache w; selectedIndex := v;
  debounceTimeout := debounceTimeout w; abortController := abortController w;
  isActive := isActive w; inputValue := inputValue w;
  resultsContainer := resultsContainer w; inflight := inflight w;
  aborted := aborted w; controllers := controllers w; effects := effects w |}.

Definition with_debounceTimeout v w := {|
  cache := cache w; selectedIndex := selectedIndex w;
  debounceTimeout := v; abortController := abortController w;
  isActive := isActive w; inputValue := inputValue w;
  resultsContainer := resultsContainer w; inflight := inflight w;
  aborted := aborted w; controllers := controllers w; effects := effects w |}.

Definition with_isActive v w := {|
  cache := cache w; selectedIndex := selectedIndex w;
  debounceTimeout := debounceTimeout w; abortController := abortController w;
  isActive := v; inputValue := inputValue w;
  resultsContainer := resultsContainer w; inflight := inflight w;
  aborted := aborted w; controllers := controllers w; effects := effects w |}.

Definition with_inputValue v w := {|
  cache := cache w; selectedIndex := selectedIndex w;
  debounceTimeout := debounceTimeout w; abortController := abortController w;
  isActive := isActive w; inputValue := v;
  resultsContainer := resultsContainer w; inflight := inflight w;
  aborted := aborted w; controllers := controllers w; effects := effects w |}.

Definition with_resultsContainer v w := {|
  cache := cache w; selectedIndex := selectedIndex w;
  debounceTimeout := debounceTimeout w; abortController := abortController w;
  isActive := isActive w; inputValue := inputValue w;
  resultsContainer := v; inflight := inflight w;
  aborted := aborted w; controllers := controllers w; effects := effects w |}.

Definition with_inflight v w := {|
  cache := cache w; selectedIndex := selectedIndex w;
  debounceTimeout := debounceTimeout w; abortController := abortController w;
  isActive := isActive w; inputValue := inputValue w;
  resultsContainer := resultsContainer w; inflight := v;
  aborted := aborted w; controllers := controllers w; effects := effects w |}.

Definition with_effect e w := {|
  cache := cache w; selectedIndex := selectedIndex w;
  debounceTimeout := debounceTimeout w; abortController := abortController w;
  isActive := isActive w; inputValue := inputValue w;
  resultsContainer := resultsContainer w; inflight := inflight w;
  aborted := aborted w; controllers := controllers w;
  effects := effects w ++ [e] |}.

(** [this.abortController.abort()] *)
Definition abort (c : nat) (w : Widget) : Widget :=
  with_effect (Abort c) {|
  cache := cache w; selectedIndex := selectedIndex w;
  debounceTimeout := debounceTimeout w; abortController := abortController w;
  isActive := isActive w; inputValue := inputValue w;
  resultsContainer := resultsContainer w; inflight := inflight w;
  aborted := {[c]} ∪ aborted w; controllers := controllers w;
  effects := effects w |}.

(** [this.abortController = new AbortController()] *)
Definition newAbortController (w : Widget) : Widget := {|
  cache := cache w; selectedIndex := selectedIndex w;
  debounceTimeout := debounceTimeout w;
  abortController := Some (controllers w);
  isActive := isActive w; inputValue := inputValue w;
  resultsContainer := resultsContainer w; inflight := inflight w;
  aborted := aborted w; controllers := S (controllers w);
  effects := effects w |}.

(** [fetch(url, { signal })]: the call goes out and its promise is pending. *)
Definition fetch (c : nat) (q : jsstring) (w : Widget) : Widget :=
  with_effect (Fetch c q)
    (with_inflight (inflight w ++ [{| controller := c; query := q |}]) w).

(** The state the constructor leaves. *)
Definition init : Widget := {|
  cache := ∅; selectedIndex := -1; debounceTimeout := None;
  abortController := None; isActive := false; inputValue := [];
  resultsContainer := Blank; inflight := []; aborted := ∅;
  controllers := O; effects := [] |}.

Definition open (w : Widget) : Widget := with_isActive true w.

Definition close (w : Widget) : Widget :=
  with_selectedIndex (-1)
    (with_resultsContainer Blank (with_inputValue [] (with_isActive false w))).

(** [renderResults(data, query)].  The markup of a listing ends with a
    link to [/search?q=${encodeURIComponent(query)}]; [Listing data q] is
    that markup for a query the function can encode, which is every query
    the widget passes here ([ModalProofs.Encoded_run]). *)
Definition renderResults (data : SearchData) (q : jsstring) (w : Widget)
    : Widget :=
  if noResults data then with_resultsContainer (NoResults q) w
  else with_selectedIndex (-1) (with_resultsContainer (Listing data q) w).

(** [search(query)] up to its first [await].  The argument of [fetch] is
    evaluated inside the [try]: when [encodeURIComponent] throws, no
    request goes out and the [catch] block writes the error message. *)
Definition search (q : jsstring) (w : Widget) : Widget :=
  match getProperty (cache w) q with
  | Some data => renderResults data q w
  | None =>
    let w1 := match abortController w with
              | Some c => abort c w
              | None => w
              end in
    let w2 := newAbortController w1 in
    if wellFormed q then fetch (controllers w1) q w2
    else with_resultsContainer ErrorMessage w2
  end.

(** The rest of [search(query)], run when the fetch carrying controller
    [c] settles.  A fetch whose signal was aborted rejects with an
    [AbortError] whatever the network did.  The query of a request is no
    name of [Object.prototype] ([ModalProofs.Encoded_run]), so
    [this.cache[query] = data] sets an own property. *)
Definition settle (c : nat) (out : Outcome) (w : Widget) : Widget :=
  match list_find (fun r => controller r = c) (inflight w) with
  | None => w
  | Some (_, r) =>
    let w1 := with_inflight
                (filter (fun r => controller r ≠ c) (inflight w)) w in
    if decide (c ∈ aborted w) then w1
    else match out with
         | Response true (Some data) =>
           renderResults data (query r)
             (with_cache (<[query r := data]> (cache w1)) w1)
         | _ => with_resultsContainer ErrorMessage w1
         end
  end.

Definition handleInput (value : jsstring) (w : Widget) : Widget :=
  let w := with_inputValue value w in
  let q := trim value in
  let w := with_debounceTimeout None w in
  if jslength q <? 2 then with_resultsContainer Blank w
  else with_debounceTimeout (Some q) (with_resultsContainer Spinner w).

(** The debounce timer fires after 200 ms without input. *)
Definition timerFires (w : Widget) : Widget :=
  match debounceTimeout w with
  | Some q => search q (with_debounceTimeout None w)
  | None => w
  end.

Definition handleKeydown (key : Key) (w : Widget) : Widget :=
  let results := rows (resultsContainer w) in
  if (results =? 0)%nat then w
  else match key with
       | ArrowDown =>
         with_selectedIndex
           (Z.min (selectedIndex w + 1) (Z.of_nat results - 1)) w
       | ArrowUp =>
         with_selectedIndex (Z.max (selectedIndex w - 1) (-1)) w
       | Enter =>
         if (0 <=? selectedIndex w) && (selectedIndex w <? Z.of_nat results)
         then with_effect (Navigate (Z.to_nat (selectedIndex w))) w
         else w
       | _ => w
       end.

(** The document-level listener closes the modal on Escape. *)
Definition documentKeydown (key : Key) (w : Widget) : Widget :=
  match key with
  | Escape => if isActive w then close w else w
  | _ => w
  end.

Inductive Event :=
| Input (value : jsstring)
| TimerFires
| Settle (c : nat) (out : Outcome)
| Keydown (key : Key)
| Open
| Close.

Definition step (w : Widget) (e : Event) : Widget :=
  match e with
  | Input value => handleInput value w
  | TimerFires => timerFires w
  | Settle c out => settle c out w
  | Keydown key => documentKeydown key (handleKeydown key w)
  | Open => open w
  | Close => close w
  end.

Definition run (es : list Event) (w : Widget) : Widget := foldl step w es.

(** Requests in flight whose signal has not been aborted. *)
Definition live (w : Widget) : list Request :=
  filter (fun r => controller r ∉ aborted w) (inflight w).

(** [getResultsCount(data)], the [results_count] reported with the
    [search_performed] event. *)
Definition getResultsCount (data : SearchData) : Z :=
  match resources_results data with
  | Some results =>
    let count := 0 in
    let count := count + jslength (orEmpty (products results)) in
    let count := count + jslength (orEmpty (articles results)) in
    let count := count + jslength (orEmpty (pages results)) in
    count
  | None => 0
  end.

(** The characters of the class [[.*+?^${}()|[\]\\]] of [escapeRegex]. *)
Definition isRegexSpecial (c : N) : bool :=
  bool_decide (c ∈ lit ".*+?^${}()|[]\").

(** [string.replace(/[.*+?^${}()|[\]\\]/g, '\\$&')]: a backslash in front
    of every special character. *)
Definition escapeRegex (s : jsstring) : jsstring :=
  concat ((fun c => if isRegexSpecial c then [92%N; c] else [c]) <$> s).

(** How [new RegExp] reads a pattern that is a plain sequence of
    characters: a character outside the class stands for itself, a
    backslash followed by a character of the class stands for that
    character, and anything else is not such a pattern.  The result is the
    one string the pattern matches. *)
Fixpoint literalOf (pattern : jsstring) : option jsstring :=
  match pattern with
  | [] => Some []
  | c :: rest =>
    if bool_decide (c = 92%N) then
      match rest with
      | d :: rest' =>
        if isRegexSpecial d then cons d <$> literalOf rest' else None
      | [] => None
      end
    else if isRegexSpecial c then None
    else cons c <$> literalOf rest
  end.

End SearchModal.

(** ** The custom-element predictive search *)

Module SearchElement.

(** What the results element holds.  The message for an empty result set
    interpolates [this.input.value] as it is; a listing carries the index
    of the item whose [aria-selected] is ["true"], if any. *)
Inductive Panel :=
| Blank
| NoResults (value : jsstring)
| Listing (data : SearchData) (selected : option nat)
| ErrorMessage.

(** The template literal of the message, around its one interpolation,
    [${this.input.value}]. *)
Definition emptyStateBefore : jsstring :=
  lit "
        <div class=" ++ dq ++ lit "predictive-search__no-results" ++ dq
  ++ lit ">
          <p>No results found for " ++ dq.

Definition emptyStateAfter : jsstring :=
  dq ++ lit "</p>
        </div>
      ".

Definition emptyStateHtml (value : jsstring) : jsstring :=
  emptyStateBefore ++ value ++ emptyStateAfter.

(** [results.querySelectorAll('[data-predictive-search-item]').length] *)
Definition rows (p : Panel) : nat :=
  match p with
  | Listing data _ => rowCount data
  | _ => O
  end.

(** The index [navigateResults] computes for the selected item, [-1]
    when no item is selected. *)
Definition selectionIndex (p : Panel) : Z :=
  match p with
  | Listing _ (Some i) => Z.of_nat i
  | _ => -1
  end.

Record Widget := {
  cachedResults : gmap jsstring SearchData;
  abortController : option nat;
  debouncePending : bool;        (* the debounce timer is running *)
  inputValue : jsstring;
  results : Panel;
  isOpen : bool;                 (* the element carries [open] *)
  loading : option bool;         (* the [loading] attribute, once set *)
  inflight : list Request;
  aborted : gset nat;
  controllers : nat;
  effects : list Effect
}.

Definition with_cachedResults v w :=
  {| cachedResults := v; abortController := abortController w;
     debouncePending := debouncePending w; inputValue := inputValue w;
     results := results w; isOpen := isOpen w; loading := loading w;
     inflight := inflight w; aborted := aborted w;
     controllers := controllers w; effects := effects w |}.

Definition with_debouncePending v w :=
  {| cachedResults := cachedResults w;
     abortController := abortController w; debouncePending := v;
     inputValue := inputValue w; results := results w; isOpen := isOpen w;
     loading := loading w; inflight := inflight w; aborted := aborted w;
     controllers := controllers w; effects := effects w |}.

Definition with_inputValue v w :=
  {| cachedResults := cachedResults w;
     abortController := abortController w;
     debouncePending := debouncePending w; inputValue := v;
     results := results w; isOpen := isOpen w; loading := loading w;
     inflight := inflight w; aborted := aborted w;
     controllers := controllers w; effects := effects w |}.

Definition with_results v w :=
  {| cachedResults := cachedResults w;
     abortController := abortController w;
     debouncePending := debouncePending w; inputValue := inputValue w;
     results := v; isOpen := isOpen w; loading := loading w;
     inflight := inflight w; aborted := aborted w;
     controllers := controllers w; effects := effects w |}.

Definition with_isOpen v w :=
  {| cachedResults := cachedResults w;
     abortController := abortController w;
     debouncePending := debouncePending w; inputValue := inputValue w;
     results := results w; isOpen := v; loading := loading w;
     inflight := inflight w; aborted := aborted w;
     controllers := controllers w; effects := effects w |}.

Definition with_loading v w :=
  {| cachedResults := cachedResults w;
     abortController := abortController w;
     debouncePending := debouncePending w; inputValue := inputValue w;
     results := results w; isOpen := isOpen w; loading := v;
     inflight := inflight w; aborted := aborted w;
     controllers := controllers w; effects := effects w |}.

Definition with_inflight v w :=
  {| cachedResults := cachedResults w;
     abortController := abortController w;
     debouncePending := debouncePending w; inputValue := inputValue w;
     results := results w; isOpen := isOpen w; loading := loading w;
     inflight := v; aborted := aborted w; controllers := controllers w;
     effects := effects w |}.

Definition with_effect e w :=
  {| cachedResults := cachedResults w;
     abortController := abortController w;
     debouncePending := debouncePending w; inputValue := inputValue w;
     results := results w; isOpen := isOpen w; loading := loading w;
     inflight := inflight w; aborted := aborted w;
     controllers := controllers w; effects := effects w ++ [e] |}.

(** [this.abortController.abort()] *)
Definition abort (c : nat) (w : Widget) : Widget :=
  {| cachedResults := cachedResults w;
     abortController := abortController w;
     debouncePending := debouncePending w; inputValue := inputValue w;
     results := results w; isOpen := isOpen w; loading := loading w;
     inflight := inflight w; aborted := {[c]} ∪ aborted w;
     controllers := controllers w; effects := effects w ++ [Abort c] |}.

(** [this.abortController = new AbortController()] *)
Definition newAbortController (w : Widget) : Widget :=
  {| cachedResults := cachedResults w;
     abortController := Some (controllers w);
     debouncePending := debouncePending w; inputValue := inputValue w;
     results := results w; isOpen := isOpen w; loading := loading w;
     inflight := inflight w; aborted := aborted w;
     controllers := S (controllers w); effects := effects w |}.

Definition fetch (c : nat) (q : jsstring) (w : Widget) : Widget :=
  with_effect (Fetch c q)
    (with_inflight (inflight w ++ [{| controller := c; query := q |}]) w).

Definition init : Widget := {|
  cachedResults := ∅; abortController := None; debouncePending := false;
  inputValue := []; results := Blank; isOpen := false; loading := None;
  inflight := []; aborted := ∅; controllers := O; effects := [] |}.

Definition setLoading (isLoading : bool) (w : Widget) : Widget :=
  with_loading (Some isLoading) w.

Definition open (w : Widget) : Widget := with_isOpen true w.

Definition close (w : Widget) : Widget :=
  with_results Blank (with_isOpen false w).

Definition renderSearchResults (data : SearchData) (w : Widget) : Widget :=
  let hasResults := negb (noResults data) in
  let w := if hasResults then with_results (Listing data None) w
           else with_results (NoResults (inputValue w)) w in
  open w.

Definition renderError (w : Widget) : Widget :=
  open (with_results ErrorMessage w).

(** [getSearchResults(searchTerm)] up to its first [await].  The argument
    of [fetch] is evaluated inside the [try]: when [encodeURIComponent]
    throws, no request goes out, the [catch] block renders the error and
    the [finally] block clears the loading attribute. *)
Definition getSearchResults (searchTerm : jsstring) (w : Widget) : Widget :=
  match getProperty (cachedResults w) searchTerm with
  | Some data => renderSearchResults data w
  | None =>
    let w1 := match abortController w with
              | Some c => abort c w
              | None => w
              end in
    let w2 := newAbortController w1 in
    let w3 := setLoading true w2 in
    if wellFormed searchTerm then fetch (controllers w1) searchTerm w3
    else setLoading false (renderError w3)
  end.

(** The rest of [getSearchResults], run when the fetch carrying
    controller [c] settles; the [finally] block runs on every path.  The
    query of a request is no name of [Object.prototype]
    ([ElementProofs.Requested_run]), so
    [this.cachedResults[searchTerm] = data] sets an own property. *)
Definition settle (c : nat) (out : Outcome) (w : Widget) : Widget :=
  match list_find (fun r => controller r = c) (inflight w) with
  | None => w
  | Some (_, r) =>
    let w1 := with_inflight
                (filter (fun r => controller r ≠ c) (inflight w)) w in
    let w2 :=
      if decide (c ∈ aborted w) then w1
      else match out with
           | Response true (Some data) =>
             renderSearchResults data
               (with_cachedResults (<[query r := data]> (cachedResults w1)) w1)
           | _ => renderError w1
           end in
    setLoading false w2
  end.

Definition onChange (w : Widget) : Widget :=
  let searchTerm := trim (inputValue w) in
  if jslength searchTerm =? 0 then close w
  else if jslength searchTerm <? 2 then w
  else getSearchResults searchTerm w.

Definition onFocus (w : Widget) : Widget :=
  let searchTerm := trim (inputValue w) in
  if 2 <=? jslength searchTerm then
    match getProperty (cachedResults w) searchTerm with
    | Some data => renderSearchResults data w
    | None => getSearchResults searchTerm w
    end
  else w.

Inductive Direction := Up | Down.

Definition navigateResults (direction : Direction) (w : Widget) : Widget :=
  let items := Z.of_nat (rows (results w)) in
  if items =? 0 then w
  else
    let index := selectionIndex (results w) in
    let index := match direction with
                 | Up => if 0 <? index then index - 1 else items - 1
                 | Down => if index <? items - 1 then index + 1 else 0
                 end in
    match results w with
    | Listing data _ => with_results (Listing data (Some (Z.to_nat index))) w
    | _ => w
    end.

Definition selectResult (w : Widget) : Widget :=
  match results w with
  | Listing _ (Some i) => with_effect (Navigate i) w
  | _ => w
  end.

(** [this.input.focus()]: nothing happens when the field has the focus
    already; otherwise the focus moves to the field and its [focus] event
    runs [onFocus] before [focus()] returns. *)
Definition focusInput (fieldHasFocus : bool) (w : Widget) : Widget :=
  if fieldHasFocus then w else onFocus w.

(** The [keydown] listener of the element hears the keys pressed in the
    field and in every other descendant, such as the link of a result;
    [fieldHasFocus] tells the two apart. *)
Definition onKeydown (fieldHasFocus : bool) (key : Key) (w : Widget)
    : Widget :=
  match key with
  | ArrowUp => navigateResults Up w
  | ArrowDown => navigateResults Down w
  | Enter => selectResult w
  | Escape => focusInput fieldHasFocus (close w)
  | OtherKey => w
  end.

(** [Input]: the user edits the field, which restarts the 300 ms debounce;
    [TimerFires]: the debounced [onChange] runs and reads the value the
    field has by then; [Focus]: the field receives the focus;
    [FocusLeft]: the check scheduled by [onFocusOut] finds the focus
    outside the element; [Keydown]: a key is pressed while the field has
    the focus; [KeydownOutsideField]: a key is pressed while another
    descendant of the element has it. *)
Inductive Event :=
| Input (value : jsstring)
| TimerFires
| Focus
| FocusLeft
| Settle (c : nat) (out : Outcome)
| Keydown (key : Key)
| KeydownOutsideField (key : Key).

Definition step (w : Widget) (e : Event) : Widget :=
  match e with
  | Input value => with_debouncePending true (with_inputValue value w)
  | TimerFires =>
    if debouncePending w then onChange (with_debouncePending false w) else w
  | Focus => onFocus w
  | FocusLeft => close w
  | Settle c out => settle c out w
  | Keydown key => onKeydown true key w
  | KeydownOutsideField key => onKeydown false key w
  end.

Definition run (es : list Event) (w : Widget) : Widget := foldl step w es.

Definition live (w : Widget) : list Request :=
  filter (fun r => controller r ∉ aborted w) (inflight w).

End SearchElement.

(** ** Sample payloads, used by the examples *)

Definition sampleProduct (title : string) : ProductSummary := {|
  product_title := lit title;
  product_url := lit "/products/" ++ lit title;
  product_vendor := None;
  product_price := 1000;
  product_compare_at_price_max := 0;
  product_image := None |}.

(** A payload listing one product per title. *)
Definition sampleData (titles : list string) : SearchData := {|
  resources_results := Some {|
    products := Some (sampleProduct <$> titles);
    articles := Some [];
    pages := None |} |}.

Definition dataAb : SearchData := sampleData ["ab"%string].
Definition dataAbc : SearchData := sampleData ["abc"%string].
Definition dataThree : SearchData :=
  sampleData ["bar"%string; "bench"%string; "bell"%string].
Definition dataNone : SearchData := sampleData [].
(** ** JavaScript numbers

    A Number is an IEEE 754 binary64 value.  A finite one is an integer
    multiple [n * 2 ^ e] of a power of two with [|n| < 2 ^ 53] and
    [-1074 <= e <= 971], and an arithmetic operation returns the binary64
    value nearest to the exact result, a tie going to the even multiple.
    Numbers are modelled by the rationals they denote; results of
    magnitude [2 ^ 1024] and more (the infinities) and [NaN] are outside
    the model. *)

Module Binary64.

(** The integer nearest to [t], a tie going to the even one. *)
Definition roundEven (t : Q) : Z :=
  let f := Qfloor t in
  match (t - inject_Z f ?= 1 # 2)%Q with
  | Lt => f
  | Gt => f + 1
  | Eq => if Z.even f then f else f + 1
  end.

(** The exponent of the unit in the last place at [x]: 52 below the
    binary exponent of [x], and [-1074] throughout the subnormal range.
    The binary exponent is read off the integer part of [|x| * 2 ^ 1074]. *)
Definition ulpExponent (x : Q) : Z :=
  Z.max (Z.log2 (Qfloor (Qabs x * 2 ^ 1074)) - 1126) (-1074).

(** The binary64 value nearest to [x]. *)
Definition round (x : Q) : Q :=
  let u := ulpExponent x in
  (inject_Z (roundEven (x / 2 ^ u)) * 2 ^ u)%Q.

(** [a / b] and [a * b] on Numbers, for [b] other than zero. *)
Definition div (a b : Q) : Q := round (a / b).
Definition mul (a b : Q) : Q := round (a * b).

(** The rational a finite value of the Standard Library's specification
    of binary64 denotes, and the value of an integer there. *)
Definition ofSpecFloat (f : SpecFloat.spec_float) : option Q :=
  match f with
  | SpecFloat.S754_zero _ => Some 0%Q
  | SpecFloat.S754_finite s m e =>
    Some (inject_Z (if s then Z.neg m else Z.pos m) * 2 ^ e)%Q
  | _ => None
  end.

Definition toSpecFloat (n : Z) : SpecFloat.spec_float :=
  SpecFloat.binary_normalize 53 1024 n 0 false.

(** The library's value [f] is finite and denotes [q]. *)
Definition denotes (f : SpecFloat.spec_float) (q : Q) : bool :=
  match ofSpecFloat f with
  | Some q' => Qeq_bool q' q
  | None => false
  end.

End Binary64.

(** ** The product quiz *)

Module ProductQuiz.

(** A product of the JSON block [data-quiz-products].  Numbers are
    integers, and adding them up is exact: the scores the quiz adds up
    are small integers, far below the range where a double is inexact.
    [quiz_scores] holds the numeric metafields [quiz_score_<goal>], keyed
    by the goal. *)
Record Product := {
  handle : jsstring;
  title : jsstring;
  tags : list jsstring;
  available : bool;
  quiz_scores : gmap jsstring Z;
  quiz_experience_level : option jsstring;
  quiz_space_required : option jsstring
}.

(** [this.answers]: a key is present once its question was answered.
    [goal] and [space] come from single-choice options, [experience] from
    the slider ([parseInt(slider.value)]), [focus] from the multi-select. *)
Record Answers := {
  goal : option jsstring;
  experience : option Z;
  space : option jsstring;
  focus : option (list jsstring)
}.

(** Truthiness of an answer that is a string, and of one that is a number. *)
Definition truthyString (x : option jsstring) : option jsstring :=
  match x with
  | Some (c :: s) => Some (c :: s)
  | _ => None
  end.

Definition truthyNumber (x : option Z) : option Z :=
  match x with
  | Some n => if n =? 0 then None else Some n
  | None => None
  end.

(** [tags.includes(x)] *)
Definition includes (l : list jsstring) (x : jsstring) : bool :=
  bool_decide (x ∈ l).

(** [x === 'literal'] for a metafield that may be missing. *)
Definition equals (x : option jsstring) (s : string) : bool :=
  bool_decide (x = Some (lit s)).

(** The body of the [map] callback of [getRecommendations], one
    [score += ...] after the other. *)
Definition scoreOf (answers : Answers) (product : Product) : Z :=
  let score := 0 in
  (* Goal matching (primary weight) *)
  let score :=
    match truthyString (goal answers) with
    | Some g =>
      let score :=
        match truthyNumber (quiz_scores product !! g) with
        | Some goalScore => score + goalScore * 3
        | None => score
        end in
      (* Tag matching for goal *)
      if includes (tags product) g then score + 10 else score
    | None => score
    end in
  (* Experience level matching *)
  let score :=
    match truthyNumber (experience answers) with
    | Some expLevel =>
      let productExp := quiz_experience_level product in
      if equals productExp "all" then score + 5
      else if equals productExp "beginner" && (expLevel <=? 4) then score + 8
      else if equals productExp "intermediate" && (4 <=? expLevel) && (expLevel <=? 7)
           then score + 8
      else if equals productExp "advanced" && (7 <=? expLevel) then score + 8
      else score
    | None => score
    end in
  (* Space matching *)
  let score :=
    match truthyString (space answers) with
    | Some s =>
      let productSpace := quiz_space_required product in
      if bool_decide (productSpace = Some s) then score + 6
      else if equals productSpace "small" then score + 3
      else score
    | None => score
    end in
  (* Focus areas (multi-select) *)
  let score :=
    match focus answers with
    | Some areas =>
      foldl (fun score area =>
               if includes (tags product) area then score + 4 else score)
            score areas
    | None => score
    end in
  (* Bonus for available products *)
  if available product then score + 2 else score.

(** [{ ...product, score }] *)
Record Scored := { product : Product; score : Z }.

Definition scored (answers : Answers) (products : list Product) : list Scored :=
  (fun p => {| product := p; score := scoreOf answers p |}) <$> products.

(** [Array.prototype.sort] with the comparator [(a, b) => b.score - a.score]:
    a stable sort by descending score.  [insert] puts an element in front
    of the first element whose score is not greater. *)
Fixpoint insert (x : Scored) (l : list Scored) : list Scored :=
  match l with
  | [] => [x]
  | y :: l' => if score x <? score y then y :: insert x l' else x :: l
  end.

Definition sortByScore (l : list Scored) : list Scored := foldr insert [] l.

(** [l.slice(0, k)]: a negative [k] counts from the end. *)
Definition slice0 {A} (k : Z) (l : list A) : list A :=
  let len := Z.of_nat (length l) in
  let final := if k <? 0 then Z.max (len + k) 0 else Z.min k len in
  firstn (Z.to_nat final) l.

(** [parseInt(dataset.resultsCount) || 3]; [None] stands for the [NaN] of
    a missing or non-numeric attribute. *)
Definition resultsCountOf (attribute : option Z) : Z :=
  match truthyNumber attribute with
  | Some n => n
  | None => 3
  end.

Definition getRecommendations (products : list Product) (answers : Answers)
    (resultsCount : Z) : list Scored :=
  slice0 resultsCount
    (sortByScore (filter (fun p => 0 < score p) (scored answers products))).

(** [Math.max(...xs)] of a non-empty list. *)
Definition maxOf (x : Z) (xs : list Z) : Z := foldl Z.max x xs.

(** [Math.round]: the nearest integer, a half rounding up. *)
Definition Math_round (x : Q) : Z := Qfloor (x + (1 # 2))%Q.

(** [Math.round((product.score / maxScore) * 100)]: the quotient is
    rounded to a Number, and so is the product.  The scores are integers
    below [2 ^ 53], which are Numbers themselves. *)
Definition matchPercent (score maxScore : Z) : Z :=
  Math_round
    (Binary64.mul (Binary64.div (inject_Z score) (inject_Z maxScore)) 100).

(** The same formula in exact arithmetic, the percentage rounded to the
    nearest integer with a half rounding up.  This is not what the code
    computes; it is what [matchPercent] is compared with. *)
Definition exactPercent (score maxScore : Z) : Z :=
  Math_round (inject_Z score / inject_Z maxScore * 100)%Q.

(** What [renderResults] writes: the no-match message, or one card per
    product with its match percentage. *)
Inductive ResultsView :=
| NoMatch
| Cards (cards : list (Scored * Z)).

Definition renderResults (products : list Scored) : ResultsView :=
  match products with
  | [] => NoMatch
  | p :: rest =>
    let maxScore := maxOf (score p) (score <$> rest) in
    Cards ((fun product => (product, matchPercent (score product) maxScore))
             <$> products)
  end.

(** *** The rules one by one

    What each rule of [scoreOf] contributes, and the edits of a product or
    of the answers that make one more rule match. *)

Definition goalPoints (answers : Answers) (product : Product) : Z :=
  match truthyString (goal answers) with
  | Some g => default 0 (truthyNumber (quiz_scores product !! g)) * 3
  | None => 0
  end.

Definition goalTagPoints (answers : Answers) (product : Product) : Z :=
  match truthyString (goal answers) with
  | Some g => if includes (tags product) g then 10 else 0
  | None => 0
  end.

Definition experiencePoints (answers : Answers) (product : Product) : Z :=
  match truthyNumber (experience answers) with
  | Some expLevel =>
    let productExp := quiz_experience_level product in
    if equals productExp "all" then 5
    else if equals productExp "beginner" && (expLevel <=? 4) then 8
    else if equals productExp "intermediate" && (4 <=? expLevel) && (expLevel <=? 7)
         then 8
    else if equals productExp "advanced" && (7 <=? expLevel) then 8
    else 0
  | None => 0
  end.

Definition spacePoints (answers : Answers) (product : Product) : Z :=
  match truthyString (space answers) with
  | Some s =>
    if bool_decide (quiz_space_required product = Some s) then 6
    else if equals (quiz_space_required product) "small" then 3
    else 0
  | None => 0
  end.

Definition focusPoints (answers : Answers) (product : Product) : Z :=
  4 * Z.of_nat (length (filter (fun area => includes (tags product) area = true)
                               (default [] (focus answers)))).

Definition availabilityPoints (product : Product) : Z :=
  if available product then 2 else 0.

Definition setGoalScore (g : jsstring) (s : Z) (p : Product) : Product := {|
  handle := handle p; title := title p; tags := tags p;
  available := available p; quiz_scores := <[g := s]> (quiz_scores p);
  quiz_experience_level := quiz_experience_level p;
  quiz_space_required := quiz_space_required p |}.

Definition addTag (t : jsstring) (p : Product) : Product := {|
  handle := handle p; title := title p; tags := tags p ++ [t];
  available := available p; quiz_scores := quiz_scores p;
  quiz_experience_level := quiz_experience_level p;
  quiz_space_required := quiz_space_required p |}.

Definition setExperienceLevel (level : jsstring) (p : Product) : Product := {|
  handle := handle p; title := title p; tags := tags p;
  available := available p; quiz_scores := quiz_scores p;
  quiz_experience_level := Some level;
  quiz_space_required := quiz_space_required p |}.

Definition setSpaceRequired (s : jsstring) (p : Product) : Product := {|
  handle := handle p; title := title p; tags := tags p;
  available := available p; quiz_scores := quiz_scores p;
  quiz_experience_level := quiz_experience_level p;
  quiz_space_required := Some s |}.

Definition setAvailable (p : Product) : Product := {|
  handle := handle p; title := title p; tags := tags p;
  available := true; quiz_scores := quiz_scores p;
  quiz_experience_level := quiz_experience_level p;
  quiz_space_required := quiz_space_required p |}.

(** One more option selected in the multi-select. *)
Definition addFocus (area : jsstring) (a : Answers) : Answers := {|
  goal := goal a; experience := experience a; space := space a;
  focus := Some (default [] (focus a) ++ [area]) |}.

(** *** Sample products, used by the examples *)

Definition sampleProduct (name : string) (level space : option string)
    (productTags : list string) (isAvailable : bool) : Product := {|
  handle := lit name; title := lit name; tags := lit <$> productTags;
  available := isAvailable; quiz_scores := ∅;
  quiz_experience_level := lit <$> level;
  quiz_space_required := lit <$> space |}.

(** Four products that score 5, 0, 8 and 3 for [sampleAnswers]. *)
Definition sampleProducts : list Product :=
  [sampleProduct "rack" (Some "all"%string) (Some "medium"%string) [] false;
   sampleProduct "rig" (Some "advanced"%string) (Some "medium"%string) [] false;
   sampleProduct "bands" (Some "beginner"%string) None [] false;
   sampleProduct "mat" None (Some "small"%string) [] false].

Definition sampleAnswers : Answers := {|
  goal := None; experience := Some 3; space := Some (lit "large");
  focus := None |}.

End ProductQuiz.
(** ** The steps of the product quiz *)

(** [class ProductQuiz] of [src/assets/quote-system.js], the part that
    moves through the steps: which step is current, which elements are
    hidden, and the width of the progress bar.  The answers and the
    selected options do not influence it; the multi-select is
    [MultiChoice] below, the scoring [ProductQuiz] above.  The markup is
    taken to have the nav, the results step and the progress bar. *)
Module QuizSteps.

(** An element of [this.steps]. *)
Record Step := {
  hidden : bool;
  questionType : option jsstring      (* [data-question-type] *)
}.

(** [progressFill.style.width]: [`${currentStep / totalSteps * 100}%`]
    with the two numbers it was computed from, or ['100%']. *)
Inductive Width :=
| Ratio (current total : Z)
| Full.

Record Quiz := {
  steps : list Step;
  currentStep : Z;
  totalSteps : Z;
  navHidden : bool;
  resultsHidden : bool;               (* [resultsStep.hidden] *)
  progressWidth : Width;
  advanceTimers : nat                 (* pending timers of [handleSingleChoice] *)
}.

Definition with_steps v q := {|
  steps := v; currentStep := currentStep q; totalSteps := totalSteps q;
  navHidden := navHidden q; resultsHidden := resultsHidden q;
  progressWidth := progressWidth q; advanceTimers := advanceTimers q |}.

Definition with_currentStep v q := {|
  steps := steps q; currentStep := v; totalSteps := totalSteps q;
  navHidden := navHidden q; resultsHidden := resultsHidden q;
  progressWidth := progressWidth q; advanceTimers := advanceTimers q |}.

Definition with_navHidden v q := {|
  steps := steps q; currentStep := currentStep q; totalSteps := totalSteps q;
  navHidden := v; resultsHidden := resultsHidden q;
  progressWidth := progressWidth q; advanceTimers := advanceTimers q |}.

Definition with_resultsHidden v q := {|
  steps := steps q; currentStep := currentStep q; totalSteps := totalSteps q;
  navHidden := navHidden q; resultsHidden := v;
  progressWidth := progressWidth q; advanceTimers := advanceTimers q |}.

Definition with_progressWidth v q := {|
  steps := steps q; currentStep := currentStep q; totalSteps := totalSteps q;
  navHidden := navHidden q; resultsHidden := resultsHidden q;
  progressWidth := v; advanceTimers := advanceTimers q |}.

Definition with_advanceTimers v q := {|
  steps := steps q; currentStep := currentStep q; totalSteps := totalSteps q;
  navHidden := navHidden q; resultsHidden := resultsHidden q;
  progressWidth := progressWidth q; advanceTimers := v |}.

Definition setHidden (b : bool) (s : Step) : Step :=
  {| hidden := b; questionType := questionType s |}.

(** [this.steps[i]] for an integer [i]. *)
Definition stepAt (i : Z) (l : list Step) : option Step :=
  if i <? 0 then None else l !! Z.to_nat i.

(** [const el = this.getCurrentStepElement(); if (el) el.hidden = b] *)
Definition setCurrentHidden (b : bool) (q : Quiz) : Quiz :=
  let i := currentStep q - 1 in
  if i <? 0 then q
  else with_steps (alter (setHidden b) (Z.to_nat i) (steps q)) q.

Definition updateProgress (q : Quiz) : Quiz :=
  with_progressWidth (Ratio (currentStep q) (totalSteps q)) q.

(** The constructor and [init], over the steps, the nav and the results
    step as the markup has them. *)
Definition construct (markup : list Step) (nav results : bool) : Quiz :=
  updateProgress {|
    steps := markup; currentStep := 1;
    totalSteps := Z.of_nat (length markup);
    navHidden := nav; resultsHidden := results;
    progressWidth := Full; advanceTimers := O |}.

(** [showResults], as far as the steps go: the recommendations it renders
    are [ProductQuiz.getRecommendations]. *)
Definition showResults (q : Quiz) : Quiz :=
  with_progressWidth Full
    (with_resultsHidden false (with_navHidden true (setCurrentHidden true q))).

(** [nextStep].  With no step at all, [lastStep] is [undefined] and
    reading its [dataset] throws: the handler ends there. *)
Definition nextStep (q : Quiz) : Quiz :=
  if totalSteps q <=? currentStep q then
    match stepAt (totalSteps q - 1) (steps q) with
    | None => q
    | Some lastStep =>
      if bool_decide (questionType lastStep = Some (lit "email")) then q
      else showResults q
    end
  else
    let q := setCurrentHidden true q in
    let q := with_currentStep (currentStep q + 1) q in
    let q := setCurrentHidden false q in
    let q := with_navHidden false q in
    updateProgress q.

Definition prevStep (q : Quiz) : Quiz :=
  if currentStep q <=? 1 then q
  else
    let q := setCurrentHidden true q in
    let q := with_currentStep (currentStep q - 1) q in
    let q := setCurrentHidden false q in
    let q := if currentStep q =? 1 then with_navHidden true q else q in
    updateProgress q.

Definition restart (q : Quiz) : Quiz :=
  let q := with_currentStep 1 q in
  let q := with_resultsHidden true q in
  let q := with_steps
             (imap (fun index step => setHidden (negb (index =? 0)%nat) step)
                   (steps q)) q in
  let q := with_navHidden true q in
  updateProgress q.

(** [ClickOption]: a click on a single-choice option, which starts a
    300 ms timer and cancels none; [TimerFires]: one of these timers
    fires; [ClickContinue]: a click on an enabled continue button;
    [SkipEmail]: the skip link or the submitted email form. *)
Inductive Event :=
| ClickOption
| TimerFires
| ClickContinue
| ClickBack
| SkipEmail
| ClickRestart.

Definition step (q : Quiz) (e : Event) : Quiz :=
  match e with
  | ClickOption => with_advanceTimers (S (advanceTimers q)) q
  | TimerFires =>
    match advanceTimers q with
    | S n => nextStep (with_advanceTimers n q)
    | O => q
    end
  | ClickContinue => nextStep q
  | ClickBack => prevStep q
  | SkipEmail => showResults q
  | ClickRestart => restart q
  end.

Definition run (es : list Event) (q : Quiz) : Quiz := foldl step q es.

(** A sample step, used by the examples. *)
Definition sampleStep (isHidden : bool) (type : string) : Step :=
  {| hidden := isHidden; questionType := Some (lit type) |}.

End QuizSteps.

(** ** The multi-select of the product quiz *)

(** [handleMultipleChoice] and the array [saveCurrentAnswer] stores, over
    the [data-quiz-option-multi] elements of one step in document
    order. *)
Module MultiChoice.

Record MultiOption := {
  value : jsstring;                   (* [data-value] *)
  isSelected : bool                   (* carries [is-selected] *)
}.

(** [maxSelections] and [minSelections] are what [parseInt] gives for the
    attributes, [None] standing for [NaN]. *)
Record Step := {
  options : list MultiOption;
  maxSelections : option Z;
  minSelections : option Z;
  continueDisabled : bool
}.

(** [parseInt(attribute) || fallback] *)
Definition orElse (attribute : option Z) (fallback : Z) : Z :=
  match attribute with
  | Some n => if n =? 0 then fallback else n
  | None => fallback
  end.

(** The positions of [step.querySelectorAll('[data-quiz-option-multi].is-selected')]. *)
Definition selectedOptions (l : list MultiOption) : list nat :=
  (fun entry => entry.1) <$> filter (fun entry => isSelected entry.2 = true) (imap pair l).

Definition setSelected (b : bool) (i : nat) (l : list MultiOption)
    : list MultiOption :=
  alter (fun o => {| value := value o; isSelected := b |}) i l.

(** [handleMultipleChoice(option)] for the option at position [i].  When
    nothing is selected and the maximum is not positive,
    [selectedOptions[0]] is [undefined] and the handler throws before it
    changes anything. *)
Definition handleMultipleChoice (i : nat) (s : Step) : Step :=
  match options s !! i with
  | None => s
  | Some option =>
    let maxSelections_ := orElse (maxSelections s) 3 in
    let minSelections_ := orElse (minSelections s) 1 in
    let selected := selectedOptions (options s) in
    let changed :=
      if isSelected option then Some (setSelected false i (options s))
      else
        let removed :=
          if maxSelections_ <=? Z.of_nat (length selected) then
            match selected with
            | first :: _ => Some (setSelected false first (options s))
            | [] => None
            end
          else Some (options s) in
        setSelected true i <$> removed in
    match changed with
    | None => s
    | Some options' =>
      let currentSelected := Z.of_nat (length (selectedOptions options')) in
      {| options := options';
         maxSelections := maxSelections s; minSelections := minSelections s;
         continueDisabled := currentSelected <? minSelections_ |}
    end
  end.

(** The array [saveCurrentAnswer] stores for a step of type [multiple]. *)
Definition selectedValues (s : Step) : list jsstring :=
  value <$> filter (fun o => isSelected o = true) (options s).

Definition clicks (positions : list nat) (s : Step) : Step :=
  foldl (fun s i => handleMultipleChoice i s) s positions.

(** A step with the given option values, none selected. *)
Definition sampleStep (values : list string) (maxAttr minAttr : option Z) : Step := {|
  options := (fun v => {| value := lit v; isSelected := false |}) <$> values;
  maxSelections := maxAttr; minSelections := minAttr;
  continueDisabled := true |}.

End MultiChoice.
(** ** The facets: the URL a filter or a sort loads *)

(** [class Facets] of [src/assets/quote-system.js].  [handleSort] and
    [applyFilters] build the URL they pass to [loadPage] from the search
    parameters of the current URL; the parameters are a list of name-value
    pairs in the order of the query string, as [URLSearchParams] has
    them.  Form values are strings. *)
Module Facets.

Abbreviation Params := (list (jsstring * jsstring)).

(** [searchParams.delete(name)]: every pair with that name goes. *)
Definition delete (name : jsstring) (params : Params) : Params :=
  filter (fun entry => entry.1 <> name) params.

(** [searchParams.append(name, value)] *)
Definition append (name value : jsstring) (params : Params) : Params :=
  params ++ [(name, value)].

(** [searchParams.set(name, value)]: the first pair with that name takes
    the value and the other pairs with that name go; without such a pair,
    the pair is appended. *)
Fixpoint set (name value : jsstring) (params : Params) : Params :=
  match params with
  | [] => [(name, value)]
  | (key, old) :: rest =>
    if bool_decide (key = name) then (name, value) :: delete name rest
    else (key, old) :: set name value rest
  end.

(** The search parameters of the URL [handleSort(sortValue)] loads. *)
Definition handleSort (sortValue : jsstring) (params : Params) : Params :=
  set (lit "sort_by") sortValue params.

(** [key.startsWith('filter.')] *)
Definition isFilter (key : jsstring) : bool := startsWith (lit "filter.") key.

(** The search parameters of the URL [applyFilters()] loads, for the
    entries [formData] of the form. *)
Definition applyFilters (formData : list (jsstring * jsstring))
    (params : Params) : Params :=
  (* Clear existing filter params *)
  let keysToRemove :=
    (fun entry => entry.1) <$> filter (fun entry => isFilter entry.1 = true) params in
  let params := foldl (fun params key => delete key params) params keysToRemove in
  (* Add new filter params *)
  foldl (fun params entry =>
           match entry.2 with
           | [] => params
           | _ :: _ => append entry.1 entry.2 params
           end)
        params formData.

End Facets.
(** ** The theme toggle *)

(** [class ThemeToggle] of [src/assets/theme-toggle.js]: the current
    theme, the saved preference, and the classes [applyTheme] leaves on
    the document element, with the [theme:changed] events it dispatches.
    [window.matchMedia] is taken to exist.  The inline [color-scheme] and
    the [theme-color] meta that [applyTheme] also writes are left out:
    whether the style takes a value is up to the CSS grammar, and nothing
    here reads them. *)
Module ThemeToggle.

Definition dark : jsstring := lit "dark".
Definition light : jsstring := lit "light".

Arguments dark : simpl never.
Arguments light : simpl never.

Record Page := {
  currentTheme : jsstring;
  saved : option jsstring;     (* [localStorage['reaxing-theme-preference']] *)
  darkClass : bool;            (* the document element carries [dark-mode] *)
  lightClass : bool;           (* ... carries [light-mode] *)
  changes : list jsstring      (* the themes of the [theme:changed] events *)
}.

(** A string as a condition: the empty string is falsy. *)
Definition truthy (s : option jsstring) : bool :=
  match s with
  | Some (_ :: _) => true
  | _ => false
  end.

(** [getInitialTheme], for the saved preference and for whether the
    system prefers dark. *)
Definition getInitialTheme (preference : option jsstring) (systemDark : bool)
    : jsstring :=
  match preference with
  | Some s =>
    if truthy preference && (bool_decide (s = dark) || bool_decide (s = light))
    then s
    else if systemDark then dark else light
  | None => if systemDark then dark else light
  end.

Definition applyTheme (theme : jsstring) (p : Page) : Page :=
  let isDark := bool_decide (theme = dark) in
  {| currentTheme := currentTheme p; saved := saved p;
     darkClass := if isDark then true else false;
     lightClass := if isDark then false else true;
     changes := changes p ++ [theme] |}.

(** The constructor and [init], on a document element that carries the
    classes given. *)
Definition construct (preference : option jsstring) (systemDark : bool)
    (hasDark hasLight : bool) : Page :=
  let theme := getInitialTheme preference systemDark in
  applyTheme theme
    {| currentTheme := theme; saved := preference;
       darkClass := hasDark; lightClass := hasLight;
       changes := [] |}.

Definition setTheme (theme : jsstring) (p : Page) : Page :=
  if bool_decide (theme <> dark) && bool_decide (theme <> light) then p
  else
    applyTheme theme
      {| currentTheme := theme; saved := Some theme;
         darkClass := darkClass p; lightClass := lightClass p;
         changes := changes p |}.

Definition toggle (p : Page) : Page :=
  let newTheme := if bool_decide (currentTheme p = dark) then light else dark in
  setTheme newTheme p.

(** The listener of [watchSystemPreference], for [e.matches]. *)
Definition systemChanged (matches : bool) (p : Page) : Page :=
  if negb (truthy (saved p)) then
    let theme := if matches then dark else light in
    applyTheme theme
      {| currentTheme := theme; saved := saved p;
         darkClass := darkClass p; lightClass := lightClass p;
         changes := changes p |}
  else p.

(** Another tab wrote [newValue] under the key ([None]: removed it), and
    the listener of [watchStorageChanges] runs. *)
Definition storageChanged (newValue : option jsstring) (p : Page) : Page :=
  let p := {| currentTheme := currentTheme p; saved := newValue;
              darkClass := darkClass p; lightClass := lightClass p;
              changes := changes p |} in
  match newValue with
  | Some (c :: s) =>
    applyTheme (c :: s)
      {| currentTheme := c :: s; saved := saved p;
         darkClass := darkClass p; lightClass := lightClass p;
         changes := changes p |}
  | _ => p
  end.

Inductive Event :=
| Toggle
| SetTheme (theme : jsstring)
| SystemChanged (matches : bool)
| StorageChanged (newValue : option jsstring).

Definition step (p : Page) (e : Event) : Page :=
  match e with
  | Toggle => toggle p
  | SetTheme theme => setTheme theme p
  | SystemChanged matches => systemChanged matches p
  | StorageChanged newValue => storageChanged newValue p
  end.

Definition run (es : list Event) (p : Page) : Page := foldl step p es.

(** An event as this code causes it: a storage event carries a theme
    that [setTheme] of another tab wrote. *)
Definition fromThisCode (e : Event) : bool :=
  match e with
  | StorageChanged (Some s) => bool_decide (s = dark) || bool_decide (s = light)
  | StorageChanged None => false
  | _ => true
  end.

End ThemeToggle.
(** ** Load more *)

(** [class CollectionPagination] of [src/unnamed/part_000], for a page
    with the load-more button and without the infinite-scroll element.
    A product card is the string of its markup. *)
Module CollectionPagination.

(** What the fetched page holds: its product cards, and its load-more
    button, if any, with its [data-next-page], if any. *)
Record Fetched := {
  newProducts : list jsstring;
  newLoadMore : option (option jsstring)
}.

Record Widget := {
  currentPage : Z;
  isLoading : bool;
  nextPage : option jsstring;      (* [loadMoreBtn.dataset.nextPage] *)
  buttonShown : bool;              (* [style.display] is not ['none'] *)
  buttonDisabled : bool;
  container : list jsstring;       (* the cards of the container *)
  pending : list jsstring          (* the URLs of the fetches not yet settled *)
}.

Definition construct (cards : list jsstring) (next : option jsstring) : Widget := {|
  currentPage := 1; isLoading := false; nextPage := next;
  buttonShown := true; buttonDisabled := false;
  container := cards; pending := [] |}.

(** [loadMore()] up to its [await]. *)
Definition loadMore (w : Widget) : Widget :=
  if isLoading w then w
  else
    match nextPage w with
    | Some (c :: url) =>
      {| currentPage := currentPage w; isLoading := true;
         nextPage := nextPage w; buttonShown := buttonShown w;
         buttonDisabled := true; container := container w;
         pending := pending w ++ [c :: url] |}
    | _ =>
      (* No more pages *)
      {| currentPage := currentPage w; isLoading := isLoading w;
         nextPage := nextPage w; buttonShown := false;
         buttonDisabled := buttonDisabled w; container := container w;
         pending := pending w |}
    end.

(** The rest of [loadMore()], when the oldest pending fetch settles:
    [None] when the fetch or the reading of the body failed. *)
Definition settle (outcome : option Fetched) (w : Widget) : Widget :=
  match pending w with
  | [] => w
  | _ :: rest =>
    let w' :=
      match outcome with
      | Some page =>
        {| currentPage := currentPage w + 1; isLoading := isLoading w;
           nextPage :=
             match newLoadMore page with
             | Some newNextPage =>
               match newNextPage with
               | Some (c :: url) => Some (c :: url)
               | _ => Some []
               end
             | None => nextPage w
             end;
           buttonShown :=
             match newLoadMore page with
             | Some _ => buttonShown w
             | None => false
             end;
           buttonDisabled := buttonDisabled w;
           container := container w ++ newProducts page;
           pending := pending w |}
      | None => w
      end in
    {| currentPage := currentPage w'; isLoading := false;
       nextPage := nextPage w'; buttonShown := buttonShown w';
       buttonDisabled := false; container := container w';
       pending := rest |}
  end.

Inductive Event :=
| Click                           (* the button, or the observer *)
| Settle (outcome : option Fetched).

Definition step (w : Widget) (e : Event) : Widget :=
  match e with
  | Click => loadMore w
  | Settle outcome => settle outcome w
  end.

Definition run (es : list Event) (w : Widget) : Widget := foldl step w es.

(** A click and the arrival of its page, for each page in turn. *)
Definition loads (pages : list Fetched) : list Event :=
  pages ≫= (fun page => [Click; Settle (Some page)]).

(** The fetched page has a load-more button with a next page. *)
Definition hasNext (page : Fetched) : bool :=
  match newLoadMore page with
  | Some (Some (_ :: _)) => true
  | _ => false
  end.

End CollectionPagination.
(** ** The cart drawer: the footer over refreshes *)

(** [CartDrawer.refresh] of [src/assets/cart-drawer.js], for a drawer
    that has a footer: what becomes of the footer when the fetched
    section has a footer ([Some] of its markup) or has none. *)
Module CartDrawer.

Record Footer := {
  innerHTML : jsstring;
  display : option jsstring          (* [style.display], once set *)
}.

Definition refreshFooter (newFooter : option jsstring) (footer : Footer)
    : Footer :=
  match newFooter with
  | Some markup =>
    (* [newFooter && this.footer] *)
    {| innerHTML := markup; display := display footer |}
  | None =>
    (* [!newFooter && this.footer] *)
    {| innerHTML := innerHTML footer; display := Some (lit "none") |}
  end.

Definition refreshes (fetched : list (option jsstring)) (footer : Footer)
    : Footer :=
  foldl (fun footer newFooter => refreshFooter newFooter footer) footer fetched.

End CartDrawer.

(** ** [JSON.stringify] and [JSON.parse] *)

Module JSON.

(** A JSON value.  A number is an integer; a numeric token with a
    fraction or an exponent is kept as the text of the token.  The members
    of an object are in the order of the text. *)
#[local] Unset Elimination Schemes.
Inductive value :=
| Null
| Bool (b : bool)
| Number (n : Z)
| Decimal (token : jsstring)
| Str (s : jsstring)
| Array (items : list value)
| Object (members : list (jsstring * value)).
#[local] Set Elimination Schemes.

(** *** Numbers in decimal *)

Fixpoint uintChars (u : Decimal.uint) : jsstring :=
  match u with
  | Decimal.Nil => []
  | Decimal.D0 u => 48%N :: uintChars u
  | Decimal.D1 u => 49%N :: uintChars u
  | Decimal.D2 u => 50%N :: uintChars u
  | Decimal.D3 u => 51%N :: uintChars u
  | Decimal.D4 u => 52%N :: uintChars u
  | Decimal.D5 u => 53%N :: uintChars u
  | Decimal.D6 u => 54%N :: uintChars u
  | Decimal.D7 u => 55%N :: uintChars u
  | Decimal.D8 u => 56%N :: uintChars u
  | Decimal.D9 u => 57%N :: uintChars u
  end.

(** [n.toString()] of an integer, also what [JSON.stringify] prints. *)
Definition decimal (n : Z) : jsstring :=
  if n <? 0 then 45%N :: uintChars (N.to_uint (Z.abs_N n))
  else uintChars (N.to_uint (Z.to_N n)).

Definition isDigit (c : N) : bool := ((48 <=? c) && (c <=? 57))%N.

Definition digitOf (c : N) : option (Decimal.uint -> Decimal.uint) :=
  if (c =? 48)%N then Some Decimal.D0
  else if (c =? 49)%N then Some Decimal.D1
  else if (c =? 50)%N then Some Decimal.D2
  else if (c =? 51)%N then Some Decimal.D3
  else if (c =? 52)%N then Some Decimal.D4
  else if (c =? 53)%N then Some Decimal.D5
  else if (c =? 54)%N then Some Decimal.D6
  else if (c =? 55)%N then Some Decimal.D7
  else if (c =? 56)%N then Some Decimal.D8
  else if (c =? 57)%N then Some Decimal.D9
  else None.

(** The longest run of digits at the start of [s], and what follows it. *)
Fixpoint readDigits (s : jsstring) : Decimal.uint * jsstring :=
  match s with
  | [] => (Decimal.Nil, [])
  | c :: r =>
    match digitOf c with
    | Some digit => let (u, rest) := readDigits r in (digit u, rest)
    | None => (Decimal.Nil, s)
    end
  end.

(** *** Strings *)

Definition isHighSurrogate (c : N) : bool := ((55296 <=? c) && (c <=? 56319))%N.
Definition isLowSurrogate (c : N) : bool := ((56320 <=? c) && (c <=? 57343))%N.

Definition hexDigit (d : N) : N := (if d <? 10 then 48 + d else 87 + d)%N.

(** [\uXXXX] with lower-case digits. *)
Definition unicodeEscape (c : N) : jsstring :=
  [92; 117; hexDigit (c / 4096 mod 16); hexDigit (c / 256 mod 16);
   hexDigit (c / 16 mod 16); hexDigit (c mod 16)]%N.

(** [QuoteJSONString] for one code unit that is not a surrogate. *)
Definition quoteChar (c : N) : jsstring :=
  if (c =? 8)%N then lit "\b"
  else if (c =? 9)%N then lit "\t"
  else if (c =? 10)%N then lit "\n"
  else if (c =? 12)%N then lit "\f"
  else if (c =? 13)%N then lit "\r"
  else if (c =? 34)%N then [92; 34]%N
  else if (c =? 92)%N then [92; 92]%N
  else if (c <? 32)%N then unicodeEscape c
  else [c].

(** A surrogate pair is copied; a surrogate on its own is escaped. *)
Fixpoint quoteBody (s : jsstring) : jsstring :=
  match s with
  | [] => []
  | c :: r =>
    if isHighSurrogate c then
      match r with
      | d :: r' =>
        if isLowSurrogate d then c :: d :: quoteBody r'
        else unicodeEscape c ++ quoteBody r
      | [] => unicodeEscape c
      end
    else if isLowSurrogate c then unicodeEscape c ++ quoteBody r
    else quoteChar c ++ quoteBody r
  end.

Definition quote (s : jsstring) : jsstring := dq ++ quoteBody s ++ dq.

Definition hexValue (c : N) : option N :=
  if isDigit c then Some (c - 48)%N
  else if ((97 <=? c) && (c <=? 102))%N then Some (c - 87)%N
  else if ((65 <=? c) && (c <=? 70))%N then Some (c - 55)%N
  else None.

Definition hex4 (a b c d : N) : option N :=
  match hexValue a, hexValue b, hexValue c, hexValue d with
  | Some a, Some b, Some c, Some d => Some (a * 4096 + b * 256 + c * 16 + d)%N
  | _, _, _, _ => None
  end.

(** The character a one-letter escape stands for. *)
Definition simpleEscape (c : N) : option N :=
  if (c =? 34)%N then Some 34%N
  else if (c =? 92)%N then Some 92%N
  else if (c =? 47)%N then Some 47%N
  else if (c =? 98)%N then Some 8%N
  else if (c =? 102)%N then Some 12%N
  else if (c =? 110)%N then Some 10%N
  else if (c =? 114)%N then Some 13%N
  else if (c =? 116)%N then Some 9%N
  else None.

(** The characters of a string up to its closing quote, and the text
    after that quote. *)
Fixpoint parseChars (s : jsstring) : option (jsstring * jsstring) :=
  match s with
  | [] => None
  | c :: r =>
    if (c =? 34)%N then Some ([], r)
    else if (c =? 92)%N then
      match r with
      | [] => None
      | e :: r1 =>
        if (e =? 117)%N then
          match r1 with
          | h1 :: h2 :: h3 :: h4 :: r2 =>
            match hex4 h1 h2 h3 h4, parseChars r2 with
            | Some u, Some (t, rest) => Some (u :: t, rest)
            | _, _ => None
            end
          | _ => None
          end
        else
          match simpleEscape e, parseChars r1 with
          | Some u, Some (t, rest) => Some (u :: t, rest)
          | _, _ => None
          end
      end
    else if (c <? 32)%N then None
    else match parseChars r with
         | Some (t, rest) => Some (c :: t, rest)
         | None => None
         end
  end.

(** *** Values *)

Fixpoint stringify (v : value) : jsstring :=
  match v with
  | Null => lit "null"
  | Bool true => lit "true"
  | Bool false => lit "false"
  | Number n => decimal n
  | Decimal token => token
  | Str s => quote s
  | Array items =>
    lit "["
    ++ (fix elements (l : list value) : jsstring :=
          match l with
          | [] => []
          | [x] => stringify x
          | x :: l' => stringify x ++ lit "," ++ elements l'
          end) items
    ++ lit "]"
  | Object members =>
    lit "{"
    ++ (fix properties (l : list (jsstring * value)) : jsstring :=
          match l with
          | [] => []
          | [(k, x)] => quote k ++ lit ":" ++ stringify x
          | (k, x) :: l' =>
            quote k ++ lit ":" ++ stringify x ++ lit "," ++ properties l'
          end) members
    ++ lit "}"
  end.

(** JSON white space: space, tab, line feed, carriage return. *)
Definition isWs (c : N) : bool :=
  ((c =? 32) || (c =? 9) || (c =? 10) || (c =? 13))%N.

Fixpoint skipWs (s : jsstring) : jsstring :=
  match s with
  | c :: r => if isWs c then skipWs r else s
  | [] => []
  end.

(** [s] without the prefix [p], when it starts with it. *)
Fixpoint expect (p s : jsstring) : option jsstring :=
  match p, s with
  | [], _ => Some s
  | a :: p', b :: s' => if (a =? b)%N then expect p' s' else None
  | _ :: _, [] => None
  end.

(** At least one digit. *)
Definition readDigits1 (s : jsstring) : option jsstring :=
  match readDigits s with
  | (Decimal.Nil, _) => None
  | (_, rest) => Some rest
  end.

(** The optional fraction and exponent of a number: [None] when one is
    begun and malformed, else the text after them. *)
Definition readFraction (s : jsstring) : option jsstring :=
  match s with
  | c :: r => if (c =? 46)%N then readDigits1 r else Some s
  | [] => Some s
  end.

Definition readExponent (s : jsstring) : option jsstring :=
  match s with
  | c :: r =>
    if (c =? 101)%N || (c =? 69)%N then
      match r with
      | sign :: r' =>
        if (sign =? 43)%N || (sign =? 45)%N then readDigits1 r'
        else readDigits1 r
      | [] => None
      end
    else Some s
  | [] => Some s
  end.

(** A number: an optional minus, an integer part without a leading zero
    (the digits read are their own normal form), then an optional
    fraction and exponent. *)
Definition parseNumber (s : jsstring) : option (value * jsstring) :=
  let (negative, s1) := match s with
                        | c :: r => if (c =? 45)%N then (true, r) else (false, s)
                        | [] => (false, s)
                        end in
  let (u, s2) := readDigits s1 in
  match u with
  | Decimal.Nil => None
  | _ =>
    if negb (Decimal.uint_beq (Decimal.unorm u) u) then None
    else
      match readFraction s2 with
      | None => None
      | Some s3 =>
        match readExponent s3 with
        | None => None
        | Some s4 =>
          if (length s4 =? length s2)%nat then
            let n := Z.of_N (N.of_uint u) in
            Some (Number (if negative then - n else n), s2)
          else Some (Decimal (take (length s - length s4) s), s4)
        end
      end
  end.

(** The recursive descent: [parseValue] reads one value, [parseElements]
    the elements of an array after its first bracket up to the closing
    one, [parseMembers] the members of an object likewise. *)
Fixpoint parseValue (fuel : nat) (s : jsstring) : option (value * jsstring) :=
  match fuel with
  | O => None
  | S fuel =>
    match skipWs s with
    | [] => None
    | c :: r =>
      if (c =? 34)%N then
        match parseChars r with
        | Some (t, rest) => Some (Str t, rest)
        | None => None
        end
      else if (c =? 91)%N then
        match skipWs r with
        | c' :: r' =>
          if (c' =? 93)%N then Some (Array [], r')
          else match parseElements fuel r with
               | Some (items, rest) => Some (Array items, rest)
               | None => None
               end
        | [] => None
        end
      else if (c =? 123)%N then
        match skipWs r with
        | c' :: r' =>
          if (c' =? 125)%N then Some (Object [], r')
          else match parseMembers fuel r with
               | Some (members, rest) => Some (Object members, rest)
               | None => None
               end
        | [] => None
        end
      else if (c =? 110)%N then
        match expect (lit "ull") r with
        | Some rest => Some (Null, rest)
        | None => None
        end
      else if (c =? 116)%N then
        match expect (lit "rue") r with
        | Some rest => Some (Bool true, rest)
        | None => None
        end
      else if (c =? 102)%N then
        match expect (lit "alse") r with
        | Some rest => Some (Bool false, rest)
        | None => None
        end
      else parseNumber (c :: r)
    end
  end
with parseElements (fuel : nat) (s : jsstring)
    : option (list value * jsstring) :=
  match fuel with
  | O => None
  | S fuel =>
    match parseValue fuel s with
    | None => None
    | Some (v, rest) =>
      match skipWs rest with
      | c :: r =>
        if (c =? 44)%N then
          match parseElements fuel r with
          | Some (vs, rest') => Some (v :: vs, rest')
          | None => None
          end
        else if (c =? 93)%N then Some ([v], r)
        else None
      | [] => None
      end
    end
  end
with parseMembers (fuel : nat) (s : jsstring)
    : option (list (jsstring * value) * jsstring) :=
  match fuel with
  | O => None
  | S fuel =>
    match skipWs s with
    | q :: s1 =>
      if (q =? 34)%N then
        match parseChars s1 with
        | None => None
        | Some (k, s2) =>
          match skipWs s2 with
          | colon :: s3 =>
            if (colon =? 58)%N then
              match parseValue fuel s3 with
              | None => None
              | Some (v, rest) =>
                match skipWs rest with
                | c :: r =>
                  if (c =? 44)%N then
                    match parseMembers fuel r with
                    | Some (ms, rest') => Some ((k, v) :: ms, rest')
                    | None => None
                    end
                  else if (c =? 125)%N then Some ([(k, v)], r)
                  else None
                | [] => None
                end
              end
            else None
          | [] => None
          end
        end
      else None
    | [] => None
    end
  end.

(** [JSON.parse(text)]: [None] stands for the [SyntaxError]. *)
Definition parse (text : jsstring) : option value :=
  match parseValue (S (length text)) text with
  | Some (v, rest) =>
    match skipWs rest with
    | [] => Some v
    | _ :: _ => None
    end
  | None => None
  end.

(** The parts of a number token with a fraction or an exponent: the
    digits of its integer part and of its fraction, and its exponent. *)
Definition decimalParts (token : jsstring) : Decimal.uint * Decimal.uint * Z :=
  let s1 := match token with
            | c :: r => if (c =? 45)%N then r else token
            | [] => token
            end in
  let (whole, s2) := readDigits s1 in
  let (fraction, s3) :=
    match s2 with
    | c :: r => if (c =? 46)%N then readDigits r else (Decimal.Nil, s2)
    | [] => (Decimal.Nil, s2)
    end in
  let exponent :=
    match s3 with
    | c :: r =>
      if (c =? 101)%N || (c =? 69)%N then
        match r with
        | sign :: r' =>
          if (sign =? 45)%N then - Z.of_N (N.of_uint (fst (readDigits r')))
          else if (sign =? 43)%N then Z.of_N (N.of_uint (fst (readDigits r')))
          else Z.of_N (N.of_uint (fst (readDigits r)))
        | [] => 0
        end
      else 0
    | [] => 0
    end in
  (whole, fraction, exponent).

(** Whether the Number a token denotes is zero: its digits are all zero,
    or its value [m * 10 ^ e] is at most [2 ^ -1075], half the least
    positive double, and rounds to zero. *)
Definition decimalIsZero (token : jsstring) : bool :=
  let '(whole, fraction, exponent) := decimalParts token in
  let m := Z.of_N (N.of_uint (Decimal.app whole fraction)) in
  let e := exponent - Z.of_nat (Decimal.nb_digits fraction) in
  if m =? 0 then true
  else if 0 <=? e then false
  else m * 2 ^ 1075 <=? 10 ^ (- e).

(** [!!v] *)
Definition truthy (v : value) : bool :=
  match v with
  | Null => false
  | Bool b => b
  | Number n => negb (n =? 0)
  | Decimal token => negb (decimalIsZero token)
  | Str s => negb (length s =? 0)%nat
  | Array _ | Object _ => true
  end.

End JSON.

(** ** The quote list *)

Module QuoteSystem.

(** The value of a property of an item: missing ([undefined]), [null], or
    a string.  [dataset] gives a string or [undefined]; the cart gives a
    string or [null]. *)
Inductive Field :=
| Undefined
| NullValue
| Text (s : jsstring).

#[global] Instance Field_eq_dec : EqDecision Field.
Proof. solve_decision. Defined.

Record QuoteItem := {
  id : jsstring;
  productId : Field;
  productTitle : Field;
  productHandle : Field;
  productImage : Field;
  variantId : Field;
  variantTitle : Field;
  variantPrice : Field;
  quantity : option Z          (* set by [convertCartToQuote] only *)
}.

(** The [data-*] attributes of a quote button. *)
Record Button := {
  data_productId : option jsstring;
  data_productTitle : option jsstring;
  data_productHandle : option jsstring;
  data_productImage : option jsstring;
  data_variantId : option jsstring;
  data_variantTitle : option jsstring;
  data_variantPrice : option jsstring
}.

(** A line of [/cart.js].  [price_formatted] is the string
    [window.Theme.formatMoney(item.price)] returns for the line, and
    [now] the value of [Date.now()] when the line is visited. *)
Record CartLine := {
  now : Z;
  product_id : Z;
  variant_id : Z;
  product_title : Field;
  handle : Field;
  image : Field;
  variant_title : Field;
  price_formatted : jsstring;
  line_quantity : Z
}.

Definition dataset (x : option jsstring) : Field :=
  match x with
  | Some s => Text s
  | None => Undefined
  end.

(** *** What [JSON.stringify] sees of the items, and back *)

(** A property of an object literal: left out when [undefined]. *)
Definition member (key : string) (f : Field) : list (jsstring * JSON.value) :=
  match f with
  | Undefined => []
  | NullValue => [(lit key, JSON.Null)]
  | Text s => [(lit key, JSON.Str s)]
  end.

Definition itemValue (i : QuoteItem) : JSON.value :=
  JSON.Object
    ([(lit "id", JSON.Str (id i))]
     ++ member "productId" (productId i)
     ++ member "productTitle" (productTitle i)
     ++ member "productHandle" (productHandle i)
     ++ member "productImage" (productImage i)
     ++ member "variantId" (variantId i)
     ++ member "variantTitle" (variantTitle i)
     ++ member "variantPrice" (variantPrice i)
     ++ match quantity i with
        | Some q => [(lit "quantity", JSON.Number q)]
        | None => []
        end).

Definition itemsValue (l : list QuoteItem) : JSON.value :=
  JSON.Array (itemValue <$> l).

(** The property [key] at the head of the members, if it is there: its
    value and the members after it; [None] when its value is neither a
    string nor [null]. *)
Definition takeMember (key : string) (ms : list (jsstring * JSON.value))
    : option (Field * list (jsstring * JSON.value)) :=
  match ms with
  | (k, v) :: rest =>
    if bool_decide (k = lit key) then
      match v with
      | JSON.Null => Some (NullValue, rest)
      | JSON.Str s => Some (Text s, rest)
      | _ => None
      end
    else Some (Undefined, ms)
  | [] => Some (Undefined, [])
  end.

(** The item a parsed object is, when it has the shape [itemValue] gives. *)
Definition valueItem (v : JSON.value) : option QuoteItem :=
  match v with
  | JSON.Object ((k, JSON.Str i) :: ms) =>
    if bool_decide (k = lit "id") then
      '(f1, ms) ← takeMember "productId" ms;
      '(f2, ms) ← takeMember "productTitle" ms;
      '(f3, ms) ← takeMember "productHandle" ms;
      '(f4, ms) ← takeMember "productImage" ms;
      '(f5, ms) ← takeMember "variantId" ms;
      '(f6, ms) ← takeMember "variantTitle" ms;
      '(f7, ms) ← takeMember "variantPrice" ms;
      q ← match ms with
          | [] => Some None
          | [(k, JSON.Number q)] =>
            if bool_decide (k = lit "quantity") then Some (Some q) else None
          | _ => None
          end;
      Some {| id := i; productId := f1; productTitle := f2;
              productHandle := f3; productImage := f4; variantId := f5;
              variantTitle := f6; variantPrice := f7; quantity := q |}
    else None
  | _ => None
  end.

Definition valueItems (v : JSON.value) : option (list QuoteItem) :=
  match v with
  | JSON.Array vs => mapM valueItem vs
  | _ => None
  end.

(** *** The widget *)

(** What [loadItems] returns: a list of items, or some other truthy JSON
    value the storage held, on which the handlers are not modelled. *)
Inductive Loaded :=
| Items (l : list QuoteItem)
| Foreign (v : JSON.value).

Definition storageKey : jsstring := lit "quoteItems".

(** [JSON.parse(localStorage.getItem('quoteItems')) || []], with the
    [SyntaxError] caught.  A missing key gives [null], which parses to
    [null]. *)
Definition loadItems (localStorage : gmap jsstring jsstring) : Loaded :=
  match localStorage !! storageKey with
  | None => Items []
  | Some text =>
    match JSON.parse text with
    | None => Items []
    | Some v =>
      if JSON.truthy v then
        match valueItems v with
        | Some l => Items l
        | None => Foreign v
        end
      else Items []
    end
  end.

Record Widget := {
  items : list QuoteItem;
  isOpen : bool;
  localStorage : gmap jsstring jsstring
}.

Definition with_items (l : list QuoteItem) (w : Widget) : Widget :=
  {| items := l; isOpen := isOpen w; localStorage := localStorage w |}.

Definition with_isOpen (b : bool) (w : Widget) : Widget :=
  {| items := items w; isOpen := b; localStorage := localStorage w |}.

(** The constructor, for a page whose markup has the quote modal: [None]
    when the storage holds JSON that is not a list of items. *)
Definition construct (storage : gmap jsstring jsstring) : option Widget :=
  match loadItems storage with
  | Items l => Some {| items := l; isOpen := false; localStorage := storage |}
  | Foreign _ => None
  end.

Definition saveItems (w : Widget) : Widget :=
  {| items := items w; isOpen := isOpen w;
     localStorage :=
       <[storageKey := JSON.stringify (itemsValue (items w))]> (localStorage w) |}.

(** [i.productId === productId && i.variantId === variantId] *)
Definition sameVariant (p v : Field) (i : QuoteItem) : Prop :=
  productId i = p /\ variantId i = v.

#[global] Instance sameVariant_dec p v i : Decision (sameVariant p v i).
Proof. unfold sameVariant. apply _. Defined.

(** [this.items.find(...)], as the truth value the [if] tests: an item is
    an object, hence truthy. *)
Definition exists_ (p v : Field) (l : list QuoteItem) : bool :=
  match list_find (sameVariant p v) l with
  | Some _ => true
  | None => false
  end.

(** The object literal [item] of [addItem(button)], at time
    [time = Date.now()]. *)
Definition newItem (time : Z) (button : Button) : QuoteItem := {|
  id := JSON.decimal time;
  productId := dataset (data_productId button);
  productTitle := dataset (data_productTitle button);
  productHandle := dataset (data_productHandle button);
  productImage := dataset (data_productImage button);
  variantId := dataset (data_variantId button);
  variantTitle := dataset (data_variantTitle button);
  variantPrice := dataset (data_variantPrice button);
  quantity := None |}.

(** [addItem(button)] at time [time = Date.now()].  [renderItems] only
    rewrites the markup of the list from [this.items]. *)
Definition addItem (time : Z) (button : Button) (w : Widget) : Widget :=
  let item := newItem time button in
  if exists_ (productId item) (variantId item) (items w) then w
  else saveItems (with_items (items w ++ [item]) w).

Definition removeItem (itemId : jsstring) (w : Widget) : Widget :=
  saveItems (with_items (filter (fun item => id item <> itemId) (items w)) w).

(** The body of the [forEach] of [convertCartToQuote] for one line. *)
Definition addLine (l : list QuoteItem) (line : CartLine) : list QuoteItem :=
  let p := Text (JSON.decimal (product_id line)) in
  let v := Text (JSON.decimal (variant_id line)) in
  if exists_ p v l then l
  else l ++ [{|
    id := JSON.decimal (now line) ++ JSON.decimal (variant_id line);
    productId := p;
    productTitle := product_title line;
    productHandle := handle line;
    productImage := image line;
    variantId := v;
    variantTitle := variant_title line;
    variantPrice := Text (price_formatted line);
    quantity := Some (line_quantity line) |}].

Definition open (w : Widget) : Widget := with_isOpen true w.
Definition close (w : Widget) : Widget := with_isOpen false w.

(** [convertCartToQuote] once [/cart.js] has answered: [None] when the
    fetch or the parsing of its body failed, which the [catch] logs. *)
Definition convertCartToQuote (cart : option (list CartLine)) (w : Widget)
    : Widget :=
  match cart with
  | Some lines => open (saveItems (with_items (foldl addLine (items w) lines) w))
  | None => w
  end.

(** The timer [handleSubmit] sets. *)
Definition submitted (w : Widget) : Widget := saveItems (with_items [] w).

Inductive Event :=
| ClickQuoteButton (time : Z) (button : Button)
| ClickRemove (itemId : jsstring)
| CartAnswered (cart : option (list CartLine))
| SubmitTimer
| ClickClose
| PressEscape.

Definition step (w : Widget) (e : Event) : Widget :=
  match e with
  | ClickQuoteButton time button => open (addItem time button w)
  | ClickRemove itemId => removeItem itemId w
  | CartAnswered cart => convertCartToQuote cart w
  | SubmitTimer => submitted w
  | ClickClose => close w
  | PressEscape => if isOpen w then close w else w
  end.

Definition run (es : list Event) (w : Widget) : Widget := foldl step w es.

(** Page loads, one after the other: each constructs the widget from the
    storage the previous one left and then runs its events.  The result is
    the state at the end of the last page. *)
Fixpoint visits (storage : gmap jsstring jsstring) (page : list Event)
    (later : list (list Event)) : option Widget :=
  match construct storage with
  | None => None
  | Some w =>
    let w' := run page w in
    match later with
    | [] => Some w'
    | next :: later' => visits (localStorage w') next later'
    end
  end.

(** *** Sample buttons, used by the examples *)

Definition sampleButton (product variant : string) : Button := {|
  data_productId := Some (lit product);
  data_productTitle := Some (lit "Barbell");
  data_productHandle := Some (lit "barbell");
  data_productImage := None;
  data_variantId := Some (lit variant);
  data_variantTitle := Some (lit "Default Title");
  data_variantPrice := Some (lit "$199.00") |}.

End QuoteSystem.
(** ** The quote list: keys of items and of cart lines *)

(** The product and variant a cart line is compared by, as
    [convertCartToQuote] writes them: [item.product_id.toString()] and
    [item.variant_id.toString()]. *)
Definition lineKey (line : QuoteSystem.CartLine) : QuoteSystem.Field * QuoteSystem.Field :=
  (QuoteSystem.Text (JSON.decimal (QuoteSystem.product_id line)),
   QuoteSystem.Text (JSON.decimal (QuoteSystem.variant_id line))).

(** The product and variant an item is compared by. *)
Definition itemKey (i : QuoteSystem.QuoteItem) : QuoteSystem.Field * QuoteSystem.Field :=
  (QuoteSystem.productId i, QuoteSystem.variantId i).

(** The product and variant of the item a quote button adds. *)
Definition buttonKey (button : QuoteSystem.Button)
    : QuoteSystem.Field * QuoteSystem.Field :=
  (QuoteSystem.dataset (QuoteSystem.data_productId button),
   QuoteSystem.dataset (QuoteSystem.data_variantId button)).

(** A sample cart line, used by the examples. *)
Definition sampleLine (time product variant amount : Z) : QuoteSystem.CartLine := {|
  QuoteSystem.now := time; QuoteSystem.product_id := product;
  QuoteSystem.variant_id := variant;
  QuoteSystem.product_title := QuoteSystem.Text (lit "Barbell");
  QuoteSystem.handle := QuoteSystem.Text (lit "barbell");
  QuoteSystem.image := QuoteSystem.NullValue;
  QuoteSystem.variant_title := QuoteSystem.NullValue;
  QuoteSystem.price_formatted := lit "$199.00";
  QuoteSystem.line_quantity := amount |}.


(** * Proofs *)

(** ** Strings *)

Lemma escapeHtml_cons c text :
  escapeHtml (c :: text) = escapeChar c ++ escapeHtml text.
Proof. reflexivity. Qed.

Lemma escapeChar_cases c :
  (c = 38%N /\ escapeChar c = lit "&amp;")
  \/ (c = 160%N /\ escapeChar c = lit "&nbsp;")
  \/ (c = 60%N /\ escapeChar c = lit "&lt;")
  \/ (c = 62%N /\ escapeChar c = lit "&gt;")
  \/ (c <> 38%N /\ c <> 160%N /\ c <> 60%N /\ c <> 62%N /\ escapeChar c = [c]).
Proof.
  unfold escapeChar.
  destruct (N.eqb_spec c 38); [auto|].
  destruct (N.eqb_spec c 160); [auto|].
  destruct (N.eqb_spec c 60); [auto 6|].
  destruct (N.eqb_spec c 62); [auto 6|].
  auto 10.
Qed.

(** No angle bracket survives escaping. *)
Lemma escapeHtml_no_angle text :
  Forall (fun c => c <> 60%N /\ c <> 62%N) (escapeHtml text).
Proof.
  induction text as [|c text IH]; [constructor|].
  rewrite escapeHtml_cons. apply Forall_app. split; [|exact IH].
  destruct (escapeChar_cases c)
    as [[_ ->]|[[_ ->]|[[_ ->]|[[_ ->]|(_ & _ & H60 & H62 & ->)]]]];
    repeat constructor; try discriminate; assumption.
Qed.

(** Reading the references back gives the text that was escaped. *)
Lemma textOf_escapeHtml text : textOf (escapeHtml text) = text.
Proof.
  unfold textOf. induction text as [|c text IH]; [reflexivity|].
  rewrite escapeHtml_cons.
  destruct (escapeChar_cases c)
    as [[-> ->]|[[-> ->]|[[-> ->]|[[-> ->]|(H38 & _ & _ & _ & ->)]]]];
    try (cbn; rewrite IH; reflexivity).
  cbn [app decodeRefs].
  destruct (N.eqb_spec c 38); [contradiction|]. now rewrite IH.
Qed.

Lemma trimStart_length s : (length (trimStart s) <= length s)%nat.
Proof.
  induction s as [|c s IH]; cbn; [lia|]. destruct (isWhiteSpace c); cbn; lia.
Qed.

Lemma trim_length s : (length (trim s) <= length s)%nat.
Proof.
  unfold trim, trimEnd. rewrite length_rev.
  etransitivity; [apply trimStart_length|]. rewrite length_rev.
  apply trimStart_length.
Qed.

Lemma jslength_0 {A} (l : list A) : jslength l = 0 <-> l = [].
Proof.
  unfold jslength. destruct l; cbn; split; intros; try discriminate; auto; lia.
Qed.

(** ** Lists *)

Lemma NoDup_fmap_filter {A B} (f : A -> B) (P : A -> Prop)
    `{forall x, Decision (P x)} (l : list A) :
  NoDup (f <$> l) -> NoDup (f <$> filter P l).
Proof.
  induction l as [|x l IH]; [auto|].
  rewrite fmap_cons. intros Hnd. apply NoDup_cons in Hnd as [Hx Hnd].
  rewrite filter_cons. destruct (decide (P x)); [|auto].
  rewrite fmap_cons. apply NoDup_cons. split; [|auto].
  intros Hin. apply Hx. apply list_elem_of_fmap in Hin as (y & -> & Hy).
  apply list_elem_of_fmap. exists y. split; [reflexivity|].
  now apply list_elem_of_filter in Hy as [_ Hy].
Qed.

(** Distinct keys that all equal one value: at most one element. *)
Lemma length_le_1_of_const {A B} (f : A -> B) (b : B) (l : list A) :
  NoDup (f <$> l) -> (forall x, x ∈ l -> f x = b) -> (length l <= 1)%nat.
Proof.
  destruct l as [|x [|y l]]; cbn; intros Hnd Hall; try lia.
  exfalso. apply NoDup_cons in Hnd as [Hx _]. apply Hx.
  rewrite (Hall x), <- (Hall y) by (repeat constructor). constructor.
Qed.

Lemma filter_nil_of_all {A} (P : A -> Prop) `{forall x, Decision (P x)} l :
  (forall x, x ∈ l -> ~ P x) -> filter P l = [].
Proof.
  induction l as [|x l IH]; intros Hall; [reflexivity|].
  rewrite filter_cons. destruct (decide (P x)) as [Hp|_].
  - exfalso. apply (Hall x); [constructor|exact Hp].
  - apply IH. intros y Hy. apply Hall. now constructor.
Qed.


(** ** Property reads *)

Lemma getProperty_own (own : gmap jsstring SearchData) key data :
  own !! key = Some data -> getProperty own key = Some data.
Proof. intros H. unfold getProperty. now rewrite H. Qed.

Lemma getProperty_None (own : gmap jsstring SearchData) key :
  getProperty own key = None <-> own !! key = None /\ inherited key = false.
Proof.
  unfold getProperty. destruct (own !! key); [intuition discriminate|].
  destruct (inherited key); intuition discriminate.
Qed.

Lemma getProperty_inherited (own : gmap jsstring SearchData) key :
  own !! key = None -> inherited key = true ->
  getProperty own key = Some prototypeMember.
Proof. intros H1 H2. unfold getProperty. now rewrite H1, H2. Qed.

(** ** The modal predictive search *)

Module ModalProofs.
Import SearchModal.

(** What every handler preserves: controllers of requests in flight are
    distinct and were created; a request whose signal is not aborted
    carries the current controller; and while rows are shown the selected
    index is [-1] or the index of a row. *)
Record Inv (w : Widget) : Prop := {
  inv_created : forall r, r ∈ inflight w -> (controller r < controllers w)%nat;
  inv_current : forall r, r ∈ inflight w -> controller r ∉ aborted w ->
                abortController w = Some (controller r);
  inv_distinct : NoDup (controller <$> inflight w);
  inv_aborted : forall c, c ∈ aborted w -> (c < controllers w)%nat;
  inv_controller : forall c, abortController w = Some c ->
                   (c < controllers w)%nat;
  inv_index : rows (resultsContainer w) <> O ->
              -1 <= selectedIndex w < Z.of_nat (rows (resultsContainer w))
}.

Lemma Inv_init : Inv init.
Proof.
  split; cbn.
  - intros r Hr. inversion Hr.
  - intros r Hr. inversion Hr.
  - constructor.
  - intros c Hc. set_solver.
  - discriminate.
  - intros H. contradiction.
Qed.

Lemma rows_pos_noResults data : noResults data = false -> rowCount data <> O.
Proof.
  unfold noResults, rowCount. intros H Hz.
  destruct (length (productsOf data)), (length (articlesOf data)),
    (length (pagesOf data)); cbn in *; congruence || lia.
Qed.

Lemma noResults_rows data : noResults data = true -> rowCount data = O.
Proof.
  unfold noResults, rowCount. intros H.
  apply andb_prop in H as [H H3]. apply andb_prop in H as [H1 H2].
  apply Nat.eqb_eq in H1, H2, H3. lia.
Qed.

Lemma Inv_renderResults data q w : Inv w -> Inv (renderResults data q w).
Proof.
  intros [H1 H2 H3 Ha Hc Hix]. unfold renderResults.
  destruct (noResults data) eqn:E; split; cbn; auto.
  - intros H; contradiction.
  - intros _. pose proof (rows_pos_noResults _ E). lia.
Qed.

(** Aborting the current controller and creating the next one. *)
Lemma Inv_abort_new w :
  Inv w ->
  Inv (newAbortController
         match abortController w with Some c => abort c w | None => w end).
Proof.
  intros [H1 H2 H3 Ha Hc Hix].
  destruct (abortController w) as [c|] eqn:Ec; split; cbn; auto.
  - intros r Hr. specialize (H1 _ Hr). lia.
  - intros r Hr Hna. clear Hix. exfalso. apply Hna.
    destruct (decide (controller r ∈ aborted w)) as [|Hn]; [set_solver|].
    specialize (H2 _ Hr Hn). injection H2 as ->. set_solver.
  - intros c' Hc'. apply elem_of_union in Hc' as [Hc'|Hc'].
    + apply elem_of_singleton in Hc' as ->. specialize (Hc _ eq_refl). lia.
    + specialize (Ha _ Hc'). lia.
  - intros c' [= <-]. lia.
  - intros r Hr. specialize (H1 _ Hr). lia.
  - intros r Hr Hna. specialize (H2 _ Hr Hna). congruence.
  - intros c' Hc'. specialize (Ha _ Hc'). lia.
  - intros c' [= <-]. lia.
Qed.

(** Issuing a fetch under the controller that was just created. *)
Lemma Inv_fetch q w :
  Inv w -> (exists c, abortController w = Some c /\ controllers w = S c
                      /\ forall r, r ∈ inflight w -> (controller r < c)%nat) ->
  forall c, abortController w = Some c -> Inv (fetch c q w).
Proof.
  intros [H1 H2 H3 Ha Hc Hix] (c & Ec & En & Hlt) c' Ec'.
  rewrite Ec in Ec'. injection Ec' as <-.
  split; cbn; auto.
  - intros r Hr. apply elem_of_app in Hr as [Hr|Hr]; [auto|].
    apply list_elem_of_singleton in Hr as ->. cbn. lia.
  - intros r Hr Hna. apply elem_of_app in Hr as [Hr|Hr]; [auto|].
    apply list_elem_of_singleton in Hr as ->. cbn. exact Ec.
  - rewrite fmap_app. apply NoDup_app. split; [exact H3|]. split.
    + intros x Hx Hx'. cbn in Hx'. apply list_elem_of_singleton in Hx' as ->.
      apply list_elem_of_fmap in Hx as (r & Hr & Hin).
      specialize (Hlt _ Hin). lia.
    + cbn. apply NoDup_singleton.
Qed.

Lemma Inv_no_rows p w :
  rows p = O -> Inv w -> Inv (with_resultsContainer p w).
Proof.
  intros Hp [H1 H2 H3 Ha Hc Hix]. split; cbn; auto. intros; contradiction.
Qed.

Lemma Inv_search q w : Inv w -> Inv (search q w).
Proof.
  intros Hw. unfold search. destruct (getProperty (cache w) q) as [data|].
  { now apply Inv_renderResults. }
  pose proof (Inv_abort_new w Hw) as Hn.
  destruct (wellFormed q); [|now apply Inv_no_rows].
  assert (controllers match abortController w with
                      | Some c => abort c w | None => w end = controllers w
          /\ inflight match abortController w with
                      | Some c => abort c w | None => w end = inflight w)
    as [Ecs Einf] by (destruct (abortController w); auto).
  rewrite Ecs. apply Inv_fetch; [exact Hn| |cbn; now rewrite Ecs].
  exists (controllers w). cbn. rewrite Ecs, Einf. repeat split; auto.
  apply (inv_created w Hw).
Qed.

(** Removing the settled request keeps the invariant. *)
Lemma Inv_with_inflight_filter c w :
  Inv w -> Inv (with_inflight (filter (fun r => controller r <> c) (inflight w)) w).
Proof.
  intros [H1 H2 H3 Ha Hc Hix]. split; cbn; auto.
  - intros r Hr. apply list_elem_of_filter in Hr as [_ Hr]. auto.
  - intros r Hr. apply list_elem_of_filter in Hr as [_ Hr]. auto.
  - now apply NoDup_fmap_filter.
Qed.

Lemma Inv_with_cache m w : Inv w -> Inv (with_cache m w).
Proof. intros [H1 H2 H3 Ha Hc Hix]. split; cbn; auto. Qed.

Lemma Inv_settle c out w : Inv w -> Inv (settle c out w).
Proof.
  intros Hw. unfold settle.
  destruct (list_find _ _) as [[i r]|]; [|exact Hw].
  pose proof (Inv_with_inflight_filter c w Hw) as Hw1.
  destruct (decide _); [exact Hw1|].
  destruct out as [|[|] [data|]];
    try (apply Inv_no_rows; [reflexivity|exact Hw1]).
  apply Inv_renderResults. apply Inv_with_cache. exact Hw1.
Qed.

Lemma Inv_with_debounceTimeout t w : Inv w -> Inv (with_debounceTimeout t w).
Proof. intros [H1 H2 H3 Ha Hc Hix]. split; cbn; auto. Qed.

Lemma Inv_with_inputValue v w : Inv w -> Inv (with_inputValue v w).
Proof. intros [H1 H2 H3 Ha Hc Hix]. split; cbn; auto. Qed.

Lemma Inv_with_isActive b w : Inv w -> Inv (with_isActive b w).
Proof. intros [H1 H2 H3 Ha Hc Hix]. split; cbn; auto. Qed.

Lemma Inv_with_effect e w : Inv w -> Inv (with_effect e w).
Proof. intros [H1 H2 H3 Ha Hc Hix]. split; cbn; auto. Qed.

Lemma Inv_handleInput value w : Inv w -> Inv (handleInput value w).
Proof.
  intros Hw. unfold handleInput.
  destruct (_ <? 2).
  - apply Inv_no_rows; [reflexivity|].
    now apply Inv_with_debounceTimeout, Inv_with_inputValue.
  - apply Inv_with_debounceTimeout. apply Inv_no_rows; [reflexivity|].
    now apply Inv_with_debounceTimeout, Inv_with_inputValue.
Qed.

Lemma Inv_timerFires w : Inv w -> Inv (timerFires w).
Proof.
  intros Hw. unfold timerFires. destruct (debounceTimeout w); [|exact Hw].
  now apply Inv_search, Inv_with_debounceTimeout.
Qed.

Lemma Inv_close w : Inv w -> Inv (close w).
Proof.
  intros [H1 H2 H3 Ha Hc Hix]. split; cbn; auto. intros; contradiction.
Qed.

Lemma Inv_handleKeydown key w : Inv w -> Inv (handleKeydown key w).
Proof.
  intros Hw. unfold handleKeydown.
  destruct (Nat.eqb_spec (rows (resultsContainer w)) 0) as [|Hn]; [exact Hw|].
  pose proof (inv_index w Hw Hn) as Hi. destruct Hw as [H1 H2 H3 Ha Hc Hix].
  destruct key; try (split; cbn; auto; intros; lia).
  destruct (_ && _); split; cbn; auto.
Qed.

Lemma Inv_documentKeydown key w : Inv w -> Inv (documentKeydown key w).
Proof.
  intros Hw. destruct key; cbn; auto.
  destruct (isActive w); [now apply Inv_close|exact Hw].
Qed.

Lemma Inv_step w e : Inv w -> Inv (step w e).
Proof.
  intros Hw. destruct e; cbn.
  - now apply Inv_handleInput.
  - now apply Inv_timerFires.
  - now apply Inv_settle.
  - now apply Inv_documentKeydown, Inv_handleKeydown.
  - now apply Inv_with_isActive.
  - now apply Inv_close.
Qed.

Lemma Inv_run es w : Inv w -> Inv (run es w).
Proof.
  unfold run. revert w. induction es as [|e es IH]; cbn; intros w Hw; [exact Hw|].
  apply IH. now apply Inv_step.
Qed.

Lemma live_at_most_one w : Inv w -> (length (live w) <= 1)%nat.
Proof.
  intros [H1 H2 H3 Ha Hc Hix]. unfold live.
  destruct (abortController w) as [c|] eqn:Ec.
  - apply (length_le_1_of_const controller c).
    + now apply NoDup_fmap_filter.
    + intros r Hr. apply list_elem_of_filter in Hr as [Hna Hr].
      specialize (H2 _ Hr Hna). congruence.
  - destruct (filter _ _) as [|r l] eqn:E; cbn; [lia|]. exfalso.
    assert (r ∈ filter (fun r => controller r ∉ aborted w) (inflight w)) as Hr
      by (rewrite E; constructor).
    apply list_elem_of_filter in Hr as [Hna Hr].
    specialize (H2 _ Hr Hna). congruence.
Qed.

(** A search whose query is read as [undefined] from the cache and can
    be encoded aborts the current controller, then fetches under a new
    one. *)
Lemma search_miss_effects q w :
  getProperty (cache w) q = None -> wellFormed q = true ->
  effects (search q w)
  = effects w
    ++ match abortController w with Some c => [Abort c] | None => [] end
    ++ [Fetch (controllers w) q].
Proof.
  intros Hq Hwf. unfold search. rewrite Hq, Hwf.
  destruct (abortController w); cbn; [|reflexivity].
  now rewrite <- app_assoc.
Qed.

Lemma search_miss_aborts q w :
  Inv w -> getProperty (cache w) q = None ->
  forall r, r ∈ inflight w -> controller r ∈ aborted (search q w).
Proof.
  intros [H1 H2 H3 Ha Hc _] Hq r Hr. unfold search. rewrite Hq.
  destruct (decide (controller r ∈ aborted w)) as [Hin|Hna].
  - destruct (wellFormed q), (abortController w); cbn; set_solver.
  - rewrite (H2 _ Hr Hna). destruct (wellFormed q); cbn; set_solver.
Qed.

Lemma search_miss_live q w :
  Inv w -> getProperty (cache w) q = None -> wellFormed q = true ->
  live (search q w) = [{| controller := controllers w; query := q |}].
Proof.
  intros Hw Hq Hwf. pose proof (search_miss_aborts q w Hw Hq) as Hab.
  assert (controllers w ∉ aborted (search q w)) as Hnew.
  { unfold search. rewrite Hq, Hwf. intros Hin.
    assert (controllers w ∈ aborted w
            \/ abortController w = Some (controllers w)) as [Hi|Hi].
    { destruct (abortController w) as [c|]; cbn in Hin; [|auto].
      apply elem_of_union in Hin as [Hin|Hin]; [|auto].
      apply elem_of_singleton in Hin as ->. auto. }
    - pose proof (inv_aborted w Hw _ Hi). lia.
    - pose proof (inv_controller w Hw _ Hi). lia. }
  assert (inflight (search q w)
          = inflight w ++ [{| controller := controllers w; query := q |}]) as Ei.
  { unfold search. rewrite Hq, Hwf. destruct (abortController w); reflexivity. }
  unfold live. rewrite Ei, filter_app.
  rewrite filter_nil_of_all by (intros r Hr Hna; apply Hna, Hab, Hr).
  rewrite filter_cons. cbn. destruct (decide _); [reflexivity|contradiction].
Qed.

(** The continuation of an aborted request changes nothing but the list
    of requests in flight. *)
Lemma settle_aborted c out w :
  c ∈ aborted w ->
  let w' := settle c out w in
  resultsContainer w' = resultsContainer w /\ cache w' = cache w
  /\ selectedIndex w' = selectedIndex w /\ effects w' = effects w
  /\ forall r, r ∈ inflight w' -> controller r <> c.
Proof.
  intros Hc. cbn. unfold settle.
  destruct (list_find _ _) as [[i r]|] eqn:E.
  - destruct (decide _); [|contradiction]. cbn. repeat split.
    intros r' Hr'. now apply list_elem_of_filter in Hr' as [Hne _].
  - repeat split. intros r' Hr' Heq.
    apply list_find_None in E. rewrite Forall_forall in E. now apply (E r').
Qed.

(** [renderResults] encodes the query once more, for the footer link of
    a listing.  Every own key of the cache and every query in flight has
    gone through [encodeURIComponent] before, and a listing is rendered
    for such a query only: in the states the page reaches that call does
    not throw.  No request goes out for a name of [Object.prototype], so
    the assignment [this.cache[query] = data] of a settled request always
    creates or replaces an own property. *)
Record Encoded (w : Widget) : Prop := {
  encoded_cache : forall q data, cache w !! q = Some data -> wellFormed q = true;
  encoded_inflight : forall r, r ∈ inflight w -> wellFormed (query r) = true;
  encoded_listing : forall data q, resultsContainer w = Listing data q ->
                    wellFormed q = true;
  encoded_own : forall r, r ∈ inflight w -> inherited (query r) = false
}.

Lemma Encoded_renderResults data q w :
  (noResults data = false -> wellFormed q = true) ->
  Encoded w -> Encoded (renderResults data q w).
Proof.
  intros Hq [H1 H2 H3 H4]. unfold renderResults.
  destruct (noResults data); split; cbn; auto; try discriminate.
  intros data' q' [= <- <-]. auto.
Qed.

Lemma Encoded_search q w : Encoded w -> Encoded (search q w).
Proof.
  intros Hw. unfold search, getProperty.
  destruct (cache w !! q) as [data|] eqn:Eq.
  { apply Encoded_renderResults; [|exact Hw].
    intros _. exact (encoded_cache w Hw _ _ Eq). }
  destruct (inherited q) eqn:Ei.
  { apply Encoded_renderResults; [|exact Hw]. discriminate. }
  destruct Hw as [H1 H2 H3 H4].
  destruct (wellFormed q) eqn:Ewf, (abortController w);
    split; cbn; auto; try discriminate;
    intros r Hr; apply elem_of_app in Hr as [Hr|Hr]; auto;
    apply list_elem_of_singleton in Hr as ->; assumption.
Qed.

Lemma Encoded_settle c out w : Encoded w -> Encoded (settle c out w).
Proof.
  intros Hw. unfold settle.
  destruct (list_find _ _) as [[i r]|] eqn:E; [|exact Hw].
  apply list_find_Some in E as (Hi & _ & _).
  apply list_elem_of_lookup_2 in Hi.
  pose proof (encoded_inflight w Hw _ Hi) as Hr.
  assert (Encoded (with_inflight
                     (filter (fun r => controller r <> c) (inflight w)) w))
    as Hw1.
  { destruct Hw as [H1 H2 H3 H4]. split; cbn; auto;
      intros r' Hr'; apply list_elem_of_filter in Hr' as [_ Hr']; auto. }
  destruct (decide _); [exact Hw1|].
  destruct out as [|[|] [data|]];
    try (destruct Hw1 as [H1 H2 H3 H4]; split; cbn in *; auto; discriminate).
  apply Encoded_renderResults; [auto|].
  destruct Hw1 as [H1 H2 H3 H4]. split; cbn in *; auto.
  intros q data'. destruct (decide (q = query r)) as [->|Hne]; [auto|].
  rewrite lookup_insert_ne by congruence. apply H1.
Qed.

Lemma Encoded_step w e : Encoded w -> Encoded (step w e).
Proof.
  intros Hw. destruct e; cbn.
  - destruct Hw as [H1 H2 H3 H4]. unfold handleInput.
    destruct (_ <? 2); split; cbn; auto; discriminate.
  - unfold timerFires. destruct (debounceTimeout w); [|exact Hw].
    apply Encoded_search. destruct Hw as [H1 H2 H3 H4]. split; cbn; auto.
  - now apply Encoded_settle.
  - assert (Encoded (handleKeydown key w)) as [H1 H2 H3 H4].
    { destruct Hw as [H1 H2 H3 H4]. unfold handleKeydown.
      destruct (_ =? _)%nat; [split; auto|].
      destruct key; try destruct (_ && _); split; cbn; auto. }
    unfold documentKeydown. destruct key; try (split; auto; fail).
    destruct (isActive _); split; cbn; auto; discriminate.
  - destruct Hw as [H1 H2 H3 H4]. split; cbn; auto.
  - destruct Hw as [H1 H2 H3 H4]. split; cbn; auto. discriminate.
Qed.

(** In every state the page reaches, the query of the listing on show can
    be encoded. *)
Lemma Encoded_run es : Encoded (run es init).
Proof.
  assert (forall w, Encoded w -> Encoded (run es w)) as H.
  { unfold run. induction es as [|e es IH]; cbn; intros w Hw; [exact Hw|].
    apply IH. now apply Encoded_step. }
  apply H. split; cbn; try discriminate; intros r Hr; inversion Hr.
Qed.

End ModalProofs.

(** ** The custom-element predictive search *)

Module ElementProofs.
Import SearchElement.

Record Inv (w : Widget) : Prop := {
  inv_created : forall r, r ∈ inflight w -> (controller r < controllers w)%nat;
  inv_current : forall r, r ∈ inflight w -> controller r ∉ aborted w ->
                abortController w = Some (controller r);
  inv_distinct : NoDup (controller <$> inflight w);
  inv_aborted : forall c, c ∈ aborted w -> (c < controllers w)%nat;
  inv_controller : forall c, abortController w = Some c ->
                   (c < controllers w)%nat;
  inv_selected : forall data i, results w = Listing data (Some i) ->
                 (i < rowCount data)%nat
}.

Lemma element_Inv_init : Inv init.
Proof.
  split; cbn.
  - intros r Hr. inversion Hr.
  - intros r Hr. inversion Hr.
  - constructor.
  - intros c Hc. set_solver.
  - discriminate.
  - discriminate.
Qed.

(** Writing markup without a selected item. *)
Lemma element_Inv_with_results p w :
  (forall data i, p <> Listing data (Some i)) ->
  Inv w -> Inv (with_results p w).
Proof.
  intros Hp [H1 H2 H3 Ha Hc Hs]. split; cbn; auto.
  intros data i E. now destruct (Hp data i).
Qed.

Lemma element_Inv_with_isOpen b w : Inv w -> Inv (with_isOpen b w).
Proof. intros [H1 H2 H3 Ha Hc Hs]. split; cbn; auto. Qed.

Lemma element_Inv_with_loading b w : Inv w -> Inv (with_loading b w).
Proof. intros [H1 H2 H3 Ha Hc Hs]. split; cbn; auto. Qed.

Lemma element_Inv_with_cachedResults m w : Inv w -> Inv (with_cachedResults m w).
Proof. intros [H1 H2 H3 Ha Hc Hs]. split; cbn; auto. Qed.

Lemma element_Inv_with_inputValue v w : Inv w -> Inv (with_inputValue v w).
Proof. intros [H1 H2 H3 Ha Hc Hs]. split; cbn; auto. Qed.

Lemma element_Inv_with_debouncePending b w : Inv w -> Inv (with_debouncePending b w).
Proof. intros [H1 H2 H3 Ha Hc Hs]. split; cbn; auto. Qed.

Lemma element_Inv_with_effect e w : Inv w -> Inv (with_effect e w).
Proof. intros [H1 H2 H3 Ha Hc Hs]. split; cbn; auto. Qed.

Lemma element_Inv_renderSearchResults data w :
  Inv w -> Inv (renderSearchResults data w).
Proof.
  intros Hw. unfold renderSearchResults, open. apply element_Inv_with_isOpen.
  destruct (negb _); apply element_Inv_with_results; auto; discriminate.
Qed.

Lemma element_Inv_renderError w : Inv w -> Inv (renderError w).
Proof.
  intros Hw. apply element_Inv_with_isOpen, element_Inv_with_results; auto; discriminate.
Qed.

Lemma element_Inv_close w : Inv w -> Inv (close w).
Proof.
  intros Hw. apply element_Inv_with_results; [discriminate|]. now apply element_Inv_with_isOpen.
Qed.

Lemma element_Inv_abort_new w :
  Inv w ->
  Inv (newAbortController
         match abortController w with Some c => abort c w | None => w end).
Proof.
  intros [H1 H2 H3 Ha Hc Hs].
  destruct (abortController w) as [c|] eqn:Ec; split; cbn; auto.
  - intros r Hr. specialize (H1 _ Hr). lia.
  - intros r Hr Hna. exfalso. apply Hna.
    destruct (decide (controller r ∈ aborted w)) as [|Hn]; [set_solver|].
    specialize (H2 _ Hr Hn). injection H2 as ->. set_solver.
  - intros c' Hc'. apply elem_of_union in Hc' as [Hc'|Hc'].
    + apply elem_of_singleton in Hc' as ->. specialize (Hc _ eq_refl). lia.
    + specialize (Ha _ Hc'). lia.
  - intros c' [= <-]. lia.
  - intros r Hr. specialize (H1 _ Hr). lia.
  - intros r Hr Hna. specialize (H2 _ Hr Hna). congruence.
  - intros c' Hc'. specialize (Ha _ Hc'). lia.
  - intros c' [= <-]. lia.
Qed.

Lemma element_Inv_fetch q w :
  Inv w -> (exists c, abortController w = Some c /\ controllers w = S c
                      /\ forall r, r ∈ inflight w -> (controller r < c)%nat) ->
  forall c, abortController w = Some c -> Inv (fetch c q w).
Proof.
  intros [H1 H2 H3 Ha Hc Hs] (c & Ec & En & Hlt) c' Ec'.
  rewrite Ec in Ec'. injection Ec' as <-.
  split; cbn; auto.
  - intros r Hr. apply elem_of_app in Hr as [Hr|Hr]; [auto|].
    apply list_elem_of_singleton in Hr as ->. cbn. lia.
  - intros r Hr Hna. apply elem_of_app in Hr as [Hr|Hr]; [auto|].
    apply list_elem_of_singleton in Hr as ->. cbn. exact Ec.
  - rewrite fmap_app. apply NoDup_app. split; [exact H3|]. split.
    + intros x Hx Hx'. cbn in Hx'. apply list_elem_of_singleton in Hx' as ->.
      apply list_elem_of_fmap in Hx as (r & Hr & Hin).
      specialize (Hlt _ Hin). lia.
    + cbn. apply NoDup_singleton.
Qed.

Lemma element_Inv_getSearchResults q w : Inv w -> Inv (getSearchResults q w).
Proof.
  intros Hw. unfold getSearchResults.
  destruct (getProperty (cachedResults w) q) as [data|].
  { now apply element_Inv_renderSearchResults. }
  pose proof (element_Inv_abort_new w Hw) as Hn.
  destruct (wellFormed q);
    [|now apply element_Inv_with_loading, element_Inv_renderError,
        element_Inv_with_loading].
  assert (controllers match abortController w with
                      | Some c => abort c w | None => w end = controllers w
          /\ inflight match abortController w with
                      | Some c => abort c w | None => w end = inflight w)
    as [Ecs Einf] by (destruct (abortController w); auto).
  rewrite Ecs. apply element_Inv_fetch.
  - now apply element_Inv_with_loading.
  - exists (controllers w). cbn. rewrite Ecs, Einf. repeat split; auto.
    apply (inv_created w Hw).
  - cbn. now rewrite Ecs.
Qed.

Lemma element_Inv_with_inflight_filter c w :
  Inv w -> Inv (with_inflight (filter (fun r => controller r <> c) (inflight w)) w).
Proof.
  intros [H1 H2 H3 Ha Hc Hs]. split; cbn; auto.
  - intros r Hr. apply list_elem_of_filter in Hr as [_ Hr]. auto.
  - intros r Hr. apply list_elem_of_filter in Hr as [_ Hr]. auto.
  - now apply NoDup_fmap_filter.
Qed.

Lemma element_Inv_settle c out w : Inv w -> Inv (settle c out w).
Proof.
  intros Hw. unfold settle.
  destruct (list_find _ _) as [[i r]|]; [|exact Hw].
  pose proof (element_Inv_with_inflight_filter c w Hw) as Hw1.
  apply element_Inv_with_loading.
  destruct (decide _); [exact Hw1|].
  destruct out as [|[|] [data|]]; try (now apply element_Inv_renderError).
  apply element_Inv_renderSearchResults. now apply element_Inv_with_cachedResults.
Qed.

Lemma element_Inv_onChange w : Inv w -> Inv (onChange w).
Proof.
  intros Hw. unfold onChange.
  destruct (_ =? 0); [now apply element_Inv_close|].
  destruct (_ <? 2); [exact Hw|]. now apply element_Inv_getSearchResults.
Qed.

Lemma element_Inv_onFocus w : Inv w -> Inv (onFocus w).
Proof.
  intros Hw. unfold onFocus. destruct (2 <=? _); [|exact Hw].
  destruct (getProperty _ _); [now apply element_Inv_renderSearchResults|].
  now apply element_Inv_getSearchResults.
Qed.

(** The index [navigateResults] moves to is the index of a row. *)
Lemma navigate_index_in_range (direction : Direction) (index items : Z) :
  0 < items -> -1 <= index < items ->
  0 <= match direction with
       | Up => if 0 <? index then index - 1 else items - 1
       | Down => if index <? items - 1 then index + 1 else 0
       end < items.
Proof.
  intros Hn Hi. destruct direction.
  - destruct (Z.ltb_spec 0 index); lia.
  - destruct (Z.ltb_spec index (items - 1)); lia.
Qed.

Lemma selectionIndex_range w :
  Inv w -> -1 <= selectionIndex (results w) < Z.max 0 (Z.of_nat (rows (results w))).
Proof.
  intros Hw. destruct (results w) as [| |data [i|]|] eqn:E; cbn; try lia.
  pose proof (inv_selected w Hw _ _ E). lia.
Qed.

Lemma element_Inv_navigateResults direction w : Inv w -> Inv (navigateResults direction w).
Proof.
  intros Hw. unfold navigateResults.
  destruct (Z.eqb_spec (Z.of_nat (rows (results w))) 0) as [|Hn]; [exact Hw|].
  pose proof (selectionIndex_range w Hw) as Hi.
  pose proof (navigate_index_in_range direction
                (selectionIndex (results w)) (Z.of_nat (rows (results w)))) as Hr.
  destruct (results w) as [| |data sel|] eqn:E; try exact Hw.
  cbn [rows] in *. specialize (Hr ltac:(lia) ltac:(lia)).
  cbn [selectionIndex] in Hr.
  destruct Hw as [H1 H2 H3 Ha Hc Hs]. split; cbn; auto.
  intros data' i [= <- <-]. lia.
Qed.

Lemma element_Inv_onKeydown fieldHasFocus key w :
  Inv w -> Inv (onKeydown fieldHasFocus key w).
Proof.
  intros Hw. destruct key; cbn;
    auto using element_Inv_navigateResults, element_Inv_close.
  - unfold selectResult. destruct (results w) as [| |data [i|]|]; auto.
    now apply element_Inv_with_effect.
  - unfold focusInput. destruct fieldHasFocus;
      auto using element_Inv_onFocus, element_Inv_close.
Qed.

Lemma element_Inv_step w e : Inv w -> Inv (step w e).
Proof.
  intros Hw. destruct e; cbn.
  - now apply element_Inv_with_debouncePending, element_Inv_with_inputValue.
  - destruct (debouncePending w); [|exact Hw].
    now apply element_Inv_onChange, element_Inv_with_debouncePending.
  - now apply element_Inv_onFocus.
  - now apply element_Inv_close.
  - now apply element_Inv_settle.
  - now apply element_Inv_onKeydown.
  - now apply element_Inv_onKeydown.
Qed.

Lemma element_Inv_run es w : Inv w -> Inv (run es w).
Proof.
  unfold run. revert w. induction es as [|e es IH]; cbn; intros w Hw; [exact Hw|].
  apply IH. now apply element_Inv_step.
Qed.

Lemma element_live_at_most_one w : Inv w -> (length (live w) <= 1)%nat.
Proof.
  intros [H1 H2 H3 Ha Hc Hs]. unfold live.
  destruct (abortController w) as [c|] eqn:Ec.
  - apply (length_le_1_of_const controller c).
    + now apply NoDup_fmap_filter.
    + intros r Hr. apply list_elem_of_filter in Hr as [Hna Hr].
      specialize (H2 _ Hr Hna). congruence.
  - destruct (filter _ _) as [|r l] eqn:E; cbn; [lia|]. exfalso.
    assert (r ∈ filter (fun r => controller r ∉ aborted w) (inflight w)) as Hr
      by (rewrite E; constructor).
    apply list_elem_of_filter in Hr as [Hna Hr].
    specialize (H2 _ Hr Hna). congruence.
Qed.

Lemma getSearchResults_miss_effects q w :
  getProperty (cachedResults w) q = None -> wellFormed q = true ->
  effects (getSearchResults q w)
  = effects w
    ++ match abortController w with Some c => [Abort c] | None => [] end
    ++ [Fetch (controllers w) q].
Proof.
  intros Hq Hwf. unfold getSearchResults. rewrite Hq, Hwf.
  destruct (abortController w); cbn; [|reflexivity].
  now rewrite <- app_assoc.
Qed.

Lemma getSearchResults_miss_aborts q w :
  Inv w -> getProperty (cachedResults w) q = None ->
  forall r, r ∈ inflight w -> controller r ∈ aborted (getSearchResults q w).
Proof.
  intros [H1 H2 H3 Ha Hc _] Hq r Hr. unfold getSearchResults. rewrite Hq.
  destruct (decide (controller r ∈ aborted w)) as [Hin|Hna].
  - destruct (wellFormed q), (abortController w); cbn; set_solver.
  - rewrite (H2 _ Hr Hna). destruct (wellFormed q); cbn; set_solver.
Qed.

Lemma getSearchResults_miss_live q w :
  Inv w -> getProperty (cachedResults w) q = None -> wellFormed q = true ->
  live (getSearchResults q w) = [{| controller := controllers w; query := q |}].
Proof.
  intros Hw Hq Hwf. pose proof (getSearchResults_miss_aborts q w Hw Hq) as Hab.
  assert (controllers w ∉ aborted (getSearchResults q w)) as Hnew.
  { unfold getSearchResults. rewrite Hq, Hwf. intros Hin.
    assert (controllers w ∈ aborted w
            \/ abortController w = Some (controllers w)) as [Hi|Hi].
    { destruct (abortController w) as [c|]; cbn in Hin; [|auto].
      apply elem_of_union in Hin as [Hin|Hin]; [|auto].
      apply elem_of_singleton in Hin as ->. auto. }
    - pose proof (inv_aborted w Hw _ Hi). lia.
    - pose proof (inv_controller w Hw _ Hi). lia. }
  assert (inflight (getSearchResults q w)
          = inflight w ++ [{| controller := controllers w; query := q |}]) as Ei.
  { unfold getSearchResults. rewrite Hq, Hwf.
    destruct (abortController w); reflexivity. }
  unfold live. rewrite Ei, filter_app.
  rewrite filter_nil_of_all by (intros r Hr Hna; apply Hna, Hab, Hr).
  rewrite filter_cons. cbn. destruct (decide _); [reflexivity|contradiction].
Qed.

(** The continuation of an aborted request renders nothing and caches
    nothing; only the [finally] block runs. *)
Lemma element_settle_aborted c out w :
  c ∈ aborted w ->
  let w' := settle c out w in
  (results w' = results w /\ cachedResults w' = cachedResults w
   /\ isOpen w' = isOpen w /\ effects w' = effects w)
  /\ forall r, r ∈ inflight w' -> controller r <> c.
Proof.
  intros Hc. cbn. unfold settle.
  destruct (list_find _ _) as [[i r]|] eqn:E.
  - destruct (decide _); [|contradiction]. cbn. repeat split.
    intros r' Hr'. now apply list_elem_of_filter in Hr' as [Hne _].
  - repeat split. intros r' Hr' Heq.
    apply list_find_None in E. rewrite Forall_forall in E. now apply (E r').
Qed.

(** No request goes out for a query that [encodeURIComponent] rejects
    or that names a member of [Object.prototype], so the assignment
    [this.cachedResults[searchTerm] = data] of a settled request always
    creates or replaces an own property. *)
Definition Requested (w : Widget) : Prop :=
  forall r, r ∈ inflight w ->
  wellFormed (query r) = true /\ inherited (query r) = false.

Lemma Requested_inflight w w' :
  Requested w -> inflight w' = inflight w -> Requested w'.
Proof. intros H E r Hr. rewrite E in Hr. now apply H. Qed.

Lemma inflight_renderSearchResults data w :
  inflight (renderSearchResults data w) = inflight w.
Proof. unfold renderSearchResults. now destruct (negb _). Qed.

Lemma Requested_getSearchResults q w :
  Requested w -> Requested (getSearchResults q w).
Proof.
  intros Hw. unfold getSearchResults.
  destruct (getProperty (cachedResults w) q) as [data|] eqn:Eq.
  { now apply (Requested_inflight w _ Hw), inflight_renderSearchResults. }
  apply getProperty_None in Eq as [_ Ei].
  destruct (wellFormed q) eqn:Ewf.
  - intros r Hr.
    assert (r ∈ inflight w ++ [{| controller := controllers w; query := q |}])
      as Hin by (destruct (abortController w); exact Hr).
    apply elem_of_app in Hin as [Hin|Hin]; [now apply Hw|].
    apply list_elem_of_singleton in Hin as ->. now split.
  - apply (Requested_inflight w _ Hw).
    now destruct (abortController w).
Qed.

Lemma Requested_onFocus w : Requested w -> Requested (onFocus w).
Proof.
  intros Hw. unfold onFocus. destruct (2 <=? _); [|exact Hw].
  destruct (getProperty _ _).
  - now apply (Requested_inflight w _ Hw), inflight_renderSearchResults.
  - now apply Requested_getSearchResults.
Qed.

Lemma inflight_navigateResults direction w :
  inflight (navigateResults direction w) = inflight w.
Proof.
  unfold navigateResults. destruct (_ =? 0); [reflexivity|].
  now destruct (results w).
Qed.

Lemma inflight_selectResult w : inflight (selectResult w) = inflight w.
Proof. unfold selectResult. now destruct (results w) as [| |data [i|]|]. Qed.

Lemma Requested_onKeydown fieldHasFocus key w :
  Requested w -> Requested (onKeydown fieldHasFocus key w).
Proof.
  intros Hw. destruct key; unfold onKeydown.
  - exact (Requested_inflight w _ Hw (inflight_navigateResults Down w)).
  - exact (Requested_inflight w _ Hw (inflight_navigateResults Up w)).
  - exact (Requested_inflight w _ Hw (inflight_selectResult w)).
  - unfold focusInput.
    assert (Requested (close w)) as Hc
      by exact (Requested_inflight w _ Hw eq_refl).
    destruct fieldHasFocus; [exact Hc|now apply Requested_onFocus].
  - exact Hw.
Qed.

Lemma Requested_step w e : Requested w -> Requested (step w e).
Proof.
  intros Hw. destruct e; cbn [step].
  - exact (Requested_inflight w _ Hw eq_refl).
  - destruct (debouncePending w); [|exact Hw]. unfold onChange.
    assert (Requested (with_debouncePending false w)) as Hd
      by exact (Requested_inflight w _ Hw eq_refl).
    destruct (_ =? 0); [exact (Requested_inflight w _ Hw eq_refl)|].
    destruct (_ <? 2); [exact Hd|].
    now apply Requested_getSearchResults.
  - now apply Requested_onFocus.
  - exact (Requested_inflight w _ Hw eq_refl).
  - unfold settle. destruct (list_find _ _) as [[i r]|]; [|exact Hw].
    intros r' Hr'.
    assert (r' ∈ filter (fun r => controller r <> c) (inflight w)) as Hin.
    { destruct (decide _); [exact Hr'|].
      destruct out as [|[|] [data|]]; try exact Hr'.
      unfold setLoading, with_loading in Hr'. cbn [inflight] in Hr'.
      rewrite inflight_renderSearchResults in Hr'. exact Hr'. }
    apply list_elem_of_filter in Hin as [_ Hin]. now apply Hw.
  - now apply Requested_onKeydown.
  - now apply Requested_onKeydown.
Qed.

Lemma Requested_run es : Requested (run es init).
Proof.
  assert (forall w, Requested w -> Requested (run es w)) as H.
  { unfold run. induction es as [|e es IH]; cbn; intros w Hw; [exact Hw|].
    apply IH. now apply Requested_step. }
  apply H. intros r Hr. inversion Hr.
Qed.

End ElementProofs.

(** ** Claims about the two search widgets *)

(** Splits a conjunction of closed facts and evaluates each of them. *)
Ltac evaluate :=
  cbv zeta; repeat match goal with |- _ /\ _ => split end;
  vm_compute; try reflexivity.


(** What holds of superseding, in every state either widget can reach.
    A search whose query is read as [undefined] from the cache (it is no
    own key and no name of [Object.prototype]) and can be encoded aborts
    the current controller and only then issues the one new fetch;
    afterwards every request that was outstanding has an aborted signal
    and the new request is the only one that has not.  At most one request
    with a signal that is not aborted is in flight in any reachable state.
    When a request with an aborted signal settles, nothing is rendered or
    cached: the container, the cache and the effects stay as they were,
    so neither its result nor an error message is shown. *)
Theorem search_miss_supersedes
    (es : list SearchModal.Event) (es' : list SearchElement.Event)
    (q : jsstring) :
  let w := SearchModal.run es SearchModal.init in
  let v := SearchElement.run es' SearchElement.init in
  getProperty (SearchModal.cache w) q = None ->
  getProperty (SearchElement.cachedResults v) q = None ->
  wellFormed q = true ->
  ((length (SearchModal.live w) <= 1)%nat
   /\ SearchModal.effects (SearchModal.search q w)
      = SearchModal.effects w
        ++ match SearchModal.abortController w with
           | Some c => [Abort c]
           | None => []
           end
        ++ [Fetch (SearchModal.controllers w) q]
   /\ (forall r, r ∈ SearchModal.inflight w ->
       controller r ∈ SearchModal.aborted (SearchModal.search q w))
   /\ SearchModal.live (SearchModal.search q w)
      = [{| controller := SearchModal.controllers w; query := q |}]
   /\ (forall c out, c ∈ SearchModal.aborted w ->
       let w' := SearchModal.settle c out w in
       SearchModal.resultsContainer w' = SearchModal.resultsContainer w
       /\ SearchModal.cache w' = SearchModal.cache w
       /\ SearchModal.selectedIndex w' = SearchModal.selectedIndex w
       /\ SearchModal.effects w' = SearchModal.effects w))
  /\
  ((length (SearchElement.live v) <= 1)%nat
   /\ SearchElement.effects (SearchElement.getSearchResults q v)
      = SearchElement.effects v
        ++ match SearchElement.abortController v with
           | Some c => [Abort c]
           | None => []
           end
        ++ [Fetch (SearchElement.controllers v) q]
   /\ (forall r, r ∈ SearchElement.inflight v ->
       controller r
       ∈ SearchElement.aborted (SearchElement.getSearchResults q v))
   /\ SearchElement.live (SearchElement.getSearchResults q v)
      = [{| controller := SearchElement.controllers v; query := q |}]
   /\ (forall c out, c ∈ SearchElement.aborted v ->
       let v' := SearchElement.settle c out v in
       SearchElement.results v' = SearchElement.results v
       /\ SearchElement.cachedResults v' = SearchElement.cachedResults v
       /\ SearchElement.isOpen v' = SearchElement.isOpen v
       /\ SearchElement.effects v' = SearchElement.effects v)).
Proof.
  intros w v Hw Hv Hwf.
  assert (ModalProofs.Inv w) as Iw
    by apply ModalProofs.Inv_run, ModalProofs.Inv_init.
  assert (ElementProofs.Inv v) as Iv
    by apply ElementProofs.element_Inv_run, ElementProofs.element_Inv_init.
  split; repeat apply conj.
  - now apply ModalProofs.live_at_most_one.
  - now apply ModalProofs.search_miss_effects.
  - now apply ModalProofs.search_miss_aborts.
  - now apply ModalProofs.search_miss_live.
  - intros c out Hc.
    destruct (ModalProofs.settle_aborted c out w Hc) as (? & ? & ? & ? & _).
    auto.
  - now apply ElementProofs.element_live_at_most_one.
  - now apply ElementProofs.getSearchResults_miss_effects.
  - now apply ElementProofs.getSearchResults_miss_aborts.
  - now apply ElementProofs.getSearchResults_miss_live.
  - intros c out Hc.
    destruct (ElementProofs.element_settle_aborted c out v Hc) as [? _]. auto.
Qed.

(** Query [ab] is in flight in both widgets when [abc], which is not
    cached, is searched. *)
Lemma search_miss_supersedes_witness :
  let w := SearchModal.run
             [SearchModal.Input (lit "ab"); SearchModal.TimerFires]
             SearchModal.init in
  let v := SearchElement.run
             [SearchElement.Input (lit "ab"); SearchElement.TimerFires]
             SearchElement.init in
  SearchModal.effects (SearchModal.search (lit "abc") w)
  = [Fetch 0 (lit "ab"); Abort 0; Fetch 1 (lit "abc")]
  /\ SearchElement.effects (SearchElement.getSearchResults (lit "abc") v)
     = [Fetch 0 (lit "ab"); Abort 0; Fetch 1 (lit "abc")].
Proof.
  pose proof (search_miss_supersedes
                [SearchModal.Input (lit "ab"); SearchModal.TimerFires]
                [SearchElement.Input (lit "ab"); SearchElement.TimerFires]
                (lit "abc") eq_refl eq_refl eq_refl)
    as [(_ & Hm & _) (_ & He & _)].
  split; [exact Hm | exact He].
Defined.

(** A query that names a member of [Object.prototype] is answered as if
    it were cached, in the first search of a fresh widget: no request, and
    the message for an empty result set.  A query with a surrogate outside
    a pair aborts and replaces the controller, sends nothing and shows the
    error message. *)
Lemma search_without_request :
  let w := SearchModal.search (lit "constructor") SearchModal.init in
  let v := SearchElement.run
             [SearchElement.Input (lit "toString"); SearchElement.TimerFires]
             SearchElement.init in
  let w' := SearchModal.run
              [SearchModal.Input (lit "ab"); SearchModal.TimerFires;
               SearchModal.Input [97; 55357]%N; SearchModal.TimerFires]
              SearchModal.init in
  let v' := SearchElement.run
              [SearchElement.Input (lit "ab"); SearchElement.TimerFires;
               SearchElement.Input [97; 55357]%N; SearchElement.TimerFires]
              SearchElement.init in
  (SearchModal.effects w = []
   /\ SearchModal.resultsContainer w = SearchModal.NoResults (lit "constructor"))
  /\ (SearchElement.effects v = []
      /\ SearchElement.results v = SearchElement.NoResults (lit "toString"))
  /\ (SearchModal.effects w' = [Fetch 0 (lit "ab"); Abort 0]
      /\ SearchModal.live w' = []
      /\ SearchModal.abortController w' = Some 1%nat
      /\ SearchModal.resultsContainer w' = SearchModal.ErrorMessage)
  /\ (SearchElement.effects v' = [Fetch 0 (lit "ab"); Abort 0]
      /\ SearchElement.live v' = []
      /\ SearchElement.results v' = SearchElement.ErrorMessage
      /\ SearchElement.loading v' = Some false).
Proof. evaluate. Qed.

(** C1, the code at the failing input.  Both widgets answer a query from
    the cache before they reach the abort.  With [abc] cached and the
    fetch for [ab] unresolved, typing [abc] again starts a search that
    renders the cached listing, aborts nothing and sends nothing: the
    request for [ab] stays in flight with a signal that is not aborted.
    When its response arrives it is rendered, so the widget shows the
    listing of [ab], the superseded query, while the field holds [abc]. *)
Theorem C1_cached_search_aborts_nothing :
  let w := SearchModal.run
             [SearchModal.Input (lit "abc"); SearchModal.TimerFires;
              SearchModal.Settle 0 (Response true (Some dataAbc));
              SearchModal.Input (lit "ab"); SearchModal.TimerFires]
             SearchModal.init in
  let w' := SearchModal.run
              [SearchModal.Input (lit "abc"); SearchModal.TimerFires] w in
  let w'' := SearchModal.step w'
               (SearchModal.Settle 1 (Response true (Some dataAb))) in
  let v := SearchElement.run
             [SearchElement.Input (lit "abc"); SearchElement.TimerFires;
              SearchElement.Settle 0 (Response true (Some dataAbc));
              SearchElement.Input (lit "ab"); SearchElement.TimerFires]
             SearchElement.init in
  let v' := SearchElement.run
              [SearchElement.Input (lit "abc"); SearchElement.TimerFires] v in
  let v'' := SearchElement.step v'
               (SearchElement.Settle 1 (Response true (Some dataAb))) in
  (SearchModal.inflight w = [{| controller := 1; query := lit "ab" |}]
   /\ SearchModal.effects w' = SearchModal.effects w
   /\ SearchModal.live w' = [{| controller := 1; query := lit "ab" |}]
   /\ ~ (forall r, r ∈ SearchModal.inflight w ->
         controller r ∈ SearchModal.aborted w')
   /\ SearchModal.resultsContainer w'
      = SearchModal.Listing dataAbc (lit "abc")
   /\ SearchModal.inputValue w'' = lit "abc"
   /\ SearchModal.resultsContainer w''
      = SearchModal.Listing dataAb (lit "ab"))
  /\
  (SearchElement.inflight v = [{| controller := 1; query := lit "ab" |}]
   /\ SearchElement.effects v' = SearchElement.effects v
   /\ SearchElement.live v' = [{| controller := 1; query := lit "ab" |}]
   /\ ~ (forall r, r ∈ SearchElement.inflight v ->
         controller r ∈ SearchElement.aborted v')
   /\ SearchElement.results v' = SearchElement.Listing dataAbc None
   /\ SearchElement.inputValue v'' = lit "abc"
   /\ SearchElement.results v'' = SearchElement.Listing dataAb None).
Proof.
  cbv zeta. split.
  - split; [vm_compute; reflexivity|]. split; [vm_compute; reflexivity|].
    split; [vm_compute; reflexivity|]. split; [|evaluate].
    intros H. specialize (H {| controller := 1; query := lit "ab" |}).
    match type of H with
    | _ -> _ ∈ ?s =>
      assert (bool_decide (1%nat ∈ s) = false) as Hf
        by (vm_compute; reflexivity)
    end.
    apply bool_decide_eq_false in Hf. apply Hf, H.
    match goal with
    | |- _ ∈ ?l =>
      replace l with [{| controller := 1%nat; query := lit "ab" |}]
        by (vm_compute; reflexivity)
    end.
    constructor.
  - split; [vm_compute; reflexivity|]. split; [vm_compute; reflexivity|].
    split; [vm_compute; reflexivity|]. split; [|evaluate].
    intros H. specialize (H {| controller := 1; query := lit "ab" |}).
    match type of H with
    | _ -> _ ∈ ?s =>
      assert (bool_decide (1%nat ∈ s) = false) as Hf
        by (vm_compute; reflexivity)
    end.
    apply bool_decide_eq_false in Hf. apply Hf, H.
    match goal with
    | |- _ ∈ ?l =>
      replace l with [{| controller := 1%nat; query := lit "ab" |}]
        by (vm_compute; reflexivity)
    end.
    constructor.
Qed.

(** C2 (as amended).  An input whose trimmed value is shorter than two
    code units makes neither widget touch the network.  The modal widget
    cancels its timer and empties the container.  The element widget
    closes and empties its panel when the trimmed value is empty, and
    leaves the panel as it is when the trimmed value has one code unit. *)
Theorem C2_short_input_issues_no_request
    (w : SearchModal.Widget) (v : SearchElement.Widget) (value : jsstring) :
  jslength (trim value) < 2 ->
  (let w' := SearchModal.step w (SearchModal.Input value) in
   SearchModal.effects w' = SearchModal.effects w
   /\ SearchModal.inflight w' = SearchModal.inflight w
   /\ SearchModal.debounceTimeout w' = None
   /\ SearchModal.resultsContainer w' = SearchModal.Blank)
  /\
  (let v' := SearchElement.step
               (SearchElement.step v (SearchElement.Input value))
               SearchElement.TimerFires in
   SearchElement.effects v' = SearchElement.effects v
   /\ SearchElement.inflight v' = SearchElement.inflight v
   /\ (trim value = [] ->
       SearchElement.results v' = SearchElement.Blank
       /\ SearchElement.isOpen v' = false)
   /\ (trim value <> [] ->
       SearchElement.results v' = SearchElement.results v
       /\ SearchElement.isOpen v' = SearchElement.isOpen v)).
Proof.
  intros Hlen. split.
  - cbn. unfold SearchModal.handleInput.
    destruct (Z.ltb_spec (jslength (trim value)) 2); [|lia].
    repeat split.
  - cbn. unfold SearchElement.onChange. cbn.
    destruct (Z.eqb_spec (jslength (trim value)) 0) as [E0|E0].
    + apply jslength_0 in E0.
      split; [reflexivity|]. split; [reflexivity|].
      split; [split; reflexivity | intros E; contradiction].
    + destruct (Z.ltb_spec (jslength (trim value)) 2); [|lia].
      split; [reflexivity|]. split; [reflexivity|].
      split; [intros E; apply jslength_0 in E; contradiction|].
      split; reflexivity.
Qed.

Lemma C2_short_input_issues_no_request_witness :
  SearchModal.resultsContainer
    (SearchModal.step
       (SearchModal.run
          [SearchModal.Input (lit "ab"); SearchModal.TimerFires;
           SearchModal.Settle 0 (Response true (Some dataAb))]
          SearchModal.init)
       (SearchModal.Input (lit " a ")))
  = SearchModal.Blank.
Proof.
  refine (let H := C2_short_input_issues_no_request
                     (SearchModal.run
                        [SearchModal.Input (lit "ab"); SearchModal.TimerFires;
                         SearchModal.Settle 0
                           (Response true (Some dataAb))]
                        SearchModal.init)
                     SearchElement.init (lit " a ") _ in _).
  - exact (proj2 (proj2 (proj2 (proj1 H)))).
  Unshelve. vm_compute. reflexivity.
Defined.

(** C2, counterexample to the claim as stated.  The element widget shows
    the listing for [ab]; the field is then edited to [a].  When the
    debounced handler runs, the listing is still there. *)
Lemma C2_element_keeps_results_for_one_character :
  let v := SearchElement.run
             [SearchElement.Input (lit "ab"); SearchElement.TimerFires;
              SearchElement.Settle 0 (Response true (Some dataAb));
              SearchElement.Input (lit "a"); SearchElement.TimerFires]
             SearchElement.init in
  jslength (trim (SearchElement.inputValue v)) = 1
  /\ SearchElement.results v = SearchElement.Listing dataAb None
  /\ SearchElement.results v <> SearchElement.Blank
  /\ SearchElement.isOpen v = true.
Proof. evaluate. discriminate. Qed.

(** C3.  A search for a query that is a key of the cache issues no
    request (the effects and the requests in flight are unchanged) and
    renders exactly the cached payload: the listing of that payload, or
    the no-results message when the payload is empty. *)
Theorem C3_cached_query_renders_without_request
    (w : SearchModal.Widget) (v : SearchElement.Widget)
    (q : jsstring) (data : SearchData) :
  SearchModal.cache w !! q = Some data ->
  SearchElement.cachedResults v !! q = Some data ->
  (let w' := SearchModal.search q w in
   w' = SearchModal.renderResults data q w
   /\ SearchModal.effects w' = SearchModal.effects w
   /\ SearchModal.inflight w' = SearchModal.inflight w
   /\ SearchModal.cache w' = SearchModal.cache w
   /\ SearchModal.resultsContainer w'
      = if noResults data then SearchModal.NoResults q
        else SearchModal.Listing data q)
  /\
  (let v' := SearchElement.getSearchResults q v in
   v' = SearchElement.renderSearchResults data v
   /\ SearchElement.effects v' = SearchElement.effects v
   /\ SearchElement.inflight v' = SearchElement.inflight v
   /\ SearchElement.cachedResults v' = SearchElement.cachedResults v
   /\ SearchElement.results v'
      = if noResults data
        then SearchElement.NoResults (SearchElement.inputValue v)
        else SearchElement.Listing data None).
Proof.
  intros Hw Hv. split; cbn.
  - unfold SearchModal.search. rewrite (getProperty_own _ _ _ Hw).
    unfold SearchModal.renderResults. destruct (noResults data); repeat split.
  - unfold SearchElement.getSearchResults. rewrite (getProperty_own _ _ _ Hv).
    unfold SearchElement.renderSearchResults.
    destruct (noResults data); repeat split.
Qed.

Lemma C3_cached_query_renders_without_request_witness :
  let w := SearchModal.run
             [SearchModal.Input (lit "ab"); SearchModal.TimerFires;
              SearchModal.Settle 0 (Response true (Some dataAb));
              SearchModal.Input (lit "abc")]
             SearchModal.init in
  let v := SearchElement.run
             [SearchElement.Input (lit "ab"); SearchElement.TimerFires;
              SearchElement.Settle 0 (Response true (Some dataAb));
              SearchElement.FocusLeft]
             SearchElement.init in
  SearchModal.resultsContainer (SearchModal.search (lit "ab") w)
  = SearchModal.Listing dataAb (lit "ab")
  /\ SearchElement.results (SearchElement.getSearchResults (lit "ab") v)
     = SearchElement.Listing dataAb None.
Proof.
  pose proof (C3_cached_query_renders_without_request
                (SearchModal.run
                   [SearchModal.Input (lit "ab"); SearchModal.TimerFires;
                    SearchModal.Settle 0
                      (Response true (Some dataAb));
                    SearchModal.Input (lit "abc")]
                   SearchModal.init)
                (SearchElement.run
                   [SearchElement.Input (lit "ab"); SearchElement.TimerFires;
                    SearchElement.Settle 0
                      (Response true (Some dataAb));
                    SearchElement.FocusLeft]
                   SearchElement.init)
                (lit "ab") dataAb eq_refl eq_refl)
    as [(_ & _ & _ & _ & Hm) (_ & _ & _ & _ & He)].
  split; [exact Hm | exact He].
Defined.

(** C7.  When the payload has no product, article or page, the modal
    widget writes the no-results markup, which is the fixed text of the
    template around [escapeHtml q].  The escaped query contains no angle bracket, so no
    part of it is read as a tag, and reading the character references
    back gives the query as it was typed. *)
Theorem C7_no_results_shows_escaped_query
    (listing : SearchData -> jsstring -> jsstring)
    (w : SearchModal.Widget) (data : SearchData) (q : jsstring) :
  noResults data = true ->
  let markup := SearchModal.innerHTML listing
                  (SearchModal.resultsContainer
                     (SearchModal.renderResults data q w)) in
  markup = SearchModal.emptyStateHtml q
  /\ markup
     = SearchModal.emptyStateBefore ++ escapeHtml q
       ++ SearchModal.emptyStateAfter
  /\ Forall (fun c => c <> 60%N /\ c <> 62%N) (escapeHtml q)
  /\ textOf (escapeHtml q) = q.
Proof.
  intros He. cbv zeta. unfold SearchModal.renderResults. rewrite He. cbn.
  split; [reflexivity|]. split; [reflexivity|].
  split; [apply escapeHtml_no_angle | apply textOf_escapeHtml].
Qed.

(** Witness for C7: the query [<b>] comes out as [&lt;b&gt;]. *)
Lemma C7_no_results_shows_escaped_query_witness :
  escapeHtml (lit "<b>") = lit "&lt;b&gt;"
  /\ Forall (fun c => c <> 60%N /\ c <> 62%N) (escapeHtml (lit "<b>"))
  /\ textOf (escapeHtml (lit "<b>")) = lit "<b>".
Proof.
  split; [reflexivity|].
  exact (proj2 (proj2 (C7_no_results_shows_escaped_query
                         (fun _ _ => []) SearchModal.init dataNone (lit "<b>")
                         eq_refl))).
Defined.


(** ** Rounding to binary64 *)

Module Binary64Proofs.
Import Binary64.
Local Open Scope Q_scope.
Local Open Scope Z_scope.

Lemma floor_unique (k : Z) (x : Q) :
  (inject_Z k <= x)%Q -> (x < inject_Z (k + 1))%Q -> Qfloor x = k.
Proof.
  intros H1 H2.
  pose proof (Qfloor_le x) as H3. pose proof (Qlt_floor x) as H4.
  assert (inject_Z k < inject_Z (Qfloor x + 1))%Q as H5 by lra.
  assert (inject_Z (Qfloor x) < inject_Z (k + 1))%Q as H6 by lra.
  rewrite <- Zlt_Qlt in H5, H6. lia.
Qed.

(** The nearest integer is within a half. *)
Lemma roundEven_near (t : Q) :
  (inject_Z (roundEven t) - (1 # 2) <= t <= inject_Z (roundEven t) + (1 # 2))%Q.
Proof.
  unfold roundEven.
  pose proof (Qfloor_le t) as H1. pose proof (Qlt_floor t) as H2.
  rewrite inject_Z_plus in H2. change (inject_Z 1) with 1%Q in H2.
  destruct (Qcompare_spec (t - inject_Z (Qfloor t)) (1 # 2)) as [E|E|E].
  - destruct (Z.even _); rewrite ?inject_Z_plus;
      change (inject_Z 1) with 1%Q; lra.
  - lra.
  - rewrite inject_Z_plus. change (inject_Z 1) with 1%Q. lra.
Qed.

Lemma roundEven_le (t : Q) (n : Z) : (t <= inject_Z n)%Q -> roundEven t <= n.
Proof.
  intros H. pose proof (roundEven_near t) as [H1 _].
  assert (inject_Z (roundEven t) < inject_Z (n + 1))%Q as H2
    by (rewrite inject_Z_plus; change (inject_Z 1) with 1%Q; lra).
  rewrite <- Zlt_Qlt in H2. lia.
Qed.

Lemma roundEven_ge (t : Q) (n : Z) : (inject_Z n <= t)%Q -> n <= roundEven t.
Proof.
  intros H. pose proof (roundEven_near t) as [_ H1].
  assert (inject_Z (n - 1) < inject_Z (roundEven t))%Q as H2
    by (unfold Z.sub; rewrite inject_Z_plus;
        change (inject_Z (- (1))) with (- (1))%Q; lra).
  rewrite <- Zlt_Qlt in H2. lia.
Qed.

Lemma roundEven_comp (t t' : Q) : t == t' -> roundEven t = roundEven t'.
Proof.
  intros E. unfold roundEven. rewrite (Qfloor_comp _ _ E).
  assert (t - inject_Z (Qfloor t') == t' - inject_Z (Qfloor t'))%Q as ->
    by (rewrite E; reflexivity).
  reflexivity.
Qed.

Lemma round_comp (x x' : Q) : x == x' -> round x == round x'.
Proof.
  intros E. unfold round, ulpExponent.
  assert (Qfloor (Qabs x * 2 ^ 1074) = Qfloor (Qabs x' * 2 ^ 1074)) as ->
    by (apply Qfloor_comp; rewrite E; reflexivity).
  set (u := Z.max _ _).
  rewrite (roundEven_comp (x / 2 ^ u) (x' / 2 ^ u)) by (rewrite E; reflexivity).
  reflexivity.
Qed.

Lemma pow2_pos (k : Z) : (0 < 2 ^ k)%Q.
Proof. apply Qpower_0_lt. reflexivity. Qed.

(** Rounding is within half a unit in the last place. *)
Lemma round_near (x : Q) :
  (round x - 2 ^ ulpExponent x * (1 # 2) <= x
   <= round x + 2 ^ ulpExponent x * (1 # 2))%Q.
Proof.
  unfold round. set (u := ulpExponent x).
  pose proof (pow2_pos u) as Hp. set (p := (2 ^ u)%Q) in *.
  pose proof (roundEven_near (x / p)) as [H1 H2].
  set (r := inject_Z (roundEven (x / p))) in *.
  assert (x == x / p * p)%Q as E by (field; lra).
  split.
  - apply (Qmult_le_compat_r _ _ p) in H1; [|lra]. lra.
  - apply (Qmult_le_compat_r _ _ p) in H2; [|lra]. lra.
Qed.

(** A number that is a multiple of the unit in the last place of [x] and
    not below [x] is not below the rounding of [x], and likewise from
    below. *)
Lemma round_le (x bound : Q) (n : Z) :
  (bound == inject_Z n * 2 ^ ulpExponent x)%Q ->
  (x <= bound)%Q -> (round x <= bound)%Q.
Proof.
  intros E H. unfold round. set (u := ulpExponent x) in *.
  pose proof (pow2_pos u) as Hp. set (p := (2 ^ u)%Q) in *.
  rewrite E. apply Qmult_le_compat_r; [|lra].
  rewrite <- Zle_Qle. apply roundEven_le.
  apply Qle_shift_div_r; [exact Hp|]. now rewrite <- E.
Qed.

Lemma round_ge (x bound : Q) (n : Z) :
  (bound == inject_Z n * 2 ^ ulpExponent x)%Q ->
  (bound <= x)%Q -> (bound <= round x)%Q.
Proof.
  intros E H. unfold round. set (u := ulpExponent x) in *.
  pose proof (pow2_pos u) as Hp. set (p := (2 ^ u)%Q) in *.
  rewrite E. apply Qmult_le_compat_r; [|lra].
  rewrite <- Zle_Qle. apply roundEven_ge.
  apply Qle_shift_div_l; [exact Hp|]. now rewrite <- E.
Qed.

Lemma round_nonneg (x : Q) : (0 <= x)%Q -> (0 <= round x)%Q.
Proof.
  intros H. apply (round_ge x 0 0); [|exact H]. ring.
Qed.


Lemma pow2_Z (k : Z) : 0 <= k -> (inject_Z (2 ^ k) == 2 ^ k)%Q.
Proof. intros H. now rewrite Zpower_Qpower. Qed.

Lemma pow2_add (a b : Z) : (2 ^ (a + b) == 2 ^ a * 2 ^ b)%Q.
Proof. apply Qpower_plus. discriminate. Qed.

(** An integer is a multiple of every unit in the last place that is at
    most one. *)
Lemma multiple_of_ulp (c u : Z) :
  u <= 0 -> (inject_Z c == inject_Z (c * 2 ^ (- u)) * 2 ^ u)%Q.
Proof.
  intros Hu. rewrite inject_Z_mult, pow2_Z by lia.
  rewrite <- Qmult_assoc, <- pow2_add.
  replace (- u + u) with 0 by lia. change (2 ^ 0)%Q with 1%Q. ring.
Qed.

(** The unit in the last place of a number below [2 ^ (k + 1)]. *)
Lemma ulpExponent_le (x : Q) (k : Z) :
  -1022 <= k -> (0 <= x)%Q -> (x < 2 ^ (k + 1))%Q -> ulpExponent x <= k - 52.
Proof.
  intros Hk H0 Hx. unfold ulpExponent. rewrite Qabs_pos by exact H0.
  pose proof (pow2_pos 1074) as Hp.
  pose proof (Qfloor_le (x * 2 ^ 1074)) as Hf.
  set (n := Qfloor (x * 2 ^ 1074)) in *.
  destruct (Z.le_gt_cases n 0) as [Hn|Hn].
  { rewrite (Z.log2_nonpos n Hn). lia. }
  enough (Z.log2 n < k + 1075) by lia.
  apply Z.log2_lt_pow2; [exact Hn|].
  rewrite Zlt_Qlt, pow2_Z by lia.
  replace (k + 1075) with (k + 1 + 1074) by lia. rewrite pow2_add.
  apply Qle_lt_trans with (1 := Hf).
  apply Qmult_lt_compat_r; [exact Hp|exact Hx].
Qed.

(** The unit in the last place of [x] is at most [x * 2 ^ (-52)], from
    [2 ^ (-1074)] on. *)
Lemma ulp_le (x : Q) :
  (0 <= x)%Q ->
  (2 ^ ulpExponent x <= x * 2 ^ (-52) + 2 ^ (-1074))%Q.
Proof.
  intros H0. unfold ulpExponent. rewrite Qabs_pos by exact H0.
  pose proof (pow2_pos (-52)) as H52. pose proof (pow2_pos (-1074)) as Hmin.
  pose proof (pow2_pos 1074) as Hp.
  pose proof (Qfloor_le (x * 2 ^ 1074)) as Hf.
  set (n := Qfloor (x * 2 ^ 1074)) in *.
  assert (0 <= x * 2 ^ (-52))%Q as Hx by (apply Qmult_le_0_compat; lra).
  destruct (Z.max_spec (Z.log2 n - 1126) (-1074)) as [[_ ->]|[Hl ->]]; [lra|].
  assert (0 < n) as Hn.
  { destruct (Z.le_gt_cases n 0) as [Hn|Hn]; [|exact Hn].
    rewrite (Z.log2_nonpos n Hn) in Hl. lia. }
  destruct (Z.log2_spec n Hn) as [Hlog _].
  rewrite Zle_Qle, pow2_Z in Hlog by apply Z.log2_nonneg.
  replace (Z.log2 n - 1126) with (Z.log2 n + -1126) by lia.
  rewrite pow2_add.
  assert (2 ^ (-52) == 2 ^ 1074 * 2 ^ (-1126))%Q as E
    by (rewrite <- pow2_add; reflexivity).
  rewrite E. pose proof (pow2_pos (-1126)) as Hq.
  set (a := (2 ^ Z.log2 n)%Q) in *. set (P := (2 ^ 1074)%Q) in *.
  set (q := (2 ^ (-1126))%Q) in *. set (h := (2 ^ (-1074))%Q) in *.
  assert (a * q <= x * P * q)%Q by (apply Qmult_le_compat_r; lra).
  lra.
Qed.

(** The error of one rounding. *)
Lemma round_error (x : Q) :
  (0 <= x)%Q ->
  (x - (x * 2 ^ (-53) + 2 ^ (-1075)) <= round x
   <= x + (x * 2 ^ (-53) + 2 ^ (-1075)))%Q.
Proof.
  intros H0. pose proof (round_near x) as [H1 H2].
  pose proof (ulp_le x H0) as Hu.
  assert (2 ^ (-52) * (1 # 2) == 2 ^ (-53))%Q as E1 by reflexivity.
  assert (2 ^ (-1074) * (1 # 2) == 2 ^ (-1075))%Q as E2 by reflexivity.
  set (p := (2 ^ ulpExponent x)%Q) in *.
  set (a := (2 ^ (-52))%Q) in *. set (b := (2 ^ (-1074))%Q) in *.
  set (a' := (2 ^ (-53))%Q) in *. set (b' := (2 ^ (-1075))%Q) in *.
  assert (x * a' == x * a * (1 # 2))%Q as E3 by (rewrite <- E1; ring).
  lra.
Qed.

(** A number up to the integer [c], itself below [2 ^ 53], rounds to a
    number up to [c]. *)
Lemma round_le_Z (x : Q) (c : Z) :
  c < 2 ^ 53 -> (0 <= x <= inject_Z c)%Q -> (0 <= round x <= inject_Z c)%Q.
Proof.
  intros Hc [H0 Hx]. split; [now apply round_nonneg|].
  assert (ulpExponent x <= 0) as Hu.
  { enough (ulpExponent x <= 52 - 52) by lia.
    apply ulpExponent_le; [lia|exact H0|].
    apply Qle_lt_trans with (1 := Hx).
    rewrite <- pow2_Z by lia. now rewrite <- Zlt_Qlt. }
  apply (round_le x (inject_Z c) (c * 2 ^ (- ulpExponent x))); [|exact Hx].
  now apply multiple_of_ulp.
Qed.

(** An integer below [2 ^ 53] is a binary64 number. *)
Lemma round_Z (c : Z) : 0 <= c < 2 ^ 53 -> (round (inject_Z c) == inject_Z c)%Q.
Proof.
  intros [H0 Hc].
  assert (0 <= inject_Z c)%Q as Hq by (now rewrite <- (Zle_Qle 0)).
  assert (ulpExponent (inject_Z c) <= 0) as Hu.
  { enough (ulpExponent (inject_Z c) <= 52 - 52) by lia.
    apply ulpExponent_le; [lia|exact Hq|].
    rewrite <- pow2_Z by lia. now rewrite <- Zlt_Qlt. }
  apply Qle_antisym.
  - apply (round_le _ _ (c * 2 ^ (- ulpExponent (inject_Z c))));
      [now apply multiple_of_ulp|apply Qle_refl].
  - apply (round_ge _ _ (c * 2 ^ (- ulpExponent (inject_Z c))));
      [now apply multiple_of_ulp|apply Qle_refl].
Qed.

End Binary64Proofs.


(** ** The product quiz *)

Module QuizProofs.
Import ProductQuiz.

(** Descending order of scores. *)
Definition descending : list Scored -> Prop :=
  StronglySorted (fun a b => score b <= score a).

Lemma insert_Permutation x l : insert x l ≡ₚ x :: l.
Proof.
  induction l as [|y l IH]; cbn; [reflexivity|].
  destruct (score x <? score y); [|reflexivity].
  rewrite IH. apply Permutation_swap.
Qed.

Lemma sortByScore_Permutation l : sortByScore l ≡ₚ l.
Proof.
  induction l as [|x l IH]; cbn; [reflexivity|].
  rewrite insert_Permutation. now rewrite IH.
Qed.

Lemma insert_descending x l : descending l -> descending (insert x l).
Proof.
  unfold descending. induction l as [|y l IH]; cbn; intros Hl.
  - repeat constructor.
  - apply StronglySorted_inv in Hl as [Hl Hy].
    destruct (Z.ltb_spec (score x) (score y)) as [Hlt|Hge].
    + constructor; [auto|].
      rewrite insert_Permutation. constructor; [lia|exact Hy].
    + constructor; [constructor; auto|].
      constructor; [exact Hge|].
      eapply Forall_impl; [exact Hy|]. cbn. intros z Hz. lia.
Qed.

Lemma sortByScore_descending l : descending (sortByScore l).
Proof.
  induction l as [|x l IH]; cbn; [constructor|]. now apply insert_descending.
Qed.

(** [sort] is stable: products with equal scores keep their order, since
    an element is inserted in front of the elements it ties with. *)
Lemma insert_ties_first x l :
  Forall (fun y => score y <= score x) l -> insert x l = x :: l.
Proof.
  destruct l as [|y l]; cbn; [reflexivity|]. intros H.
  apply Forall_cons in H as [H _].
  destruct (Z.ltb_spec (score x) (score y)); [lia|reflexivity].
Qed.

Lemma descending_app l1 l2 :
  descending (l1 ++ l2) ->
  descending l1 /\ descending l2
  /\ forall a b, a ∈ l1 -> b ∈ l2 -> score b <= score a.
Proof.
  unfold descending. induction l1 as [|x l1 IH]; cbn; intros H.
  - repeat split; [constructor|exact H|]. intros a b Ha. inversion Ha.
  - apply StronglySorted_inv in H as [H Hx].
    destruct (IH H) as (H1 & H2 & H12).
    apply Forall_app in Hx as [Hx1 Hx2].
    repeat split; [constructor; auto|exact H2|].
    intros a b Ha Hb. apply elem_of_cons in Ha as [->|Ha]; [|auto].
    rewrite Forall_forall in Hx2. auto.
Qed.

Lemma slice0_nonneg {A} (k : Z) (l : list A) :
  0 <= k -> slice0 k l = take (Z.to_nat k) l.
Proof.
  intros Hk. unfold slice0. destruct (Z.ltb_spec k 0); [lia|].
  destruct (Z.le_gt_cases k (Z.of_nat (length l))).
  - now rewrite Z.min_l.
  - rewrite Z.min_r, Nat2Z.id by lia.
    rewrite !take_ge; [reflexivity|lia|lia].
Qed.

(** The recommendations of a zero or positive count [k]: the first [k]
    entries of the positive-score products in descending order. *)
Lemma getRecommendations_top products answers k :
  0 <= k ->
  let candidates := filter (fun p => 0 < score p) (scored answers products) in
  getRecommendations products answers k
  = take (Z.to_nat k) (sortByScore candidates)
  /\ getRecommendations products answers k
     ++ drop (Z.to_nat k) (sortByScore candidates) ≡ₚ candidates.
Proof.
  intros Hk candidates. unfold getRecommendations. fold candidates.
  rewrite slice0_nonneg by exact Hk. split; [reflexivity|].
  rewrite take_drop. apply sortByScore_Permutation.
Qed.

Lemma scoreOf_scored answers products :
  score <$> scored answers products = scoreOf answers <$> products.
Proof.
  unfold scored. rewrite <- list_fmap_compose. reflexivity.
Qed.

Lemma foldl_focus (tags : list jsstring) (areas : list jsstring) (s : Z) :
  foldl (fun score area => if includes tags area then score + 4 else score)
        s areas
  = s + 4 * Z.of_nat (length (filter (fun area => includes tags area = true) areas)).
Proof.
  revert s. induction areas as [|area areas IH]; intros s.
  - rewrite filter_nil. cbn. lia.
  - cbn [foldl]. rewrite IH, filter_cons.
    destruct (includes tags area); destruct (decide _);
      cbn [length]; try congruence; lia.
Qed.

(** The score is the sum of what the six rules contribute. *)
Lemma scoreOf_sum answers p :
  scoreOf answers p
  = goalPoints answers p + goalTagPoints answers p
    + experiencePoints answers p + spacePoints answers p
    + focusPoints answers p + availabilityPoints p.
Proof.
  unfold scoreOf, goalPoints, goalTagPoints, experiencePoints, spacePoints,
    focusPoints, availabilityPoints.
  destruct (focus answers) as [areas|]; cbn [default];
    rewrite ?foldl_focus, ?filter_nil; cbn [length];
    destruct (truthyString (goal answers)) as [g|];
    destruct (truthyNumber (experience answers)) as [e|];
    destruct (truthyString (space answers)) as [sp|];
    destruct (available p);
    repeat match goal with
           | |- context [truthyNumber ?x] => destruct (truthyNumber x)
           | |- context [if ?b then _ else _] => destruct b
           end;
    cbn [default from_option]; unfold id; lia.
Qed.

Lemma experiencePoints_nonneg answers p : 0 <= experiencePoints answers p.
Proof.
  unfold experiencePoints. destruct (truthyNumber _); [|lia].
  repeat (destruct (_ : bool); try lia).
Qed.

Lemma spacePoints_nonneg answers p : 0 <= spacePoints answers p.
Proof.
  unfold spacePoints. destruct (truthyString _); [|lia].
  repeat (destruct (_ : bool); try lia).
Qed.

Lemma goalTagPoints_nonneg answers p : 0 <= goalTagPoints answers p.
Proof.
  unfold goalTagPoints. destruct (truthyString _); [|lia].
  destruct (includes _ _); lia.
Qed.

Lemma focusPoints_nonneg answers p : 0 <= focusPoints answers p.
Proof. unfold focusPoints. lia. Qed.

Lemma availabilityPoints_nonneg p : 0 <= availabilityPoints p.
Proof. unfold availabilityPoints. destruct (available p); lia. Qed.

Lemma includes_app_l l t x : includes l x = true -> includes (l ++ [t]) x = true.
Proof.
  unfold includes. rewrite !bool_decide_eq_true. intros H.
  apply elem_of_app. now left.
Qed.

Lemma length_filter_mono {A} (P Q : A -> Prop) `{forall x, Decision (P x)}
    `{forall x, Decision (Q x)} (l : list A) :
  (forall x, P x -> Q x) -> (length (filter P l) <= length (filter Q l))%nat.
Proof.
  intros HPQ. induction l as [|x l IH]; [reflexivity|].
  rewrite !filter_cons. destruct (decide (P x)) as [Hp|_].
  - destruct (decide (Q x)) as [_|Hq]; [cbn; lia|]. now destruct Hq; auto.
  - destruct (decide (Q x)); cbn; lia.
Qed.

(** Adding the goal's metafield score to a product that had none. *)
Lemma setGoalScore_scoreOf answers p g s :
  quiz_scores p !! g = None ->
  scoreOf answers (setGoalScore g s p)
  = scoreOf answers p
    + if bool_decide (truthyString (goal answers) = Some g) then s * 3 else 0.
Proof.
  intros Hnone. rewrite !scoreOf_sum.
  assert (goalPoints answers (setGoalScore g s p)
          = goalPoints answers p
            + if bool_decide (truthyString (goal answers) = Some g)
              then s * 3 else 0) as ->.
  { unfold goalPoints. cbn [quiz_scores setGoalScore].
    destruct (truthyString (goal answers)) as [g'|];
      [|rewrite bool_decide_eq_false_2 by discriminate; lia].
    destruct (decide (g = g')) as [<-|Hne].
    - rewrite bool_decide_eq_true_2 by reflexivity.
      rewrite lookup_insert_eq, Hnone. cbn.
      destruct (Z.eqb_spec s 0); cbn; lia.
    - rewrite bool_decide_eq_false_2 by congruence.
      rewrite lookup_insert_ne by exact Hne. lia. }
  unfold goalTagPoints, experiencePoints, spacePoints, focusPoints,
    availabilityPoints. cbn [tags quiz_experience_level quiz_space_required
                              available setGoalScore]. lia.
Qed.

Lemma addTag_scoreOf answers p t : scoreOf answers p <= scoreOf answers (addTag t p).
Proof.
  rewrite !scoreOf_sum.
  assert (goalTagPoints answers p <= goalTagPoints answers (addTag t p)).
  { unfold goalTagPoints. destruct (truthyString _) as [g|]; [|lia].
    cbn [tags addTag]. destruct (includes (tags p) g) eqn:E.
    - now rewrite (includes_app_l _ _ _ E).
    - destruct (includes (tags p ++ [t]) g); lia. }
  assert (focusPoints answers p <= focusPoints answers (addTag t p)).
  { unfold focusPoints. cbn [tags addTag].
    pose proof (length_filter_mono
                  (fun area => includes (tags p) area = true)
                  (fun area => includes (tags p ++ [t]) area = true)
                  (default [] (focus answers))
                  (fun x => includes_app_l (tags p) t x)). lia. }
  unfold goalPoints, experiencePoints, spacePoints, availabilityPoints.
  cbn [quiz_scores quiz_experience_level quiz_space_required available addTag].
  lia.
Qed.

Lemma setExperienceLevel_scoreOf answers p level :
  experiencePoints answers p = 0 ->
  scoreOf answers p <= scoreOf answers (setExperienceLevel level p).
Proof.
  intros H0. rewrite !scoreOf_sum, H0.
  pose proof (experiencePoints_nonneg answers (setExperienceLevel level p)).
  unfold goalPoints, goalTagPoints, spacePoints, focusPoints,
    availabilityPoints.
  cbn [quiz_scores tags quiz_space_required available setExperienceLevel]. lia.
Qed.

Lemma setSpaceRequired_scoreOf answers p s :
  spacePoints answers p = 0 ->
  scoreOf answers p <= scoreOf answers (setSpaceRequired s p).
Proof.
  intros H0. rewrite !scoreOf_sum, H0.
  pose proof (spacePoints_nonneg answers (setSpaceRequired s p)).
  unfold goalPoints, goalTagPoints, experiencePoints, focusPoints,
    availabilityPoints.
  cbn [quiz_scores tags quiz_experience_level available setSpaceRequired]. lia.
Qed.

Lemma addFocus_scoreOf answers p area :
  scoreOf (addFocus area answers) p
  = scoreOf answers p + if includes (tags p) area then 4 else 0.
Proof.
  rewrite !scoreOf_sum.
  assert (focusPoints (addFocus area answers) p
          = focusPoints answers p + if includes (tags p) area then 4 else 0) as ->.
  { unfold focusPoints. cbn [focus addFocus default from_option]. unfold id.
    rewrite filter_app, length_app, filter_cons, filter_nil.
    destruct (includes (tags p) area); destruct (decide _); cbn;
      try congruence; lia. }
  unfold goalPoints, goalTagPoints, experiencePoints, spacePoints.
  cbn [goal experience space addFocus]. lia.
Qed.

Lemma setAvailable_scoreOf answers p :
  scoreOf answers (setAvailable p)
  = scoreOf answers p + if available p then 0 else 2.
Proof.
  rewrite !scoreOf_sum.
  unfold goalPoints, goalTagPoints, experiencePoints, spacePoints,
    focusPoints, availabilityPoints.
  cbn [quiz_scores tags quiz_experience_level quiz_space_required available
       setAvailable].
  destruct (available p); lia.
Qed.

(** [Math.max] of a non-empty list bounds every element and is one of
    them. *)
Lemma maxOf_ge x xs : x <= maxOf x xs /\ Forall (fun y => y <= maxOf x xs) xs.
Proof.
  unfold maxOf. revert x. induction xs as [|y ys IH]; intros x; cbn.
  - split; [lia|constructor].
  - destruct (IH (Z.max x y)) as [H1 H2]. split; [lia|].
    constructor; [lia|exact H2].
Qed.

Lemma maxOf_elem x xs : maxOf x xs ∈ x :: xs.
Proof.
  unfold maxOf. revert x. induction xs as [|y ys IH]; intros x; cbn.
  - constructor.
  - specialize (IH (Z.max x y)). apply elem_of_cons in IH as [E|IH].
    + rewrite E. destruct (Z.max_spec x y) as [[_ ->]|[_ ->]];
        [right; left|left].
    + right. now right.
Qed.

Local Open Scope Q_scope.
Local Open Scope Z_scope.

Lemma ratio_bounds (s m : Z) :
  0 < s <= m -> (0 < inject_Z s / inject_Z m <= 1)%Q.
Proof.
  intros [Hs Hm].
  assert (0 < inject_Z s)%Q as Hs' by (now rewrite <- (Zlt_Qlt 0)).
  assert (0 < inject_Z m)%Q as Hm' by (rewrite <- (Zlt_Qlt 0); lia).
  assert (inject_Z s <= inject_Z m)%Q as Hle by (now rewrite <- Zle_Qle).
  split.
  - apply Qlt_shift_div_l; [exact Hm'|lra].
  - apply Qle_shift_div_r; [exact Hm'|lra].
Qed.

(** The product the code rounds, next to the exact one. *)
Lemma product_error (s m : Z) :
  0 < s <= m ->
  let t := (inject_Z s / inject_Z m * 100)%Q in
  let y := Binary64.mul (Binary64.div (inject_Z s) (inject_Z m)) 100 in
  (0 <= y <= 100)%Q /\ (t - 2 ^ (-45) < y < t + 2 ^ (-45))%Q.
Proof.
  intros Hsm t y. subst t y. unfold Binary64.mul, Binary64.div.
  pose proof (ratio_bounds s m Hsm) as [Hx0 Hx1].
  set (x := (inject_Z s / inject_Z m)%Q) in *.
  assert (0 <= Binary64.round x <= 1)%Q as [Hy0 Hy1]
    by (apply (Binary64Proofs.round_le_Z x 1); [reflexivity|];
        change (inject_Z 1) with 1%Q; split; lra).
  pose proof (Binary64Proofs.round_error x ltac:(lra)) as [He1 He2].
  set (y1 := Binary64.round x) in *.
  assert (0 <= Binary64.round (y1 * 100) <= 100)%Q as [Hz0 Hz1]
    by (apply (Binary64Proofs.round_le_Z (y1 * 100) 100); [reflexivity|];
        change (inject_Z 100) with 100%Q; split; lra).
  pose proof (Binary64Proofs.round_error (y1 * 100) ltac:(lra)) as [He3 He4].
  set (y2 := Binary64.round (y1 * 100)) in *.
  assert (2 ^ (-45) == 256 * 2 ^ (-53))%Q as Ed by reflexivity.
  assert (2 ^ (-1075) * 2 <= 2 ^ (-53))%Q as Hh.
  { assert (2 ^ (-53) == 2 ^ (-54) * 2)%Q as -> by reflexivity.
    apply Qmult_le_compat_r; [|lra].
    apply Qpower_le_compat_l; [lia|lra]. }
  pose proof (Binary64Proofs.pow2_pos (-53)) as He. pose proof (Binary64Proofs.pow2_pos (-1075)) as Hh0.
  set (d := (2 ^ (-45))%Q) in *. set (e := (2 ^ (-53))%Q) in *.
  set (h := (2 ^ (-1075))%Q) in *.
  assert (x * e <= 1 * e)%Q as Hxe by (apply Qmult_le_compat_r; lra).
  assert (0 <= x * e)%Q as Hxe0 by (apply Qmult_le_0_compat; lra).
  assert (y1 * 100 * e <= 100 * e)%Q as Hze by (apply Qmult_le_compat_r; lra).
  assert (0 <= y1 * 100 * e)%Q as Hze0 by (apply Qmult_le_0_compat; lra).
  set (xe := (x * e)%Q) in *. set (ze := (y1 * 100 * e)%Q) in *.
  split; [split; lra|]. split; lra.
Qed.

Lemma Math_round_bounds (y : Q) (k : Z) :
  (inject_Z k - (1 # 2) <= y)%Q -> (y < inject_Z k + (1 # 2))%Q ->
  Math_round y = k.
Proof.
  intros H1 H2. unfold Math_round. apply Binary64Proofs.floor_unique.
  - lra.
  - rewrite inject_Z_plus. change (inject_Z 1) with 1%Q. lra.
Qed.

Lemma Math_round_spec (y : Q) :
  (inject_Z (Math_round y) - (1 # 2) <= y
   < inject_Z (Math_round y) + (1 # 2))%Q.
Proof.
  unfold Math_round. pose proof (Qfloor_le (y + (1 # 2))) as H1.
  pose proof (Qlt_floor (y + (1 # 2))) as H2.
  rewrite inject_Z_plus in H2. change (inject_Z 1) with 1%Q in H2.
  split; lra.
Qed.

(** The percentage in exact arithmetic: [round(100 s / m)], halves up. *)
Lemma exactPercent_div s m :
  0 < m -> exactPercent s m = (200 * s + m) / (2 * m).
Proof.
  intros Hm. unfold exactPercent, Math_round.
  destruct m as [|pm|pm]; try lia.
  assert ((inject_Z s / inject_Z (Z.pos pm) * 100 + (1 # 2))%Q
          == ((200 * s + Z.pos pm) # (2 * pm)))%Q as ->.
  { unfold Qeq, Qdiv, Qmult, Qplus, Qinv, inject_Z. cbn [Qnum Qden]. lia. }
  reflexivity.
Qed.

Lemma matchPercent_range s m : 0 < s <= m -> 0 <= matchPercent s m <= 100.
Proof.
  intros Hsm. destruct (product_error s m Hsm) as [[H0 H1] _].
  unfold matchPercent. set (y := Binary64.mul _ _) in *.
  pose proof (Math_round_spec y) as [H2 H3].
  set (k := Math_round y) in *.
  assert (inject_Z (-1) < inject_Z k)%Q as H4
    by (change (inject_Z (-1)) with (- (1))%Q; lra).
  assert (inject_Z k < inject_Z 101)%Q as H5
    by (change (inject_Z 101) with 101%Q; lra).
  rewrite <- Zlt_Qlt in H4, H5. lia.
Qed.

Lemma matchPercent_top m : 0 < m -> matchPercent m m = 100.
Proof.
  intros Hm. unfold matchPercent, Binary64.mul, Binary64.div.
  assert (inject_Z m / inject_Z m == inject_Z 1)%Q as E.
  { change (inject_Z 1) with 1%Q. field.
    intros H. apply (inject_Z_injective m 0%Z) in H. lia. }
  assert (Binary64.round (inject_Z m / inject_Z m) == 1)%Q as E1.
  { transitivity (Binary64.round (inject_Z 1)); [now apply Binary64Proofs.round_comp|].
    now apply (Binary64Proofs.round_Z 1). }
  assert (Binary64.round (Binary64.round (inject_Z m / inject_Z m) * 100) == 100)%Q as E2.
  { transitivity (Binary64.round (inject_Z 100)).
    - apply Binary64Proofs.round_comp. rewrite E1. reflexivity.
    - now apply (Binary64Proofs.round_Z 100). }
  apply Math_round_bounds; rewrite E2; change (inject_Z 100) with 100%Q; lra.
Qed.

(** The percentage shown is within one of the exactly rounded one. *)
Lemma matchPercent_near s m :
  0 < s <= m ->
  exactPercent s m - 1 <= matchPercent s m <= exactPercent s m + 1.
Proof.
  intros Hsm. destruct (product_error s m Hsm) as [_ [H1 H2]].
  unfold matchPercent, exactPercent.
  set (y := Binary64.mul _ _) in *. set (t := (inject_Z s / inject_Z m * 100)%Q) in *.
  pose proof (Math_round_spec y) as [Hy1 Hy2].
  pose proof (Math_round_spec t) as [Ht1 Ht2].
  assert (2 ^ (-45) <= 1)%Q as Hd by (vm_compute; discriminate).
  set (d := (2 ^ (-45))%Q) in *.
  set (ky := Math_round y) in *. set (kt := Math_round t) in *.
  assert (inject_Z (kt - 2) < inject_Z ky)%Q as H3
    by (unfold Z.sub; rewrite inject_Z_plus;
        change (inject_Z (- (2))) with (- (2))%Q; lra).
  assert (inject_Z ky < inject_Z (kt + 2))%Q as H4
    by (rewrite inject_Z_plus; change (inject_Z 2) with 2%Q; lra).
  rewrite <- Zlt_Qlt in H3, H4. lia.
Qed.

Lemma quotient_split (S M K R : Q) :
  (0 < M)%Q -> (200 * S + M == 2 * M * K + R)%Q ->
  (S / M * 100 + (1 # 2) == K + R / (2 * M))%Q.
Proof.
  intros HM E.
  assert (forall a b : Q, a - b == 0 -> a == b)%Q as Hsub by (intros; lra).
  apply Hsub.
  transitivity ((200 * S + M - (2 * M * K + R)) / (2 * M))%Q; [field; lra|].
  rewrite E. field. lra.
Qed.

(** Below [2 ^ 44] the error is smaller than the distance of two
    remainders. *)
Lemma error_below_step (m : Z) :
  0 < m < 2 ^ 44 -> (2 ^ (-45) <= 1 / (2 * inject_Z m))%Q.
Proof.
  intros [H0 Hm].
  assert (0 < inject_Z m)%Q as Hm' by (now rewrite <- (Zlt_Qlt 0)).
  assert (inject_Z (2 * m) <= inject_Z (2 ^ 45))%Q as Hle
    by (rewrite <- Zle_Qle; lia).
  rewrite inject_Z_mult in Hle. change (inject_Z 2) with 2%Q in Hle.
  assert (2 ^ (-45) * inject_Z (2 ^ 45) == 1)%Q as E
    by (vm_compute; reflexivity).
  pose proof (Binary64Proofs.pow2_pos (-45)) as Hd.
  set (d := (2 ^ (-45))%Q) in *. set (c := inject_Z (2 ^ 45)) in *.
  assert (d * (2 * inject_Z m) <= d * c)%Q
    by (rewrite !(Qmult_comm d); apply Qmult_le_compat_r; lra).
  apply Qle_shift_div_l; lra.
Qed.

(** Rounding a number close to [t], by the distance of [t + 1/2] from the
    integer below it. *)
Lemma Math_round_close (t y d rest : Q) (k : Z) :
  (t - d < y < t + d)%Q -> (0 <= d <= 1)%Q ->
  (t + (1 # 2) == inject_Z k + rest)%Q ->
  ((rest == 0)%Q -> k - 1 <= Math_round y <= k)
  /\ ((d <= rest <= 1 - d)%Q -> Math_round y = k).
Proof.
  intros [H1 H2] [Hd0 Hd1] Et. split.
  - intros E0. pose proof (Math_round_spec y) as [Hy1 Hy2].
    set (ky := Math_round y) in *.
    assert (inject_Z (k - 2) < inject_Z ky)%Q as H3
      by (unfold Z.sub; rewrite inject_Z_plus;
          change (inject_Z (- (2))) with (- (2))%Q; lra).
    assert (inject_Z ky < inject_Z (k + 1))%Q as H4
      by (rewrite inject_Z_plus; change (inject_Z 1) with 1%Q; lra).
    rewrite <- Zlt_Qlt in H3, H4. lia.
  - intros [Hr1 Hr2]. apply Math_round_bounds; lra.
Qed.

(** With a highest score below [2 ^ 44], the percentage shown is the
    exactly rounded one, unless the exact percentage lies halfway between
    two integers: then it is that one or the integer below. *)
Lemma matchPercent_exact s m :
  0 < s <= m -> m < 2 ^ 44 ->
  exactPercent s m - 1 <= matchPercent s m <= exactPercent s m
  /\ ((200 * s + m) mod (2 * m) <> 0 -> matchPercent s m = exactPercent s m).
Proof.
  intros Hsm Hm.
  destruct (product_error s m Hsm) as [_ Hy].
  rewrite exactPercent_div by lia. unfold matchPercent.
  set (y := Binary64.mul _ _) in *.
  set (k := (200 * s + m) / (2 * m)).
  set (r := (200 * s + m) mod (2 * m)).
  assert (0 <= r < 2 * m) as Hr by (apply Z.mod_pos_bound; lia).
  assert (200 * s + m = 2 * m * k + r) as Hdiv by (apply Z.div_mod; lia).
  assert (0 < inject_Z m)%Q as Hm' by (rewrite <- (Zlt_Qlt 0); lia).
  assert (inject_Z s / inject_Z m * 100 + (1 # 2)
          == inject_Z k + inject_Z r / (2 * inject_Z m))%Q as Et.
  { apply quotient_split; [exact Hm'|].
    change 200%Q with (inject_Z 200). change 2%Q with (inject_Z 2).
    rewrite <- !inject_Z_mult, <- !inject_Z_plus. now rewrite Hdiv. }
  pose proof (error_below_step m ltac:(lia)) as Hd.
  assert (0 <= 2 ^ (-45) <= 1)%Q as Hd1
    by (split; vm_compute; discriminate).
  destruct (Math_round_close _ y _ _ k Hy Hd1 Et) as [Htie Hexact].
  destruct (Z.eq_dec r 0) as [E0|Hne].
  - split; [|intros Hc; contradiction].
    apply Htie. rewrite E0. change (inject_Z 0) with 0%Q. field. lra.
  - assert (Math_round y = k) as ->; [|split; [lia|reflexivity]].
    apply Hexact.
    assert (1 / (2 * inject_Z m) <= inject_Z r / (2 * inject_Z m))%Q as Hr1.
    { apply Qmult_le_compat_r.
      - change 1%Q with (inject_Z 1). rewrite <- Zle_Qle. lia.
      - apply Qlt_le_weak, Qinv_lt_0_compat. lra. }
    assert (inject_Z r / (2 * inject_Z m)
            <= 1 - 1 / (2 * inject_Z m))%Q as Hr2.
    { assert (1 - 1 / (2 * inject_Z m)
              == (2 * inject_Z m - 1) / (2 * inject_Z m))%Q as ->
        by (field; lra).
      apply Qmult_le_compat_r.
      - assert (inject_Z r <= inject_Z (2 * m - 1))%Q as Hle
          by (rewrite <- Zle_Qle; lia).
        unfold Z.sub in Hle. rewrite inject_Z_plus, inject_Z_mult in Hle.
        exact Hle.
      - apply Qlt_le_weak, Qinv_lt_0_compat. lra. }
    set (d := (2 ^ (-45))%Q) in *.
    set (rB := (inject_Z r / (2 * inject_Z m))%Q) in *.
    set (iB := (1 / (2 * inject_Z m))%Q) in *.
    split; lra.
Qed.

(** Whatever the count, the recommendations are a prefix of the sorted
    positive-score products. *)
Lemma getRecommendations_prefix products answers k :
  exists n, getRecommendations products answers k
            = take n (sortByScore
                        (filter (fun p => 0 < score p) (scored answers products))).
Proof. unfold getRecommendations, slice0. eauto. Qed.

Lemma getRecommendations_positive products answers k :
  Forall (fun p => 0 < score p) (getRecommendations products answers k).
Proof.
  destruct (getRecommendations_prefix products answers k) as [n ->].
  apply Forall_take. rewrite sortByScore_Permutation.
  apply Forall_forall. intros p Hp.
  now apply list_elem_of_filter in Hp as [Hp _].
Qed.

Lemma getRecommendations_descending products answers k :
  descending (getRecommendations products answers k).
Proof.
  destruct (getRecommendations_prefix products answers k) as [n ->].
  set (l := sortByScore _). pose proof (sortByScore_descending
    (filter (fun p => 0 < score p) (scored answers products))) as H.
  fold l in H. rewrite <- (take_drop n l) in H.
  now apply descending_app in H as [H _].
Qed.

End QuizProofs.

(** C4.  For a configured count [k >= 0], the recommendations are the
    products with a score above zero, in descending order of score, cut to
    the first [k]: every recommended product scores above zero, the list is
    in descending order, it has [min k (number of positive scores)]
    entries, and together with the entries cut off it is a rearrangement
    of the positive-score products, none of the entries cut off scoring
    more than a recommended one.  In particular products scoring
    [5, 0, 8, 3] with [k = 3] give the third, first and fourth product,
    with scores [8, 5, 3]. *)
Theorem C4_top_k_by_descending_score
    (products : list ProductQuiz.Product) (answers : ProductQuiz.Answers)
    (k : Z) :
  0 <= k ->
  let positive := filter (fun p => 0 < ProductQuiz.score p)
                         (ProductQuiz.scored answers products) in
  let recs := ProductQuiz.getRecommendations products answers k in
  Forall (fun p => 0 < ProductQuiz.score p) recs
  /\ StronglySorted (fun a b => ProductQuiz.score b <= ProductQuiz.score a) recs
  /\ length recs = Nat.min (Z.to_nat k) (length positive)
  /\ (exists rest,
        recs ++ rest ≡ₚ positive
        /\ forall a b, a ∈ recs -> b ∈ rest ->
           ProductQuiz.score b <= ProductQuiz.score a)
  /\ (ProductQuiz.scoreOf answers <$> products = [5; 0; 8; 3] -> k = 3 ->
      ProductQuiz.score <$> recs = [8; 5; 3]
      /\ Some <$> (ProductQuiz.product <$> recs)
         = [products !! 2%nat; products !! 0%nat; products !! 3%nat]).
Proof.
  intros Hk positive recs.
  destruct (QuizProofs.getRecommendations_top products answers k Hk)
    as [Etake Hperm]. fold positive recs in Etake, Hperm.
  pose proof (QuizProofs.sortByScore_descending positive) as Hsorted.
  rewrite <- (take_drop (Z.to_nat k)), <- Etake in Hsorted.
  apply QuizProofs.descending_app in Hsorted as (Hrecs & _ & Hcut).
  assert (Forall (fun p => 0 < ProductQuiz.score p) positive) as Hpos.
  { apply Forall_forall. intros p Hp.
    now apply list_elem_of_filter in Hp as [Hp _]. }
  repeat apply conj.
  - rewrite <- Hperm in Hpos. now apply Forall_app in Hpos as [Hpos _].
  - exact Hrecs.
  - rewrite Etake, length_take.
    now rewrite (Permutation_length (QuizProofs.sortByScore_Permutation positive)).
  - exists (drop (Z.to_nat k) (ProductQuiz.sortByScore positive)). auto.
  - intros Hscores ->. subst recs positive.
    unfold ProductQuiz.getRecommendations.
    rewrite <- QuizProofs.scoreOf_scored in Hscores.
    unfold ProductQuiz.scored in *.
    destruct products as [|p1 [|p2 [|p3 [|p4 [|p5 ps]]]]]; try discriminate Hscores.
    cbn in Hscores. injection Hscores as H1 H2 H3 H4.
    cbn [fmap list_fmap]. rewrite !filter_cons, filter_nil. cbn [ProductQuiz.score].
    rewrite H1, H2, H3, H4. split; vm_compute; reflexivity.
Qed.

(** Witness for C4: the four sample products score [5, 0, 8, 3]; the
    three recommendations are [bands], [rack] and [mat]. *)
Lemma C4_top_k_by_descending_score_witness :
  ProductQuiz.scoreOf ProductQuiz.sampleAnswers <$> ProductQuiz.sampleProducts
  = [5; 0; 8; 3]
  /\ (fun p => ProductQuiz.handle (ProductQuiz.product p))
     <$> ProductQuiz.getRecommendations
           ProductQuiz.sampleProducts ProductQuiz.sampleAnswers 3
     = [lit "bands"; lit "rack"; lit "mat"]
  /\ Forall (fun p => 0 < ProductQuiz.score p)
       (ProductQuiz.getRecommendations
          ProductQuiz.sampleProducts ProductQuiz.sampleAnswers 3).
Proof.
  split; [vm_compute; reflexivity|]. split; [vm_compute; reflexivity|].
  refine (proj1 (C4_top_k_by_descending_score
                   ProductQuiz.sampleProducts ProductQuiz.sampleAnswers 3 _)).
  discriminate.
Defined.

(** C5 (as amended).  The score is the sum of the contributions of the six
    rules, and every contribution except the goal metafield's is zero or
    positive.  For a fixed product and fixed remaining answers, making one
    more rule match never lowers the score: giving the product the
    metafield score of a goal, provided that score is not negative;
    giving it one more tag; giving it an experience level or a space
    requirement when the rule did not match before; selecting one more
    focus area; making it available. *)
Theorem C5_score_monotone_in_matches
    (answers : ProductQuiz.Answers) (p : ProductQuiz.Product) :
  (ProductQuiz.scoreOf answers p
   = ProductQuiz.goalPoints answers p + ProductQuiz.goalTagPoints answers p
     + ProductQuiz.experiencePoints answers p + ProductQuiz.spacePoints answers p
     + ProductQuiz.focusPoints answers p + ProductQuiz.availabilityPoints p
   /\ 0 <= ProductQuiz.goalTagPoints answers p
   /\ 0 <= ProductQuiz.experiencePoints answers p
   /\ 0 <= ProductQuiz.spacePoints answers p
   /\ 0 <= ProductQuiz.focusPoints answers p
   /\ 0 <= ProductQuiz.availabilityPoints p)
  /\ (forall g s, ProductQuiz.quiz_scores p !! g = None -> 0 <= s ->
      ProductQuiz.scoreOf answers p
      <= ProductQuiz.scoreOf answers (ProductQuiz.setGoalScore g s p))
  /\ (forall t,
      ProductQuiz.scoreOf answers p
      <= ProductQuiz.scoreOf answers (ProductQuiz.addTag t p))
  /\ (forall level, ProductQuiz.experiencePoints answers p = 0 ->
      ProductQuiz.scoreOf answers p
      <= ProductQuiz.scoreOf answers (ProductQuiz.setExperienceLevel level p))
  /\ (forall s, ProductQuiz.spacePoints answers p = 0 ->
      ProductQuiz.scoreOf answers p
      <= ProductQuiz.scoreOf answers (ProductQuiz.setSpaceRequired s p))
  /\ (forall area,
      ProductQuiz.scoreOf answers p
      <= ProductQuiz.scoreOf (ProductQuiz.addFocus area answers) p)
  /\ ProductQuiz.scoreOf answers p
     <= ProductQuiz.scoreOf answers (ProductQuiz.setAvailable p).
Proof.
  repeat apply conj.
  - apply QuizProofs.scoreOf_sum.
  - apply QuizProofs.goalTagPoints_nonneg.
  - apply QuizProofs.experiencePoints_nonneg.
  - apply QuizProofs.spacePoints_nonneg.
  - apply QuizProofs.focusPoints_nonneg.
  - apply QuizProofs.availabilityPoints_nonneg.
  - intros g s Hnone Hs. rewrite QuizProofs.setGoalScore_scoreOf by exact Hnone.
    destruct (bool_decide _); lia.
  - apply QuizProofs.addTag_scoreOf.
  - apply QuizProofs.setExperienceLevel_scoreOf.
  - apply QuizProofs.setSpaceRequired_scoreOf.
  - intros area. rewrite QuizProofs.addFocus_scoreOf.
    destruct (ProductQuiz.includes _ _); lia.
  - rewrite QuizProofs.setAvailable_scoreOf.
    destruct (ProductQuiz.available p); lia.
Qed.

(** C5, counterexample to the claim as stated.  With the goal [strength]
    answered, a product scores 10 for its tag; the same product with the
    metafield [quiz_score_strength = -2] scores 4: the goal metafield rule
    now applies and the score is lower. *)
Lemma C5_negative_goal_score_lowers_score :
  let answers := {| ProductQuiz.goal := Some (lit "strength");
                    ProductQuiz.experience := None;
                    ProductQuiz.space := None;
                    ProductQuiz.focus := None |} in
  let p := ProductQuiz.sampleProduct "rack" None None ["strength"%string] false in
  ProductQuiz.scoreOf answers p = 10
  /\ ProductQuiz.scoreOf answers (ProductQuiz.setGoalScore (lit "strength") (-2) p) = 4
  /\ ~ (ProductQuiz.scoreOf answers p
        <= ProductQuiz.scoreOf answers
             (ProductQuiz.setGoalScore (lit "strength") (-2) p)).
Proof. evaluate. intros H. now apply H. Qed.

(** The quotient and the product of [matchPercent] agree with the
    Standard Library's specification of binary64 ([SpecFloat.SFdiv] and
    [SpecFloat.SFmul] at precision 53): on every pair of scores up to 40,
    both give the same number. *)
Lemma matchPercent_agrees_with_SpecFloat :
  forallb
    (fun m =>
       forallb
         (fun s =>
            Binary64.denotes
              (SpecFloat.SFmul 53 1024
                 (SpecFloat.SFdiv 53 1024
                    (Binary64.toSpecFloat (Z.of_nat s))
                    (Binary64.toSpecFloat (Z.of_nat m)))
                 (Binary64.toSpecFloat 100))
              (Binary64.mul
                 (Binary64.div (inject_Z (Z.of_nat s)) (inject_Z (Z.of_nat m)))
                 100))
         (seq 1 m))
    (seq 1 40) = true.
Proof. vm_compute. reflexivity. Qed.

(** [Binary64.round] agrees with the Standard Library's rounding of
    [m * 2 ^ e] to binary64 ([SpecFloat.binary_normalize]) on integers, on
    ties between two neighbours, in the subnormal range and on negative
    numbers. *)
Lemma round_agrees_with_SpecFloat :
  forallb
    (fun '(m, e) =>
       Binary64.denotes (SpecFloat.binary_normalize 53 1024 m e false)
                        (Binary64.round (inject_Z m * 2 ^ e)%Q))
    [(0, 0); (1, 0); (3, 0); (100, 0); (2 ^ 53 + 1, 0); (2 ^ 53 + 2, 0);
     (2 ^ 53 + 3, 0); (2 ^ 54 + 2, 0); (2 ^ 54 + 6, 0);
     (2 ^ 60 + 2 ^ 7 + 1, -1100); (1, -1074); (1, -1075); (3, -1075);
     (1, -1076); (5, -1076); (7, -1076); (2 ^ 53 - 1, -1074);
     (2 ^ 53 - 1, -1075); (2 ^ 53 + 1, -1075); (2 ^ 52 + 1, -1075);
     (2 ^ 54 - 1, -1076); (2 ^ 53 - 1, 971); (2 ^ 53 + 1, 970);
     (2 ^ 54 - 2, 970); (-3, 0); (- (2 ^ 53 + 1), 0); (- (2 ^ 53 + 3), -5);
     (-5, -1076); (123456789123456789123456789, -40);
     (987654321987654321987654321, -1150)] = true.
Proof. vm_compute. reflexivity. Qed.

(** C8 (as amended).  When the quiz has recommendations to show,
    [renderResults] shows one card per recommendation with the percentage
    [Math.round((score / maxScore) * 100)] as JavaScript evaluates it: the
    quotient is rounded to a binary64 number, the product with 100 is
    rounded again, and [Math.round] is applied to that.  [maxScore] is the
    largest score among the recommendations shown (no shown score exceeds
    it and one equals it).  Each percentage is an integer from 0 to 100
    and the first card shows 100.  The percentage is within one of the
    percentage rounded in exact arithmetic,
    [(200 * score + maxScore) / (2 * maxScore)] in integer division; with
    a largest score below [2 ^ 44] it is never above it, and equal to it
    unless the exact percentage lies halfway between two integers. *)
Theorem C8_match_percent
    (products : list ProductQuiz.Product) (answers : ProductQuiz.Answers)
    (k : Z) (first : ProductQuiz.Scored) (rest : list ProductQuiz.Scored) :
  ProductQuiz.getRecommendations products answers k = first :: rest ->
  let shown := first :: rest in
  let maxScore := ProductQuiz.maxOf (ProductQuiz.score first)
                                    (ProductQuiz.score <$> rest) in
  ProductQuiz.renderResults shown
  = ProductQuiz.Cards
      ((fun r => (r, ProductQuiz.Math_round
                       (Binary64.round
                          (Binary64.round
                             (inject_Z (ProductQuiz.score r)
                              / inject_Z maxScore) * 100)))) <$> shown)
  /\ maxScore ∈ ProductQuiz.score <$> shown
  /\ Forall (fun r =>
       let percent := ProductQuiz.matchPercent (ProductQuiz.score r) maxScore in
       let exact := ProductQuiz.exactPercent (ProductQuiz.score r) maxScore in
       ProductQuiz.score r <= maxScore
       /\ 0 <= percent <= 100
       /\ exact = (200 * ProductQuiz.score r + maxScore) / (2 * maxScore)
       /\ exact - 1 <= percent <= exact + 1
       /\ (maxScore < 2 ^ 44 ->
           percent <= exact
           /\ ((200 * ProductQuiz.score r + maxScore) mod (2 * maxScore) <> 0 ->
               percent = exact))) shown
  /\ ProductQuiz.matchPercent (ProductQuiz.score first) maxScore = 100.
Proof.
  intros Hrecs shown maxScore.
  pose proof (QuizProofs.getRecommendations_positive products answers k) as Hpos.
  pose proof (QuizProofs.getRecommendations_descending products answers k) as Hdesc.
  rewrite Hrecs in Hpos, Hdesc.
  destruct (QuizProofs.maxOf_ge (ProductQuiz.score first)
              (ProductQuiz.score <$> rest)) as [Hfirst Hrest].
  fold maxScore in Hfirst, Hrest.
  assert (Forall (fun r => ProductQuiz.score r <= maxScore) shown) as Hle.
  { constructor; [exact Hfirst|]. now rewrite Forall_fmap in Hrest. }
  assert (0 < maxScore) as Hmax.
  { apply Forall_cons in Hpos as [Hp _]. lia. }
  split; [reflexivity|]. split; [apply QuizProofs.maxOf_elem|]. split.
  - rewrite Forall_forall in Hle, Hpos. apply Forall_forall. intros r Hr.
    specialize (Hle r Hr). specialize (Hpos r Hr). cbn in Hle, Hpos.
    cbv zeta.
    split; [exact Hle|].
    split; [apply QuizProofs.matchPercent_range; lia|].
    split; [apply QuizProofs.exactPercent_div; lia|].
    split; [apply QuizProofs.matchPercent_near; lia|].
    intros Hbound.
    destruct (QuizProofs.matchPercent_exact (ProductQuiz.score r) maxScore
                ltac:(lia) Hbound) as [[_ Hup] Heq].
    split; [exact Hup|exact Heq].
  - assert (maxScore = ProductQuiz.score first) as ->;
      [|apply QuizProofs.matchPercent_top;
        apply Forall_cons in Hpos as [Hp _]; exact Hp].
    apply StronglySorted_inv in Hdesc as [_ Hall].
    pose proof (QuizProofs.maxOf_elem (ProductQuiz.score first)
                  (ProductQuiz.score <$> rest)) as Hin.
    fold maxScore in Hin. apply elem_of_cons in Hin as [E|Hin]; [exact E|].
    apply list_elem_of_fmap in Hin as (r & E & Hr).
    rewrite Forall_forall in Hall. specialize (Hall r Hr). cbn in Hall. lia.
Qed.

(** Witness for C8: the three sample recommendations score [8, 5, 3] and
    are shown with 100, 63 and 38 percent. *)
Lemma C8_match_percent_witness :
  let bands := {| ProductQuiz.product :=
                    ProductQuiz.sampleProduct "bands" (Some "beginner"%string)
                      None [] false;
                  ProductQuiz.score := 8 |} in
  let rack := {| ProductQuiz.product :=
                   ProductQuiz.sampleProduct "rack" (Some "all"%string)
                     (Some "medium"%string) [] false;
                 ProductQuiz.score := 5 |} in
  let mat := {| ProductQuiz.product :=
                  ProductQuiz.sampleProduct "mat" None (Some "small"%string)
                    [] false;
                ProductQuiz.score := 3 |} in
  ProductQuiz.renderResults [bands; rack; mat]
  = ProductQuiz.Cards [(bands, 100); (rack, 63); (mat, 38)]
  /\ ProductQuiz.matchPercent (ProductQuiz.score bands)
       (ProductQuiz.maxOf (ProductQuiz.score bands)
          (ProductQuiz.score <$> [rack; mat])) = 100.
Proof.
  intros bands rack mat. split; [vm_compute; reflexivity|].
  refine (proj2 (proj2 (proj2
            (C8_match_percent ProductQuiz.sampleProducts
               ProductQuiz.sampleAnswers 3 bands [rack; mat] _)))).
  vm_compute. reflexivity.
Defined.

(** C8, counterexample to the claim as stated.  With the goal [strength]
    and experience 3 answered, the product [rack] scores 40 (thirty for
    its metafield, ten for its tag) and the product [bands] scores 23
    (fifteen for its metafield, eight for its level).  The percentage of
    [bands] is 57.5, which rounds to 58; the binary64 quotient of 23 and
    40 lies below 0.575, its product with 100 lies below 57.5, and the
    card shows 57. *)
Lemma C8_halfway_percentage_is_shown_one_lower :
  let answers := {| ProductQuiz.goal := Some (lit "strength");
                    ProductQuiz.experience := Some 3;
                    ProductQuiz.space := None;
                    ProductQuiz.focus := None |} in
  let rack :=
    ProductQuiz.setGoalScore (lit "strength") 10
      (ProductQuiz.sampleProduct "rack" None None ["strength"%string] false) in
  let bands :=
    ProductQuiz.setGoalScore (lit "strength") 5
      (ProductQuiz.sampleProduct "bands" (Some "beginner"%string) None []
         false) in
  let shown := ProductQuiz.getRecommendations [bands; rack] answers 3 in
  shown = [{| ProductQuiz.product := rack; ProductQuiz.score := 40 |};
           {| ProductQuiz.product := bands; ProductQuiz.score := 23 |}]
  /\ ProductQuiz.renderResults shown
     = ProductQuiz.Cards
         [({| ProductQuiz.product := rack; ProductQuiz.score := 40 |}, 100);
          ({| ProductQuiz.product := bands; ProductQuiz.score := 23 |}, 57)]
  /\ ProductQuiz.Math_round (inject_Z 23 / inject_Z 40 * 100)%Q = 58
  /\ (Binary64.div (inject_Z 23) (inject_Z 40) < 575 # 1000)%Q
  /\ (Binary64.mul (Binary64.div (inject_Z 23) (inject_Z 40)) 100
      < 575 # 10)%Q
  /\ ProductQuiz.renderResults shown
     <> ProductQuiz.Cards
          ((fun r => (r, ProductQuiz.Math_round
                           (inject_Z (ProductQuiz.score r) / inject_Z 40
                            * 100)%Q)) <$> shown).
Proof.
  cbv zeta.
  split; [vm_compute; reflexivity|].
  split; [vm_compute; reflexivity|].
  split; [vm_compute; reflexivity|].
  split; [vm_compute; reflexivity|].
  split; [vm_compute; reflexivity|].
  intros H.
  apply (f_equal (fun view => match view with
                              | ProductQuiz.Cards cards => snd <$> cards
                              | ProductQuiz.NoMatch => []
                              end)) in H.
  vm_compute in H. discriminate H.
Qed.

(** ** [JSON.parse] reads back what [JSON.stringify] writes *)

Module JSONProofs.
Import JSON.

(** The next character, if any, is not a digit. *)
Definition noDigitAhead (rest : jsstring) : Prop :=
  match rest with
  | c :: _ => digitOf c = None
  | [] => True
  end.

(** The next character, if any, cannot continue a number. *)
Definition terminated (rest : jsstring) : Prop :=
  match rest with
  | c :: _ => digitOf c = None /\ c <> 46%N /\ c <> 101%N /\ c <> 69%N
  | [] => True
  end.

Lemma readDigits_uintChars u rest :
  noDigitAhead rest -> readDigits (uintChars u ++ rest) = (u, rest).
Proof.
  intros Hrest. induction u; cbn; try (rewrite IHu; reflexivity).
  destruct rest as [|c rest]; [reflexivity|]. cbn in *. now rewrite Hrest.
Qed.

Lemma to_uint_normal n : Decimal.unorm (N.to_uint n) = N.to_uint n.
Proof.
  rewrite <- (DecimalN.Unsigned.of_to n) at 2.
  now rewrite DecimalN.Unsigned.to_of.
Qed.

Lemma to_uint_nonnil n : N.to_uint n <> Decimal.Nil.
Proof.
  destruct n; cbn; [discriminate|]. apply DecimalPos.Unsigned.to_uint_nonnil.
Qed.

(** The digits of a number start with a digit. *)
Lemma uintChars_head u :
  u <> Decimal.Nil ->
  exists c s, uintChars u = c :: s /\ isDigit c = true.
Proof. destruct u; try contradiction; intros _; cbn; eauto. Qed.

Lemma parseNumber_digits (negative : bool) (n : N) (whole rest : jsstring) :
  terminated rest ->
  let text := uintChars (N.to_uint n) ++ rest in
  (let (u, s2) := readDigits text in
   match u with
   | Decimal.Nil => None
   | _ =>
     if negb (Decimal.uint_beq (Decimal.unorm u) u) then None
     else
       match readFraction s2 with
       | None => None
       | Some s3 =>
         match readExponent s3 with
         | None => None
         | Some s4 =>
           if (length s4 =? length s2)%nat then
             let z := Z.of_N (N.of_uint u) in
             Some (Number (if negative then - z else z), s2)
           else Some (Decimal (take (length whole - length s4) whole), s4)
         end
       end
   end)
  = Some (Number (if negative then - Z.of_N n else Z.of_N n), rest).
Proof.
  intros Hrest text. subst text.
  rewrite readDigits_uintChars
    by (destruct rest; [exact I|apply Hrest]).
  pose proof (to_uint_nonnil n) as Hnn.
  destruct (N.to_uint n) eqn:E; try contradiction;
    rewrite <- E, to_uint_normal, Decimal.internal_uint_dec_lb by reflexivity;
    cbn [negb];
    (assert (readFraction rest = Some rest) as ->
       by (destruct rest as [|c r]; [reflexivity|]; cbn;
           destruct Hrest as (_ & H46 & _);
           now destruct (N.eqb_spec c 46));
     assert (readExponent rest = Some rest) as ->
       by (destruct rest as [|c r]; [reflexivity|]; cbn;
           destruct Hrest as (_ & _ & H101 & H69);
           destruct (N.eqb_spec c 101); [contradiction|];
           now destruct (N.eqb_spec c 69));
     rewrite Nat.eqb_refl, DecimalN.Unsigned.of_to; reflexivity).
Qed.

Lemma parseNumber_decimal n rest :
  terminated rest -> parseNumber (decimal n ++ rest) = Some (Number n, rest).
Proof.
  intros Hrest. unfold decimal, parseNumber.
  destruct (Z.ltb_spec n 0) as [Hneg|Hpos].
  - cbn [app]. rewrite N.eqb_refl.
    pose proof (parseNumber_digits true (Z.abs_N n)
                  (45%N :: uintChars (N.to_uint (Z.abs_N n)) ++ rest)
                  rest Hrest) as H.
    cbv zeta in H. cbn [app] in H.
    rewrite N2Z.inj_abs_N in H. replace (- Z.abs n) with n in H by lia.
    exact H.
  - destruct (uintChars_head (N.to_uint (Z.to_N n)) (to_uint_nonnil _))
      as (c & s & E & Hc).
    pose proof (parseNumber_digits false (Z.to_N n)
                  (uintChars (N.to_uint (Z.to_N n)) ++ rest) rest Hrest) as H.
    cbv zeta in H. cbn [app] in H. rewrite Z2N.id in H by exact Hpos.
    rewrite E in *. cbn [app] in *.
    destruct (N.eqb_spec c 45) as [->|_]; [discriminate Hc|]. exact H.
Qed.

(** *** Strings *)

Lemma hexValue_hexDigit d : (d < 16)%N -> hexValue (hexDigit d) = Some d.
Proof.
  intros Hd. unfold hexValue, hexDigit, isDigit.
  destruct (N.ltb_spec d 10).
  - destruct (N.leb_spec 48 (48 + d)); [|lia].
    destruct (N.leb_spec (48 + d) 57); [|lia]. cbn. f_equal. lia.
  - destruct (N.leb_spec 48 (87 + d)); [|lia].
    destruct (N.leb_spec (87 + d) 57); [lia|]. cbn.
    destruct (N.leb_spec 97 (87 + d)); [|lia].
    destruct (N.leb_spec (87 + d) 102); [|lia]. cbn. f_equal. lia.
Qed.

Lemma hex4_unicodeEscape c :
  (c < 65536)%N ->
  hex4 (hexDigit (c / 4096 mod 16)) (hexDigit (c / 256 mod 16))
       (hexDigit (c / 16 mod 16)) (hexDigit (c mod 16)) = Some c.
Proof.
  intros Hc. unfold hex4.
  rewrite !hexValue_hexDigit by (apply N.mod_lt; discriminate).
  f_equal.
  replace (c / 4096)%N with (c / 16 / 16 / 16)%N
    by (rewrite !N.Div0.div_div; reflexivity).
  replace (c / 256)%N with (c / 16 / 16)%N
    by (rewrite N.Div0.div_div; reflexivity).
  pose proof (N.div_mod c 16 ltac:(discriminate)) as H1.
  pose proof (N.div_mod (c / 16) 16 ltac:(discriminate)) as H2.
  pose proof (N.div_mod (c / 16 / 16) 16 ltac:(discriminate)) as H3.
  assert (c / 16 / 16 / 16 < 16)%N as H4.
  { repeat (apply N.Div0.div_lt_upper_bound); lia. }
  rewrite (N.mod_small (c / 16 / 16 / 16) 16) by exact H4. lia.
Qed.

(** Reading an escape: the character, then the rest of the string. *)
Definition consChar (c : N) (r : option (jsstring * jsstring))
    : option (jsstring * jsstring) :=
  match r with
  | Some (t, rest) => Some (c :: t, rest)
  | None => None
  end.

Lemma parseChars_unicodeEscape c tail :
  (c < 65536)%N ->
  parseChars (unicodeEscape c ++ tail) = consChar c (parseChars tail).
Proof.
  intros Hc. unfold unicodeEscape. cbn [app parseChars].
  cbn [N.eqb Pos.eqb]. rewrite hex4_unicodeEscape by exact Hc. reflexivity.
Qed.

Lemma parseChars_quoteChar c tail :
  isHighSurrogate c = false -> isLowSurrogate c = false ->
  parseChars (quoteChar c ++ tail) = consChar c (parseChars tail).
Proof.
  intros Hh Hl. unfold quoteChar.
  destruct (N.eqb_spec c 8) as [->|?]; [reflexivity|].
  destruct (N.eqb_spec c 9) as [->|?]; [reflexivity|].
  destruct (N.eqb_spec c 10) as [->|?]; [reflexivity|].
  destruct (N.eqb_spec c 12) as [->|?]; [reflexivity|].
  destruct (N.eqb_spec c 13) as [->|?]; [reflexivity|].
  destruct (N.eqb_spec c 34) as [->|?]; [reflexivity|].
  destruct (N.eqb_spec c 92) as [->|?]; [reflexivity|].
  destruct (N.ltb_spec c 32).
  - apply parseChars_unicodeEscape. lia.
  - cbn [app parseChars].
    destruct (N.eqb_spec c 34); [contradiction|].
    destruct (N.eqb_spec c 92); [contradiction|].
    destruct (N.ltb_spec c 32); [lia|]. reflexivity.
Qed.

Lemma surrogate_range c :
  isHighSurrogate c = true \/ isLowSurrogate c = true ->
  (c < 65536)%N /\ c <> 34%N /\ c <> 92%N /\ (32 <= c)%N.
Proof.
  unfold isHighSurrogate, isLowSurrogate.
  intros [H|H]; apply andb_prop in H as [H1 H2];
    apply N.leb_le in H1, H2; lia.
Qed.

(** A surrogate is copied by the parser as any ordinary character is. *)
Lemma parseChars_surrogate c tail :
  isHighSurrogate c = true \/ isLowSurrogate c = true ->
  parseChars (c :: tail) = consChar c (parseChars tail).
Proof.
  intros H. apply surrogate_range in H as (_ & H34 & H92 & H32).
  cbn [parseChars].
  destruct (N.eqb_spec c 34); [contradiction|].
  destruct (N.eqb_spec c 92); [contradiction|].
  destruct (N.ltb_spec c 32); [lia|]. reflexivity.
Qed.

Lemma parseChars_quoteBody_aux n : forall s rest,
  (length s <= n)%nat ->
  parseChars (quoteBody s ++ 34%N :: rest) = Some (s, rest).
Proof.
  induction n as [|n IH]; intros s rest Hlen.
  { destruct s; [reflexivity|cbn in Hlen; lia]. }
  destruct s as [|c r]; [reflexivity|]. cbn in Hlen. cbn [quoteBody].
  destruct (isHighSurrogate c) eqn:Hh.
  - destruct r as [|d r'].
    + rewrite parseChars_unicodeEscape
        by (apply surrogate_range; auto). reflexivity.
    + destruct (isLowSurrogate d) eqn:Hd.
      * cbn [app]. rewrite !parseChars_surrogate by auto.
        rewrite IH by (cbn in Hlen; lia). reflexivity.
      * rewrite <- app_assoc, parseChars_unicodeEscape
          by (apply surrogate_range; auto).
        rewrite IH by lia. reflexivity.
  - destruct (isLowSurrogate c) eqn:Hl.
    + rewrite <- app_assoc, parseChars_unicodeEscape
        by (apply surrogate_range; auto).
      rewrite IH by lia. reflexivity.
    + rewrite <- app_assoc, parseChars_quoteChar by assumption.
      rewrite IH by lia. reflexivity.
Qed.

Lemma parseChars_quoteBody s rest :
  parseChars (quoteBody s ++ 34%N :: rest) = Some (s, rest).
Proof. now apply (parseChars_quoteBody_aux (length s)). Qed.

(** *** Values *)

(** Induction over a value and the values inside it. *)
Section ValueInduction.
Variable P : value -> Prop.
Hypothesis HNull : P Null.
Hypothesis HBool : forall b, P (Bool b).
Hypothesis HNumber : forall n, P (Number n).
Hypothesis HDecimal : forall token, P (Decimal token).
Hypothesis HStr : forall s, P (Str s).
Hypothesis HArray : forall items, Forall P items -> P (Array items).
Hypothesis HObject : forall members,
  Forall (fun m => P (snd m)) members -> P (Object members).

Fixpoint value_induction (v : value) : P v :=
  match v with
  | Null => HNull
  | Bool b => HBool b
  | Number n => HNumber n
  | Decimal token => HDecimal token
  | Str s => HStr s
  | Array items =>
    HArray items
      ((fix all (l : list value) : Forall P l :=
          match l with
          | [] => @List.Forall_nil _ P
          | x :: l' =>
            @List.Forall_cons _ P x l' (value_induction x) (all l')
          end) items)
  | Object members =>
    HObject members
      ((fix all (l : list (jsstring * value))
          : Forall (fun m => P (snd m)) l :=
          match l with
          | [] => @List.Forall_nil _ _
          | m :: l' =>
            @List.Forall_cons _ (fun m => P (snd m)) m l'
              (value_induction (snd m)) (all l')
          end) members)
  end.
End ValueInduction.

(** A value without a number kept as text: what the quote list writes. *)
Fixpoint plain (v : value) : Prop :=
  match v with
  | Decimal _ => False
  | Array items =>
    (fix all (l : list value) : Prop :=
       match l with [] => True | x :: l' => plain x /\ all l' end) items
  | Object members =>
    (fix all (l : list (jsstring * value)) : Prop :=
       match l with [] => True | m :: l' => plain (snd m) /\ all l' end) members
  | _ => True
  end.

(** The text between the brackets of an array, and between the braces of
    an object. *)
Fixpoint elements (l : list value) : jsstring :=
  match l with
  | [] => []
  | [x] => stringify x
  | x :: l' => stringify x ++ lit "," ++ elements l'
  end.

Fixpoint properties (l : list (jsstring * value)) : jsstring :=
  match l with
  | [] => []
  | [(k, x)] => quote k ++ lit ":" ++ stringify x
  | (k, x) :: l' => quote k ++ lit ":" ++ stringify x ++ lit "," ++ properties l'
  end.

Lemma stringify_Array items :
  stringify (Array items) = lit "[" ++ elements items ++ lit "]".
Proof. reflexivity. Qed.

Lemma stringify_Object members :
  stringify (Object members) = lit "{" ++ properties members ++ lit "}".
Proof. reflexivity. Qed.

(** The fuel the descent uses on a value. *)
Fixpoint need (v : value) : nat :=
  match v with
  | Array items =>
    S ((fix go (l : list value) : nat :=
          match l with
          | [] => O
          | [x] => S (need x)
          | x :: l' => S (Nat.max (need x) (go l'))
          end) items)
  | Object members =>
    S ((fix go (l : list (jsstring * value)) : nat :=
          match l with
          | [] => O
          | [m] => S (need (snd m))
          | m :: l' => S (Nat.max (need (snd m)) (go l'))
          end) members)
  | _ => 1%nat
  end.

Fixpoint needElements (l : list value) : nat :=
  match l with
  | [] => O
  | [x] => S (need x)
  | x :: l' => S (Nat.max (need x) (needElements l'))
  end.

Fixpoint needMembers (l : list (jsstring * value)) : nat :=
  match l with
  | [] => O
  | [m] => S (need (snd m))
  | m :: l' => S (Nat.max (need (snd m)) (needMembers l'))
  end.

Lemma need_Array items : need (Array items) = S (needElements items).
Proof. reflexivity. Qed.

Lemma need_Object members : need (Object members) = S (needMembers members).
Proof. reflexivity. Qed.

Lemma plain_Array items : plain (Array items) <-> Forall plain items.
Proof.
  cbn [plain]. induction items as [|x l IH]; [split; auto|].
  rewrite Forall_cons, <- IH. reflexivity.
Qed.

Lemma plain_Object members :
  plain (Object members) <-> Forall (fun m => plain (snd m)) members.
Proof.
  cbn [plain]. induction members as [|x l IH]; [split; auto|].
  rewrite Forall_cons, <- IH. reflexivity.
Qed.

(** The characters a printed value can start with. *)
Definition startsValue (c : N) : Prop :=
  c = 110%N \/ c = 116%N \/ c = 102%N \/ c = 45%N \/ isDigit c = true
  \/ c = 34%N \/ c = 91%N \/ c = 123%N.

Lemma decimal_head n :
  exists c s, decimal n = c :: s /\ (c = 45%N \/ isDigit c = true).
Proof.
  unfold decimal. destruct (n <? 0); [eauto|].
  destruct (uintChars_head (N.to_uint (Z.to_N n)) (to_uint_nonnil _))
    as (c & s & E & Hc). eauto.
Qed.

Lemma stringify_head v :
  plain v -> exists c s, stringify v = c :: s /\ startsValue c.
Proof.
  unfold startsValue. destruct v as [|[|]|n|t|s|items|members]; intros Hp;
    try (cbn; eauto 12; fail); try (destruct Hp; fail).
  destruct (decimal_head n) as (c & s & E & [->|Hc]); cbn; rewrite E;
    eauto 12.
Qed.

Lemma startsValue_not c :
  startsValue c ->
  isWs c = false /\ c <> 93%N /\ c <> 125%N /\ c <> 44%N /\ c <> 58%N.
Proof.
  unfold startsValue, isDigit, isWs.
  intros [->|[->|[->|[->|[H|[->|[->| ->]]]]]]];
    try (repeat split; discriminate).
  apply andb_prop in H as [H1 H2]. apply N.leb_le in H1, H2.
  repeat split; try lia.
  destruct (N.eqb_spec c 32); [lia|]. destruct (N.eqb_spec c 9); [lia|].
  destruct (N.eqb_spec c 10); [lia|]. destruct (N.eqb_spec c 13); [lia|].
  reflexivity.
Qed.

Lemma skipWs_stringify v rest :
  plain v -> skipWs (stringify v ++ rest) = stringify v ++ rest.
Proof.
  intros Hp. destruct (stringify_head v Hp) as (c & s & -> & Hc).
  apply startsValue_not in Hc as (Hw & _). cbn. now rewrite Hw.
Qed.

(** What [parseValue] is asked to prove for one value. *)
Definition readsBack (v : value) : Prop :=
  forall fuel rest, terminated rest -> (need v <= fuel)%nat ->
  parseValue fuel (stringify v ++ rest) = Some (v, rest).

Lemma elements_cons x l :
  l <> [] -> elements (x :: l) = stringify x ++ 44%N :: elements l.
Proof. destruct l; [contradiction|reflexivity]. Qed.

Lemma needElements_cons x l :
  l <> [] -> needElements (x :: l) = S (Nat.max (need x) (needElements l)).
Proof. destruct l; [contradiction|reflexivity]. Qed.

Lemma properties_cons k x l :
  l <> [] ->
  properties ((k, x) :: l)
  = quote k ++ 58%N :: stringify x ++ 44%N :: properties l.
Proof. destruct l; [contradiction|reflexivity]. Qed.

Lemma needMembers_cons m l :
  l <> [] -> needMembers (m :: l) = S (Nat.max (need (snd m)) (needMembers l)).
Proof. destruct l; [contradiction|reflexivity]. Qed.

Lemma terminated_separator c rest :
  c = 44%N \/ c = 93%N \/ c = 125%N -> terminated (c :: rest).
Proof. intros [->|[->| ->]]; cbn; repeat split; discriminate. Qed.

Lemma parseElements_elements items : forall fuel rest,
  items <> [] -> Forall readsBack items ->
  (needElements items <= fuel)%nat ->
  parseElements fuel (elements items ++ 93%N :: rest) = Some (items, rest).
Proof.
  induction items as [|x l IH]; intros fuel rest Hne Hback Hfuel;
    [contradiction|].
  apply Forall_cons in Hback as [Bx Bl].
  destruct (decide (l = [])) as [->|Hl].
  - cbn [elements needElements] in *. destruct fuel as [|fuel]; [lia|].
    cbn [parseElements].
    rewrite Bx; [reflexivity|apply terminated_separator; auto|lia].
  - rewrite needElements_cons in Hfuel by exact Hl.
    rewrite elements_cons by exact Hl.
    destruct fuel as [|fuel]; [lia|].
    cbn [parseElements]. rewrite <- app_assoc. cbn [app].
    rewrite Bx; [|apply terminated_separator; auto|lia].
    cbn [skipWs isWs N.eqb Pos.eqb orb].
    rewrite (IH fuel rest); [reflexivity|exact Hl|exact Bl|lia].
Qed.

Lemma parseChars_quote k rest :
  skipWs (quote k ++ rest) = 34%N :: quoteBody k ++ 34%N :: rest
  /\ parseChars (quoteBody k ++ 34%N :: rest) = Some (k, rest).
Proof.
  split; [|apply parseChars_quoteBody].
  unfold quote, dq. rewrite <- !app_assoc. reflexivity.
Qed.

Lemma parseMembers_properties members : forall fuel rest,
  members <> [] -> Forall (fun m => readsBack (snd m)) members ->
  (needMembers members <= fuel)%nat ->
  parseMembers fuel (properties members ++ 125%N :: rest)
  = Some (members, rest).
Proof.
  induction members as [|[k x] l IH]; intros fuel rest Hne Hback Hfuel;
    [contradiction|].
  apply Forall_cons in Hback as [Bx Bl]. cbn [snd] in Bx.
  destruct (decide (l = [])) as [->|Hl].
  - cbn [properties needMembers snd] in *. destruct fuel as [|fuel]; [lia|].
    cbn [parseMembers]. change (lit ":") with [58%N].
    rewrite <- !app_assoc. cbn [app].
    destruct (parseChars_quote k (58%N :: stringify x ++ 125%N :: rest))
      as [-> Hk].
    cbn [N.eqb Pos.eqb]. rewrite Hk.
    cbn [skipWs isWs N.eqb Pos.eqb orb].
    rewrite Bx; [reflexivity|apply terminated_separator; auto|lia].
  - rewrite needMembers_cons in Hfuel by exact Hl. cbn [snd] in Hfuel.
    rewrite properties_cons by exact Hl.
    destruct fuel as [|fuel]; [lia|].
    cbn [parseMembers]. rewrite <- !app_assoc. cbn [app].
    rewrite <- app_assoc. cbn [app].
    destruct (parseChars_quote k
                (58%N :: stringify x ++ 44%N :: properties l ++ 125%N :: rest))
      as [-> Hk].
    cbn [N.eqb Pos.eqb]. rewrite Hk.
    cbn [skipWs isWs N.eqb Pos.eqb orb].
    rewrite Bx; [|apply terminated_separator; auto|lia].
    cbn [skipWs isWs N.eqb Pos.eqb orb].
    rewrite (IH fuel rest); [reflexivity|exact Hl|exact Bl|lia].
Qed.

(** The dispatch of [parseValue] on a number. *)
Lemma parseValue_number fuel n rest :
  terminated rest ->
  parseValue (S fuel) (decimal n ++ rest) = Some (Number n, rest).
Proof.
  intros Hrest. pose proof (parseNumber_decimal n rest Hrest) as Hn.
  destruct (decimal_head n) as (c & s & E & Hc). rewrite E in *.
  assert (isWs c = false /\ c <> 34%N /\ c <> 91%N /\ c <> 123%N
          /\ c <> 110%N /\ c <> 116%N /\ c <> 102%N)
    as (Hw & H1 & H2 & H3 & H4 & H5 & H6).
  { destruct Hc as [->|Hd]; [repeat split; discriminate|].
    unfold isDigit in Hd. apply andb_prop in Hd as [Ha Hb].
    apply N.leb_le in Ha, Hb. repeat split; try lia. unfold isWs.
    destruct (N.eqb_spec c 32); [lia|]. destruct (N.eqb_spec c 9); [lia|].
    destruct (N.eqb_spec c 10); [lia|]. destruct (N.eqb_spec c 13); [lia|].
    reflexivity. }
  cbn [parseValue app skipWs]. rewrite Hw.
  destruct (N.eqb_spec c 34); [contradiction|].
  destruct (N.eqb_spec c 91); [contradiction|].
  destruct (N.eqb_spec c 123); [contradiction|].
  destruct (N.eqb_spec c 110); [contradiction|].
  destruct (N.eqb_spec c 116); [contradiction|].
  destruct (N.eqb_spec c 102); [contradiction|].
  exact Hn.
Qed.

(** [parseValue] reads a printed value back, given the fuel it needs. *)
Lemma parseValue_stringify v : plain v -> readsBack v.
Proof.
  induction v as [|b|n|token|s|items IH|members IH] using value_induction;
    intros Hp fuel rest Hrest Hfuel.
  - destruct fuel; [cbn in Hfuel; lia|]. reflexivity.
  - destruct fuel; [cbn in Hfuel; lia|]. destruct b; reflexivity.
  - destruct fuel; [cbn in Hfuel; lia|]. now apply parseValue_number.
  - destruct Hp.
  - destruct fuel; [cbn in Hfuel; lia|]. cbn [stringify parseValue].
    unfold quote, dq. rewrite <- !app_assoc. cbn [app skipWs isWs N.eqb Pos.eqb orb].
    now rewrite parseChars_quoteBody.
  - rewrite need_Array in Hfuel. destruct fuel as [|fuel]; [lia|].
    rewrite stringify_Array.
    change (lit "[") with [91%N]. change (lit "]") with [93%N].
    rewrite <- !app_assoc. cbn [app parseValue skipWs isWs N.eqb Pos.eqb orb].
    apply plain_Array in Hp.
    destruct items as [|x l]; [reflexivity|].
    assert (Forall readsBack (x :: l)) as Hback.
    { rewrite Forall_forall in IH, Hp. apply Forall_forall. auto. }
    assert (exists c s, elements (x :: l) ++ 93%N :: rest = c :: s
                        /\ isWs c = false /\ c <> 93%N) as (c & s & E & Hw & Hc).
    { apply Forall_cons in Hp as [Hx _].
      destruct (stringify_head x Hx) as (c & s & E & Hc).
      apply startsValue_not in Hc as (Hw & H93 & _).
      destruct (decide (l = [])) as [->|Hl].
      - cbn [elements]. rewrite E. cbn. eauto.
      - rewrite elements_cons by exact Hl. rewrite E. cbn. eauto. }
    rewrite E at 1. cbn [skipWs]. rewrite Hw.
    destruct (N.eqb_spec c 93); [contradiction|].
    rewrite parseElements_elements;
      [reflexivity|discriminate|exact Hback|lia].
  - rewrite need_Object in Hfuel. destruct fuel as [|fuel]; [lia|].
    rewrite stringify_Object.
    change (lit "{") with [123%N]. change (lit "}") with [125%N].
    rewrite <- !app_assoc. cbn [app parseValue skipWs isWs N.eqb Pos.eqb orb].
    apply plain_Object in Hp.
    destruct members as [|[k x] l]; [reflexivity|].
    assert (Forall (fun m => readsBack (snd m)) ((k, x) :: l)) as Hback.
    { rewrite Forall_forall in IH, Hp. apply Forall_forall. auto. }
    assert (exists s, properties ((k, x) :: l) ++ 125%N :: rest = 34%N :: s)
      as (s & E).
    { destruct (decide (l = [])) as [->|Hl].
      - cbn [properties]. unfold quote, dq. cbn. eauto.
      - rewrite properties_cons by exact Hl. unfold quote, dq. cbn. eauto. }
    rewrite E at 1. cbn [skipWs isWs N.eqb Pos.eqb orb].
    rewrite parseMembers_properties;
      [reflexivity|discriminate|exact Hback|lia].
Qed.

(** Every printed value is at least as long as the fuel it needs. *)
Lemma need_length v : plain v -> (need v <= length (stringify v))%nat.
Proof.
  induction v as [|b|n|token|s|items IH|members IH] using value_induction;
    intros Hp.
  - cbn. lia.
  - destruct b; cbn; lia.
  - destruct (decimal_head n) as (c & s & E & _). cbn [need stringify].
    rewrite E. cbn. lia.
  - destruct Hp.
  - cbn [need stringify]. unfold quote, dq. rewrite !length_app. cbn. lia.
  - rewrite need_Array, stringify_Array, !length_app. cbn [lit length
      list_ascii_of_string fmap list_fmap].
    apply plain_Array in Hp.
    enough (needElements items <= S (length (elements items)))%nat by lia.
    induction items as [|x l IHl]; [cbn; lia|].
    apply Forall_cons in IH as [IHx IHr]. apply Forall_cons in Hp as [Hx Hr].
    specialize (IHx Hx). specialize (IHl IHr Hr).
    destruct (decide (l = [])) as [->|Hl]; [cbn [needElements elements]; lia|].
    rewrite needElements_cons, elements_cons by exact Hl.
    rewrite length_app. cbn [length]. lia.
  - rewrite need_Object, stringify_Object, !length_app. cbn [lit length
      list_ascii_of_string fmap list_fmap].
    apply plain_Object in Hp.
    enough (needMembers members <= S (length (properties members)))%nat by lia.
    induction members as [|[k x] l IHl]; [cbn; lia|].
    apply Forall_cons in IH as [IHx IHr]. apply Forall_cons in Hp as [Hx Hr].
    cbn [snd] in *. specialize (IHx Hx). specialize (IHl IHr Hr).
    destruct (decide (l = [])) as [->|Hl].
    + cbn [needMembers properties snd]. rewrite !length_app. lia.
    + rewrite needMembers_cons, properties_cons by exact Hl.
      rewrite !length_app. cbn [length snd]. rewrite length_app. cbn [length].
      lia.
Qed.

(** The round trip: [JSON.parse(JSON.stringify(v))] is [v]. *)
Lemma parse_stringify v : plain v -> parse (stringify v) = Some v.
Proof.
  intros Hp. unfold parse.
  pose proof (parseValue_stringify v Hp (S (length (stringify v))) [] I) as H.
  rewrite app_nil_r in H. rewrite H; [reflexivity|].
  pose proof (need_length v Hp). lia.
Qed.

End JSONProofs.

(** ** The quote list *)

Module QuoteProofs.
Import QuoteSystem.

(** The key of the first member, if any, is one of [keys]. *)
Definition headKeyIn (keys : list string) (ms : list (jsstring * JSON.value))
    : Prop :=
  match ms with
  | (k, _) :: _ => k ∈ lit <$> keys
  | [] => True
  end.

Lemma headKeyIn_member keys key f ms :
  lit key ∈ lit <$> keys -> headKeyIn keys ms ->
  headKeyIn keys (member key f ++ ms).
Proof. intros Hk Hms. destruct f; cbn; auto. Qed.

Lemma takeMember_member keys key f ms :
  headKeyIn keys ms -> lit key ∉ lit <$> keys ->
  takeMember key (member key f ++ ms) = Some (f, ms).
Proof.
  intros Hms Hk. destruct f; cbn;
    try (rewrite bool_decide_eq_true_2 by reflexivity; reflexivity).
  destruct ms as [|[k v] ms]; [reflexivity|]. cbn in *.
  rewrite bool_decide_eq_false_2; [reflexivity|]. intros ->. contradiction.
Qed.

Lemma headKeyIn_weaken key keys ms :
  headKeyIn keys ms -> headKeyIn (key :: keys) ms.
Proof. destruct ms as [|[k v] ms]; cbn; [auto|]. intros H. now right. Qed.

(** The members from [key] on start with [key] or with a later key. *)
Lemma headKeyIn_next key keys f ms :
  headKeyIn keys ms -> headKeyIn (key :: keys) (member key f ++ ms).
Proof.
  intros H. apply headKeyIn_member; [cbn; left|now apply headKeyIn_weaken].
Qed.

Ltac key_not_in :=
  apply (bool_decide_unpack _); vm_compute; exact I.

Lemma valueItem_itemValue i : valueItem (itemValue i) = Some i.
Proof.
  destruct i as [i f1 f2 f3 f4 f5 f6 f7 q]. unfold itemValue, valueItem.
  cbn [id productId productTitle productHandle productImage variantId
       variantTitle variantPrice quantity app].
  rewrite bool_decide_eq_true_2 by reflexivity.
  set (tail := match q with
               | Some n => [(lit "quantity", JSON.Number n)]
               | None => []
               end).
  assert (headKeyIn ["quantity"%string] tail) as H8.
  { subst tail. destruct q; cbn; [left|exact I]. }
  pose proof (headKeyIn_next "variantPrice" _ f7 _ H8) as H7.
  pose proof (headKeyIn_next "variantTitle" _ f6 _ H7) as H6.
  pose proof (headKeyIn_next "variantId" _ f5 _ H6) as H5.
  pose proof (headKeyIn_next "productImage" _ f4 _ H5) as H4.
  pose proof (headKeyIn_next "productHandle" _ f3 _ H4) as H3.
  pose proof (headKeyIn_next "productTitle" _ f2 _ H3) as H2.
  rewrite (takeMember_member _ _ _ _ H2) by key_not_in. cbn [mbind option_bind].
  rewrite (takeMember_member _ _ _ _ H3) by key_not_in. cbn [mbind option_bind].
  rewrite (takeMember_member _ _ _ _ H4) by key_not_in. cbn [mbind option_bind].
  rewrite (takeMember_member _ _ _ _ H5) by key_not_in. cbn [mbind option_bind].
  rewrite (takeMember_member _ _ _ _ H6) by key_not_in. cbn [mbind option_bind].
  rewrite (takeMember_member _ _ _ _ H7) by key_not_in. cbn [mbind option_bind].
  rewrite (takeMember_member _ _ _ _ H8) by key_not_in. cbn [mbind option_bind].
  subst tail. destruct q; [|reflexivity].
  rewrite bool_decide_eq_true_2 by reflexivity. reflexivity.
Qed.

Lemma valueItems_itemsValue l : valueItems (itemsValue l) = Some l.
Proof.
  unfold valueItems, itemsValue. induction l as [|i l IH]; [reflexivity|].
  cbn [fmap list_fmap mapM]. cbn [fmap list_fmap] in IH.
  rewrite valueItem_itemValue. cbn [mbind option_bind]. rewrite IH. reflexivity.
Qed.

Lemma plain_member key f :
  Forall (fun m => JSONProofs.plain (snd m)) (member key f).
Proof. destruct f; repeat constructor. Qed.

Lemma plain_itemValue i : JSONProofs.plain (itemValue i).
Proof.
  unfold itemValue. apply JSONProofs.plain_Object.
  repeat (apply Forall_app; split); try apply plain_member.
  - repeat constructor.
  - destruct (quantity i); repeat constructor.
Qed.

Lemma plain_itemsValue l : JSONProofs.plain (itemsValue l).
Proof.
  unfold itemsValue. apply JSONProofs.plain_Array. apply Forall_fmap.
  apply Forall_forall. intros i _. apply plain_itemValue.
Qed.

(** What [saveItems] writes, [loadItems] reads back. *)
Lemma loadItems_stringify storage l :
  loadItems (<[storageKey := JSON.stringify (itemsValue l)]> storage) = Items l.
Proof.
  unfold loadItems. rewrite lookup_insert_eq.
  rewrite JSONProofs.parse_stringify by apply plain_itemsValue.
  cbn [JSON.truthy itemsValue]. fold (itemsValue l).
  now rewrite valueItems_itemsValue.
Qed.

(** The storage holds the list the widget has. *)
Definition Synced (w : Widget) : Prop :=
  loadItems (localStorage w) = Items (items w).

(** No two items have the same product and variant. *)
Definition Unique (l : list QuoteItem) : Prop :=
  NoDup ((fun i => (productId i, variantId i)) <$> l).

Lemma Synced_saveItems w : Synced (saveItems w).
Proof. apply loadItems_stringify. Qed.

Lemma exists_false p v l :
  exists_ p v l = false -> (p, v) ∉ (fun i => (productId i, variantId i)) <$> l.
Proof.
  unfold exists_. destruct (list_find _ _) as [[n i]|] eqn:E; [discriminate|].
  intros _ Hin. apply list_find_None in E. rewrite Forall_forall in E.
  apply list_elem_of_fmap in Hin as (i & Hi & Hl).
  apply (E i Hl). injection Hi as -> ->. split; reflexivity.
Qed.

Lemma exists_true p v l :
  exists_ p v l = true -> (p, v) ∈ (fun i => (productId i, variantId i)) <$> l.
Proof.
  unfold exists_. destruct (list_find _ _) as [[n i]|] eqn:E; [|discriminate].
  intros _. apply list_find_Some in E as (Hl & [Hp Hv] & _).
  apply list_elem_of_fmap. exists i. split; [now rewrite Hp, Hv|].
  now apply list_elem_of_lookup_2 in Hl.
Qed.

Lemma Unique_snoc l i :
  Unique l -> (productId i, variantId i) ∉ (fun i => (productId i, variantId i)) <$> l ->
  Unique (l ++ [i]).
Proof.
  unfold Unique. intros Hl Hi. rewrite fmap_app. apply NoDup_app.
  split; [exact Hl|]. split; [|apply NoDup_singleton].
  intros x Hx Hx'. cbn in Hx'. apply list_elem_of_singleton in Hx' as ->.
  contradiction.
Qed.

Lemma Unique_addItem time button w :
  Unique (items w) -> Unique (items (addItem time button w)).
Proof.
  intros Hw. unfold addItem, newItem.
  destruct (exists_ _ _ _) eqn:E; [exact Hw|]. cbn [items saveItems with_items].
  apply Unique_snoc; [exact Hw|]. now apply exists_false in E.
Qed.

Lemma Unique_addLine l line : Unique l -> Unique (addLine l line).
Proof.
  intros Hl. unfold addLine. destruct (exists_ _ _ _) eqn:E; [exact Hl|].
  apply Unique_snoc; [exact Hl|]. now apply exists_false in E.
Qed.

Lemma Unique_foldl_addLine lines : forall l,
  Unique l -> Unique (foldl addLine l lines).
Proof.
  induction lines as [|line lines IH]; intros l Hl; [exact Hl|].
  cbn [foldl]. apply IH. now apply Unique_addLine.
Qed.

Lemma Unique_step w e : Unique (items w) -> Unique (items (step w e)).
Proof.
  intros Hw. destruct e as [time button|itemId|[lines|]| | |]; cbn.
  - now apply Unique_addItem.
  - now apply NoDup_fmap_filter.
  - now apply Unique_foldl_addLine.
  - exact Hw.
  - constructor.
  - exact Hw.
  - destruct (isOpen w); exact Hw.
Qed.

Lemma Synced_step w e : Synced w -> Synced (step w e).
Proof.
  intros Hw. destruct e as [time button|itemId|[lines|]| | |]; cbn;
    try exact Hw; try apply Synced_saveItems.
  - unfold open, addItem, newItem. destruct (exists_ _ _ _); [exact Hw|].
    apply Synced_saveItems.
  - destruct (isOpen w); exact Hw.
Qed.

Lemma run_invariant es : forall w,
  Synced w -> Unique (items w) ->
  Synced (run es w) /\ Unique (items (run es w)).
Proof.
  unfold run. induction es as [|e es IH]; intros w Hs Hu; [auto|].
  cbn [foldl]. apply IH; [now apply Synced_step|now apply Unique_step].
Qed.

(** Loading a page over a storage that holds a list of items. *)
Lemma construct_loaded storage l :
  loadItems storage = Items l ->
  construct storage
  = Some {| items := l; isOpen := false; localStorage := storage |}.
Proof. intros H. unfold construct. now rewrite H. Qed.

Lemma loadItems_empty : loadItems ∅ = Items [].
Proof. reflexivity. Qed.

Lemma visits_invariant later : forall storage page l,
  loadItems storage = Items l -> Unique l ->
  exists w, visits storage page later = Some w
            /\ Synced w /\ Unique (items w).
Proof.
  induction later as [|next later IH]; intros storage page l Hl Hu;
    cbn [visits]; rewrite (construct_loaded storage l Hl);
    destruct (run_invariant page
                {| items := l; isOpen := false; localStorage := storage |}
                Hl Hu) as [Hs Hu'].
  - eauto.
  - apply (IH _ next _ Hs Hu').
Qed.

End QuoteProofs.

(** What one [addItem] leaves: the list unchanged when it has the variant
    of the button, and otherwise the list with the new item at its end,
    saved. *)
Lemma addItem_items time button w :
  QuoteSystem.items (QuoteSystem.addItem time button w)
  = (if QuoteSystem.exists_ (buttonKey button).1 (buttonKey button).2
          (QuoteSystem.items w)
     then QuoteSystem.items w
     else QuoteSystem.items w ++ [QuoteSystem.newItem time button]).
Proof.
  unfold QuoteSystem.addItem, buttonKey.
  cbn [fst snd QuoteSystem.productId QuoteSystem.variantId QuoteSystem.newItem].
  destruct (QuoteSystem.exists_ _ _ _); reflexivity.
Qed.

Lemma addItem_Synced time button w :
  QuoteProofs.Synced w -> QuoteProofs.Synced (QuoteSystem.addItem time button w).
Proof.
  intros Hw. unfold QuoteSystem.addItem.
  destruct (QuoteSystem.exists_ _ _ _); [exact Hw|].
  apply QuoteProofs.Synced_saveItems.
Qed.

(** Clicks on buttons of different variants, none of them in the list
    yet: the items appear at the end of the list in the order of the
    clicks. *)
Lemma addItem_sequence (clicks : list (Z * QuoteSystem.Button)) : forall w,
  QuoteProofs.Synced w ->
  NoDup ((itemKey <$> QuoteSystem.items w)
         ++ ((fun click => buttonKey click.2) <$> clicks)) ->
  let w' := foldl (fun w click => QuoteSystem.addItem click.1 click.2 w)
                  w clicks in
  QuoteSystem.items w'
  = QuoteSystem.items w
    ++ ((fun click => QuoteSystem.newItem click.1 click.2) <$> clicks)
  /\ QuoteProofs.Synced w'.
Proof.
  induction clicks as [|[time button] clicks IH]; intros w Hs Hnd; cbv zeta.
  - cbn. rewrite app_nil_r. auto.
  - cbn [foldl fst snd]. rewrite fmap_cons in Hnd. cbn [snd] in Hnd.
    assert (QuoteSystem.items (QuoteSystem.addItem time button w)
            = QuoteSystem.items w ++ [QuoteSystem.newItem time button]) as Hi.
    { rewrite addItem_items.
      destruct (QuoteSystem.exists_ _ _ _) eqn:E; [|reflexivity].
      apply QuoteProofs.exists_true in E. exfalso.
      apply NoDup_app in Hnd as (_ & Hnd & _). apply (Hnd _ E).
      rewrite <- surjective_pairing. apply list_elem_of_here. }
    destruct (IH (QuoteSystem.addItem time button w)) as [H1 H2].
    + now apply addItem_Synced.
    + rewrite Hi, fmap_app, <- app_assoc. exact Hnd.
    + split; [|exact H2]. rewrite H1, Hi, fmap_cons, <- app_assoc.
      reflexivity.
Qed.

(** C6.  Whatever list [saveItems] writes to [localStorage['quoteItems']],
    [loadItems] returns that list, item by item and in the same order.
    An [addItem] on a widget whose storage holds its list leaves the list
    as it was when it has the variant of the button, and otherwise puts
    the new item at its end, and [loadItems] returns the resulting list.
    After any sequence of [addItem] calls on a widget that started from an
    empty storage, [loadItems] returns the widget's list; and for clicks on
    buttons of different variants, none of them in the list the page
    loaded, [loadItems] returns the loaded list followed by the items
    of the clicks, one for each click, in the order of the clicks. *)
Theorem C6_saved_items_load_back :
  (forall w,
   QuoteSystem.loadItems (QuoteSystem.localStorage (QuoteSystem.saveItems w))
   = QuoteSystem.Items (QuoteSystem.items w))
  /\ (forall w time button,
      QuoteSystem.loadItems (QuoteSystem.localStorage w)
      = QuoteSystem.Items (QuoteSystem.items w) ->
      let w' := QuoteSystem.addItem time button w in
      QuoteSystem.loadItems (QuoteSystem.localStorage w')
      = QuoteSystem.Items (QuoteSystem.items w')
      /\ QuoteSystem.items w'
         = (if QuoteSystem.exists_
                 (QuoteSystem.dataset (QuoteSystem.data_productId button))
                 (QuoteSystem.dataset (QuoteSystem.data_variantId button))
                 (QuoteSystem.items w)
            then QuoteSystem.items w
            else QuoteSystem.items w ++ [QuoteSystem.newItem time button]))
  /\ (forall clicks : list (Z * QuoteSystem.Button),
      let w := foldl (fun w click => QuoteSystem.addItem click.1 click.2 w)
                     {| QuoteSystem.items := []; QuoteSystem.isOpen := false;
                        QuoteSystem.localStorage := ∅ |}
                     clicks in
      QuoteSystem.loadItems (QuoteSystem.localStorage w)
      = QuoteSystem.Items (QuoteSystem.items w))
  /\ (forall (storage : gmap jsstring jsstring)
             (loaded : list QuoteSystem.QuoteItem)
             (clicks : list (Z * QuoteSystem.Button)),
      QuoteSystem.loadItems storage = QuoteSystem.Items loaded ->
      NoDup (((fun i => (QuoteSystem.productId i, QuoteSystem.variantId i))
                <$> loaded)
             ++ ((fun click =>
                    (QuoteSystem.dataset (QuoteSystem.data_productId click.2),
                     QuoteSystem.dataset (QuoteSystem.data_variantId click.2)))
                   <$> clicks)) ->
      let w := foldl (fun w click => QuoteSystem.addItem click.1 click.2 w)
                     {| QuoteSystem.items := loaded;
                        QuoteSystem.isOpen := false;
                        QuoteSystem.localStorage := storage |}
                     clicks in
      QuoteSystem.items w
      = loaded ++ ((fun click => QuoteSystem.newItem click.1 click.2) <$> clicks)
      /\ QuoteSystem.loadItems (QuoteSystem.localStorage w)
         = QuoteSystem.Items
             (loaded
              ++ ((fun click => QuoteSystem.newItem click.1 click.2)
                    <$> clicks))).
Proof.
  split; [exact QuoteProofs.Synced_saveItems|].
  split; [intros w time button Hw; split;
          [now apply addItem_Synced|apply addItem_items]|].
  split.
  - intros clicks. cbv zeta.
    assert (QuoteProofs.Synced
              {| QuoteSystem.items := []; QuoteSystem.isOpen := false;
                 QuoteSystem.localStorage := ∅ |}) as H0 by reflexivity.
    revert H0. generalize ({| QuoteSystem.items := [];
                              QuoteSystem.isOpen := false;
                              QuoteSystem.localStorage := ∅ |}).
    induction clicks as [|[time button] clicks IH]; intros w Hw; [exact Hw|].
    cbn [foldl]. apply IH, addItem_Synced, Hw.
  - intros storage loaded clicks Hl Hnd.
    destruct (addItem_sequence clicks
                {| QuoteSystem.items := loaded; QuoteSystem.isOpen := false;
                   QuoteSystem.localStorage := storage |} Hl Hnd)
      as [H1 H2].
    cbv zeta. split; [exact H1|]. cbn [QuoteSystem.items] in H1.
    rewrite <- H1. exact H2.
Qed.

(** C10.  Every operation on the quote list keeps it free of two items
    with the same product and variant: adding an item, removing one,
    converting the cart, and the clearing after a submit.  Hence, over any
    number of page loads that start from an empty storage, each page
    constructs its widget from the storage and ends with a list without
    such duplicates. *)
Theorem C10_no_duplicate_variant :
  (forall w e,
   NoDup ((fun i => (QuoteSystem.productId i, QuoteSystem.variantId i))
            <$> QuoteSystem.items w) ->
   NoDup ((fun i => (QuoteSystem.productId i, QuoteSystem.variantId i))
            <$> QuoteSystem.items (QuoteSystem.step w e)))
  /\ (forall page later,
      exists w, QuoteSystem.visits ∅ page later = Some w
                /\ NoDup ((fun i => (QuoteSystem.productId i,
                                     QuoteSystem.variantId i))
                            <$> QuoteSystem.items w)).
Proof.
  split; [exact QuoteProofs.Unique_step|]. intros page later.
  destruct (QuoteProofs.visits_invariant later ∅ page []
              QuoteProofs.loadItems_empty (NoDup_nil_2 (A:=_))) as (w & Hw & _ & Hu).
  eauto.
Qed.

(** ** Further properties of the two search widgets *)

Lemma filter_all {A} (P : A -> Prop) `{forall x, Decision (P x)} (l : list A) :
  Forall P l -> filter P l = l.
Proof.
  induction 1 as [|x l Hx Hl IH]; [reflexivity|].
  rewrite filter_cons_True by exact Hx. now rewrite IH.
Qed.

(** The request found for a controller is the one request carrying it. *)
Lemma list_find_controller (l : list Request) (r : Request) :
  NoDup (controller <$> l) -> r ∈ l ->
  exists i, list_find (fun r' => controller r' = controller r) l = Some (i, r).
Proof.
  induction l as [|x l IH]; intros Hnd Hr; [inversion Hr|].
  rewrite fmap_cons in Hnd. apply NoDup_cons in Hnd as [Hx Hnd].
  cbn [list_find]. destruct (decide (controller x = controller r)) as [E|Hne].
  - exists O. repeat f_equal. apply elem_of_cons in Hr as [->|Hr]; [reflexivity|].
    exfalso. apply Hx. rewrite E. apply list_elem_of_fmap. eauto.
  - apply elem_of_cons in Hr as [->|Hr]; [contradiction|].
    destruct (IH Hnd Hr) as [i ->]. cbn. eauto.
Qed.

(** X1.  A response that settles a live request is rendered, and cached under
    the query of that request; a later search for the query is answered
    from the cache, without a request.  Both widgets. *)
Theorem response_is_cached_under_its_query
    (es : list SearchModal.Event) (es' : list SearchElement.Event)
    (r r' : Request) (data : SearchData) :
  let w := SearchModal.run es SearchModal.init in
  let v := SearchElement.run es' SearchElement.init in
  r ∈ SearchModal.inflight w -> controller r ∉ SearchModal.aborted w ->
  r' ∈ SearchElement.inflight v -> controller r' ∉ SearchElement.aborted v ->
  (let w1 := SearchModal.settle (controller r) (Response true (Some data)) w in
   SearchModal.cache w1 !! query r = Some data
   /\ SearchModal.resultsContainer w1
      = (if noResults data then SearchModal.NoResults (query r)
         else SearchModal.Listing data (query r))
   /\ SearchModal.effects w1 = SearchModal.effects w
   /\ SearchModal.effects (SearchModal.search (query r) w1)
      = SearchModal.effects w)
  /\
  (let v1 := SearchElement.settle (controller r') (Response true (Some data)) v in
   SearchElement.cachedResults v1 !! query r' = Some data
   /\ SearchElement.results v1
      = (if noResults data
         then SearchElement.NoResults (SearchElement.inputValue v)
         else SearchElement.Listing data None)
   /\ SearchElement.isOpen v1 = true
   /\ SearchElement.effects v1 = SearchElement.effects v
   /\ SearchElement.effects (SearchElement.getSearchResults (query r') v1)
      = SearchElement.effects v).
Proof.
  intros w v Hr Hna Hr' Hna'.
  assert (ModalProofs.Inv w) as Iw
    by apply ModalProofs.Inv_run, ModalProofs.Inv_init.
  assert (ElementProofs.Inv v) as Iv
    by apply ElementProofs.element_Inv_run, ElementProofs.element_Inv_init.
  split.
  - destruct (list_find_controller _ r (ModalProofs.inv_distinct w Iw) Hr)
      as [i Hfind].
    cbv zeta. unfold SearchModal.settle. rewrite Hfind.
    destruct (decide _) as [|_]; [contradiction|].
    unfold SearchModal.search, SearchModal.renderResults, getProperty.
    destruct (noResults data) eqn:E; cbn; rewrite lookup_insert_eq;
      cbn; rewrite ?E; repeat apply conj; reflexivity.
  - destruct (list_find_controller _ r' (ElementProofs.inv_distinct v Iv) Hr')
      as [i Hfind].
    cbv zeta. unfold SearchElement.settle. rewrite Hfind.
    destruct (decide _) as [|_]; [contradiction|].
    unfold SearchElement.getSearchResults, SearchElement.renderSearchResults,
      getProperty.
    destruct (noResults data) eqn:E; cbn; rewrite lookup_insert_eq;
      cbn; rewrite ?E; repeat apply conj; reflexivity.
Qed.

Lemma response_is_cached_under_its_query_witness :
  let w := SearchModal.run
             [SearchModal.Input (lit "ab"); SearchModal.TimerFires]
             SearchModal.init in
  SearchModal.cache
    (SearchModal.settle 0 (Response true (Some dataAb)) w) !! lit "ab"
  = Some dataAb.
Proof.
  exact (proj1 (proj1 (response_is_cached_under_its_query
           [SearchModal.Input (lit "ab"); SearchModal.TimerFires]
           [SearchElement.Input (lit "ab"); SearchElement.TimerFires]
           {| controller := 0; query := lit "ab" |}
           {| controller := 0; query := lit "ab" |} dataAb
           ltac:(vm_compute; constructor)
           ltac:(apply (bool_decide_unpack _); vm_compute; exact I)
           ltac:(vm_compute; constructor)
           ltac:(apply (bool_decide_unpack _); vm_compute; exact I)))).
Defined.

(** X2.  A failing fetch whose signal is not aborted shows the error message
    and leaves the cache, the effects and (in the modal) the selection as
    they were; the element also opens its panel.  Both widgets. *)
Theorem failed_fetch_shows_error
    (es : list SearchModal.Event) (es' : list SearchElement.Event)
    (r r' : Request) (out : Outcome) :
  let w := SearchModal.run es SearchModal.init in
  let v := SearchElement.run es' SearchElement.init in
  failure out = true ->
  r ∈ SearchModal.inflight w -> controller r ∉ SearchModal.aborted w ->
  r' ∈ SearchElement.inflight v -> controller r' ∉ SearchElement.aborted v ->
  (let w1 := SearchModal.settle (controller r) out w in
   SearchModal.resultsContainer w1 = SearchModal.ErrorMessage
   /\ SearchModal.cache w1 = SearchModal.cache w
   /\ SearchModal.selectedIndex w1 = SearchModal.selectedIndex w
   /\ SearchModal.effects w1 = SearchModal.effects w)
  /\
  (let v1 := SearchElement.settle (controller r') out v in
   SearchElement.results v1 = SearchElement.ErrorMessage
   /\ SearchElement.isOpen v1 = true
   /\ SearchElement.cachedResults v1 = SearchElement.cachedResults v
   /\ SearchElement.effects v1 = SearchElement.effects v).
Proof.
  intros w v Hout Hr Hna Hr' Hna'.
  assert (ModalProofs.Inv w) as Iw
    by apply ModalProofs.Inv_run, ModalProofs.Inv_init.
  assert (ElementProofs.Inv v) as Iv
    by apply ElementProofs.element_Inv_run, ElementProofs.element_Inv_init.
  split.
  - destruct (list_find_controller _ r (ModalProofs.inv_distinct w Iw) Hr)
      as [i Hfind].
    cbv zeta. unfold SearchModal.settle. rewrite Hfind.
    destruct (decide _) as [|_]; [contradiction|].
    destruct out as [|[|] [d|]]; try discriminate Hout;
      repeat apply conj; reflexivity.
  - destruct (list_find_controller _ r' (ElementProofs.inv_distinct v Iv) Hr')
      as [i Hfind].
    cbv zeta. unfold SearchElement.settle. rewrite Hfind.
    destruct (decide _) as [|_]; [contradiction|].
    destruct out as [|[|] [d|]]; try discriminate Hout;
      repeat apply conj; reflexivity.
Qed.

Lemma failed_fetch_shows_error_witness :
  let w := SearchModal.run
             [SearchModal.Input (lit "ab"); SearchModal.TimerFires]
             SearchModal.init in
  SearchModal.resultsContainer (SearchModal.settle 0 (Response false None) w)
  = SearchModal.ErrorMessage.
Proof.
  exact (proj1 (proj1 (failed_fetch_shows_error
           [SearchModal.Input (lit "ab"); SearchModal.TimerFires]
           [SearchElement.Input (lit "ab"); SearchElement.TimerFires]
           {| controller := 0; query := lit "ab" |}
           {| controller := 0; query := lit "ab" |} (Response false None)
           eq_refl
           ltac:(vm_compute; constructor)
           ltac:(apply (bool_decide_unpack _); vm_compute; exact I)
           ltac:(vm_compute; constructor)
           ltac:(apply (bool_decide_unpack _); vm_compute; exact I)))).
Defined.

(** X3.  Debouncing in the modal widget: every input replaces the pending
    timer, so after two inputs in a row only the second value is searched
    when the timer fires, and a timer firing again does nothing. *)
Theorem modal_debounce_searches_last_input
    (w : SearchModal.Widget) (first second : jsstring) :
  2 <= jslength (trim second) ->
  let w' := SearchModal.run
              [SearchModal.Input first; SearchModal.Input second;
               SearchModal.TimerFires] w in
  SearchModal.effects w' = SearchModal.effects (SearchModal.search (trim second) w)
  /\ SearchModal.inflight w'
     = SearchModal.inflight (SearchModal.search (trim second) w)
  /\ SearchModal.debounceTimeout w' = None
  /\ SearchModal.step w' SearchModal.TimerFires = w'.
Proof.
  intros Hlen. cbv zeta.
  assert (SearchModal.run
            [SearchModal.Input first; SearchModal.Input second;
             SearchModal.TimerFires] w
          = SearchModal.search (trim second)
              (SearchModal.with_debounceTimeout None
                 (SearchModal.with_debounceTimeout (Some (trim second))
                    (SearchModal.with_resultsContainer SearchModal.Spinner
                       (SearchModal.with_debounceTimeout None
                          (SearchModal.with_inputValue second
                             (SearchModal.handleInput first w))))))) as ->.
  { cbn [SearchModal.run foldl SearchModal.step].
    unfold SearchModal.handleInput at 1.
    destruct (Z.ltb_spec (jslength (trim second)) 2); [lia|]. reflexivity. }
  unfold SearchModal.handleInput.
  destruct (jslength (trim first) <? 2);
    unfold SearchModal.search, SearchModal.step, SearchModal.timerFires;
    cbn [SearchModal.cache SearchModal.with_debounceTimeout
         SearchModal.with_resultsContainer SearchModal.with_inputValue];
    (destruct (getProperty (SearchModal.cache w) (trim second)) as [data|];
     [ unfold SearchModal.renderResults; destruct (noResults data)
     | destruct (wellFormed (trim second)); cbn;
       destruct (SearchModal.abortController w) eqn:Ha ]);
    cbn; rewrite ?Ha; repeat apply conj; reflexivity.
Qed.

Lemma modal_debounce_searches_last_input_witness :
  SearchModal.effects
    (SearchModal.run
       [SearchModal.Input (lit "ba"); SearchModal.Input (lit "bar");
        SearchModal.TimerFires] SearchModal.init)
  = [Fetch 0 (lit "bar")].
Proof.
  rewrite (proj1 (modal_debounce_searches_last_input
                    SearchModal.init (lit "ba") (lit "bar")
                    ltac:(vm_compute; discriminate))).
  vm_compute. reflexivity.
Defined.


(** The [results_count] the modal widget reports for a payload is the
    number of rows it renders for it. *)
Theorem getResultsCount_counts_rendered_rows (data : SearchData) (q : jsstring) :
  SearchModal.getResultsCount data = Z.of_nat (rowCount data)
  /\ (noResults data = false ->
      SearchModal.getResultsCount data
      = Z.of_nat (SearchModal.rows (SearchModal.Listing data q)))
  /\ (noResults data = true -> SearchModal.getResultsCount data = 0).
Proof.
  assert (SearchModal.getResultsCount data = Z.of_nat (rowCount data)) as H.
  { unfold SearchModal.getResultsCount, rowCount, productsOf, articlesOf,
      pagesOf, resourcesOf, jslength.
    destruct (resources_results data) as [res|]; cbn; lia. }
  split; [exact H|]. split; [intros _; exact H|].
  intros He. rewrite H. apply ModalProofs.noResults_rows in He. lia.
Qed.

(** X5.  The element widget clears its loading indicator whenever a request
    settles, whatever the outcome: also when the request had been
    superseded, while the request that superseded it is still in flight.
    A superseded request changes nothing else. *)
Theorem settled_request_clears_loading
    (es : list SearchElement.Event) (r : Request) (out : Outcome) :
  let v := SearchElement.run es SearchElement.init in
  r ∈ SearchElement.inflight v ->
  let v1 := SearchElement.settle (controller r) out v in
  SearchElement.loading v1 = Some false
  /\ SearchElement.live v1
     = filter (fun r' => controller r' ≠ controller r) (SearchElement.live v)
  /\ (controller r ∈ SearchElement.aborted v ->
      SearchElement.live v1 = SearchElement.live v
      /\ SearchElement.results v1 = SearchElement.results v
      /\ SearchElement.isOpen v1 = SearchElement.isOpen v
      /\ SearchElement.cachedResults v1 = SearchElement.cachedResults v
      /\ SearchElement.effects v1 = SearchElement.effects v).
Proof.
  intros v Hr v1.
  assert (ElementProofs.Inv v) as Iv
    by apply ElementProofs.element_Inv_run, ElementProofs.element_Inv_init.
  destruct (list_find_controller _ r (ElementProofs.inv_distinct v Iv) Hr)
    as [i Hfind].
  assert (SearchElement.live v1
          = filter (fun r' => controller r' ≠ controller r)
                   (SearchElement.live v)) as Hlive.
  { subst v1. unfold SearchElement.settle. rewrite Hfind.
    unfold SearchElement.live.
    destruct (decide _) as [|_]; [|destruct out as [|[|] [d|]]];
      cbn; try destruct (negb (noResults d)); cbn;
      rewrite list_filter_filter, list_filter_filter;
      apply list_filter_iff; tauto. }
  split; [|split; [exact Hlive|]].
  - subst v1. unfold SearchElement.settle. rewrite Hfind. reflexivity.
  - intros Hab. rewrite Hlive. split.
    + unfold SearchElement.live. rewrite list_filter_filter.
      apply list_filter_iff. intros r'. split; [tauto|].
      intros Hr'. split; [|exact Hr']. congruence.
    + subst v1. unfold SearchElement.settle. rewrite Hfind.
      destruct (decide _) as [_|]; [|contradiction].
      repeat apply conj; reflexivity.
Qed.

Lemma settled_request_clears_loading_witness :
  let v := SearchElement.run
             [SearchElement.Input (lit "ab"); SearchElement.TimerFires;
              SearchElement.Input (lit "abc"); SearchElement.TimerFires]
             SearchElement.init in
  SearchElement.loading v = Some true
  /\ SearchElement.live v = [{| controller := 1; query := lit "abc" |}]
  /\ SearchElement.loading
       (SearchElement.settle 0 (Response true (Some dataAb)) v)
     = Some false.
Proof.
  split; [vm_compute; reflexivity|]. split; [vm_compute; reflexivity|].
  exact (proj1 (settled_request_clears_loading
           [SearchElement.Input (lit "ab"); SearchElement.TimerFires;
            SearchElement.Input (lit "abc"); SearchElement.TimerFires]
           {| controller := 0; query := lit "ab" |}
           (Response true (Some dataAb))
           ltac:(vm_compute; constructor))).
Defined.

Lemma modal_arrow_down_presses k : forall w,
  SearchModal.rows (SearchModal.resultsContainer w) <> O ->
  SearchModal.selectedIndex w
  <= Z.of_nat (SearchModal.rows (SearchModal.resultsContainer w)) - 1 ->
  let w' := SearchModal.run (replicate k (SearchModal.Keydown ArrowDown)) w in
  SearchModal.resultsContainer w' = SearchModal.resultsContainer w
  /\ SearchModal.selectedIndex w'
     = Z.min (SearchModal.selectedIndex w + Z.of_nat k)
             (Z.of_nat (SearchModal.rows (SearchModal.resultsContainer w)) - 1).
Proof.
  induction k as [|k IH]; intros w Hn Hi; cbv zeta.
  - cbn. split; [reflexivity|lia].
  - cbn [replicate SearchModal.run foldl].
    set (w1 := SearchModal.step w (SearchModal.Keydown ArrowDown)).
    assert (SearchModal.resultsContainer w1 = SearchModal.resultsContainer w
            /\ SearchModal.selectedIndex w1
               = Z.min (SearchModal.selectedIndex w + 1)
                   (Z.of_nat (SearchModal.rows (SearchModal.resultsContainer w))
                    - 1)) as [Hc Hs].
    { subst w1. cbn [SearchModal.step SearchModal.documentKeydown].
      unfold SearchModal.handleKeydown.
      destruct (Nat.eqb_spec
                  (SearchModal.rows (SearchModal.resultsContainer w)) 0);
        [contradiction|]. split; reflexivity. }
    specialize (IH w1). rewrite Hc, Hs in IH.
    destruct (IH Hn ltac:(lia)) as [IH1 IH2].
    change (foldl SearchModal.step w1
              (replicate k (SearchModal.Keydown ArrowDown)))
      with (SearchModal.run (replicate k (SearchModal.Keydown ArrowDown)) w1).
    split; [exact IH1|]. rewrite IH2. lia.
Qed.

Lemma element_arrow_down_presses k : forall v data i,
  SearchElement.results v = SearchElement.Listing data (Some i) ->
  (i < rowCount data)%nat ->
  SearchElement.results
    (SearchElement.run (replicate k (SearchElement.Keydown ArrowDown)) v)
  = SearchElement.Listing data (Some ((i + k) mod rowCount data))%nat.
Proof.
  induction k as [|k IH]; intros v data i Hv Hi.
  - cbn. rewrite Hv, Nat.add_0_r, Nat.mod_small by exact Hi. reflexivity.
  - cbn [replicate SearchElement.run foldl].
    set (v1 := SearchElement.step v (SearchElement.Keydown ArrowDown)).
    assert (SearchElement.results v1
            = SearchElement.Listing data (Some (S i mod rowCount data))%nat)
      as Hv1.
    { subst v1. cbn [SearchElement.step SearchElement.onKeydown].
      unfold SearchElement.navigateResults. rewrite Hv.
      cbn [SearchElement.rows SearchElement.selectionIndex].
      destruct (Z.eqb_spec (Z.of_nat (rowCount data)) 0); [lia|].
      cbn [SearchElement.results SearchElement.with_results].
      do 2 f_equal.
      destruct (Z.ltb_spec (Z.of_nat i) (Z.of_nat (rowCount data) - 1)).
      - rewrite Nat.mod_small by lia. lia.
      - replace (S i) with (rowCount data) by lia.
        rewrite Nat.Div0.mod_same. reflexivity. }
    change (foldl SearchElement.step v1
              (replicate k (SearchElement.Keydown ArrowDown)))
      with (SearchElement.run
              (replicate k (SearchElement.Keydown ArrowDown)) v1).
    rewrite (IH v1 data _ Hv1) by (apply Nat.mod_upper_bound; lia).
    do 2 f_equal. rewrite Nat.Div0.add_mod_idemp_l. f_equal. lia.
Qed.

Lemma element_first_arrow v data :
  SearchElement.results v = SearchElement.Listing data None ->
  rowCount data <> O ->
  SearchElement.results (SearchElement.step v (SearchElement.Keydown ArrowDown))
  = SearchElement.Listing data (Some O)
  /\ SearchElement.results (SearchElement.step v (SearchElement.Keydown ArrowUp))
     = SearchElement.Listing data (Some (rowCount data - 1)%nat).
Proof.
  intros Hv Hn. cbn [SearchElement.step SearchElement.onKeydown].
  unfold SearchElement.navigateResults. rewrite Hv.
  cbn [SearchElement.rows SearchElement.selectionIndex].
  destruct (Z.eqb_spec (Z.of_nat (rowCount data)) 0); [lia|].
  cbn [SearchElement.results SearchElement.with_results]. split.
  - destruct (Z.ltb_spec (-1) (Z.of_nat (rowCount data) - 1)); [|lia].
    reflexivity.
  - change (0 <? -1) with false. cbv iota. do 2 f_equal. lia.
Qed.

(** X6.  Pressing ArrowDown [k] times after a render with [n] rows: the modal
    widget selects row [min (k - 1) (n - 1)] and stays on the last row; the
    element widget selects row [(k - 1) mod n], going round.  One ArrowUp
    after a render leaves the modal without a selection and takes the
    element to its last row. *)
Theorem arrow_presses_after_render
    (w : SearchModal.Widget) (v : SearchElement.Widget)
    (data : SearchData) (q : jsstring) (k : nat) :
  noResults data = false ->
  let n := rowCount data in
  SearchModal.selectedIndex
    (SearchModal.run (replicate k (SearchModal.Keydown ArrowDown))
       (SearchModal.renderResults data q w))
  = Z.min (Z.of_nat k - 1) (Z.of_nat n - 1)
  /\ SearchElement.results
       (SearchElement.run (replicate (S k) (SearchElement.Keydown ArrowDown))
          (SearchElement.renderSearchResults data v))
     = SearchElement.Listing data (Some (k mod n)%nat)
  /\ SearchModal.selectedIndex
       (SearchModal.step (SearchModal.renderResults data q w)
          (SearchModal.Keydown ArrowUp)) = -1
  /\ SearchElement.results
       (SearchElement.step (SearchElement.renderSearchResults data v)
          (SearchElement.Keydown ArrowUp))
     = SearchElement.Listing data (Some (n - 1)%nat).
Proof.
  intros He n. pose proof (ModalProofs.rows_pos_noResults data He) as Hn.
  fold n in Hn. repeat apply conj.
  - pose proof (modal_arrow_down_presses k
                  (SearchModal.renderResults data q w)) as H.
    unfold SearchModal.renderResults in *. rewrite He in *.
    cbn [SearchModal.resultsContainer SearchModal.selectedIndex
         SearchModal.with_selectedIndex SearchModal.with_resultsContainer
         SearchModal.rows] in H.
    fold n in H. destruct (H Hn ltac:(lia)) as [_ ->]. lia.
  - cbn [replicate SearchElement.run foldl].
    change (foldl SearchElement.step ?a ?l) with (SearchElement.run l a).
    rewrite (element_arrow_down_presses k _ data O).
    + reflexivity.
    + apply element_first_arrow; [|exact Hn].
      unfold SearchElement.renderSearchResults. rewrite He. reflexivity.
    + fold n. lia.
  - unfold SearchModal.renderResults. rewrite He.
    cbn [SearchModal.step SearchModal.documentKeydown].
    unfold SearchModal.handleKeydown.
    cbn [SearchModal.resultsContainer SearchModal.with_selectedIndex
         SearchModal.with_resultsContainer SearchModal.rows].
    destruct (Nat.eqb_spec (rowCount data) 0); [contradiction|]. reflexivity.
  - apply element_first_arrow; [|exact Hn].
    unfold SearchElement.renderSearchResults. rewrite He. reflexivity.
Qed.

Lemma arrow_presses_after_render_witness :
  SearchModal.selectedIndex
    (SearchModal.run (replicate 5 (SearchModal.Keydown ArrowDown))
       (SearchModal.renderResults dataThree (lit "ab") SearchModal.init))
  = 2
  /\ SearchElement.results
       (SearchElement.run (replicate 5 (SearchElement.Keydown ArrowDown))
          (SearchElement.renderSearchResults dataThree SearchElement.init))
     = SearchElement.Listing dataThree (Some 1%nat).
Proof.
  pose proof (arrow_presses_after_render SearchModal.init SearchElement.init
                dataThree (lit "ab")) as H.
  split.
  - exact (proj1 (H 5%nat ltac:(vm_compute; reflexivity))).
  - exact (proj1 (proj2 (H 4%nat ltac:(vm_compute; reflexivity)))).
Defined.

Lemma isRegexSpecial_backslash : SearchModal.isRegexSpecial 92 = true.
Proof. vm_compute. reflexivity. Qed.

(** X7.  [escapeRegex] puts a backslash before each of the fourteen characters
    of its class and before nothing else, so the pattern it returns is a
    plain sequence of characters that matches the string it was given; a
    string without such characters is returned as it is. *)
Theorem escapeRegex_matches_its_argument (s : jsstring) :
  SearchModal.literalOf (SearchModal.escapeRegex s) = Some s
  /\ Z.of_nat (length (SearchModal.escapeRegex s))
     = Z.of_nat (length s)
       + Z.of_nat (length (filter (fun c => SearchModal.isRegexSpecial c = true) s))
  /\ ((forall c, c ∈ s -> SearchModal.isRegexSpecial c = false) ->
      SearchModal.escapeRegex s = s).
Proof.
  unfold SearchModal.escapeRegex. repeat apply conj.
  - induction s as [|c s IH]; [reflexivity|].
    rewrite fmap_cons. cbn [concat].
    destruct (SearchModal.isRegexSpecial c) eqn:E.
    + cbn [app SearchModal.literalOf]. rewrite bool_decide_true by reflexivity.
      rewrite E, IH. reflexivity.
    + cbn [app SearchModal.literalOf].
      destruct (bool_decide (c = 92%N)) eqn:Eb.
      * apply bool_decide_eq_true in Eb. subst c.
        rewrite isRegexSpecial_backslash in E. discriminate.
      * rewrite E, IH. reflexivity.
  - induction s as [|c s IH]; [reflexivity|].
    rewrite fmap_cons. cbn [concat]. rewrite length_app, filter_cons.
    destruct (SearchModal.isRegexSpecial c) eqn:E.
    + rewrite decide_True by reflexivity. cbn [length] in *. lia.
    + rewrite decide_False by discriminate. cbn [length] in *. lia.
  - induction s as [|c s IH]; intros H; [reflexivity|].
    rewrite fmap_cons. cbn [concat].
    rewrite (H c) by apply list_elem_of_here. cbn [app]. f_equal.
    apply IH. intros d Hd. apply H. now apply list_elem_of_further.
Qed.

(** Escape pressed in the field closes the panel.  Pressed while another
    descendant has the focus, a result link for one, it closes the panel
    and moves the focus to the field, whose [focus] handler renders the
    cached payload of the field's value again. *)
Lemma escape_returns_the_focus_to_the_field :
  (forall v, SearchElement.step v (SearchElement.Keydown Escape)
             = SearchElement.close v)
  /\ (forall v, SearchElement.step v (SearchElement.KeydownOutsideField Escape)
                = SearchElement.onFocus (SearchElement.close v))
  /\ let v := SearchElement.run
                [SearchElement.Input (lit "ab"); SearchElement.TimerFires;
                 SearchElement.Settle 0 (Response true (Some dataAb))]
                SearchElement.init in
     let inField := SearchElement.step v (SearchElement.Keydown Escape) in
     let onLink :=
       SearchElement.step v (SearchElement.KeydownOutsideField Escape) in
     SearchElement.results inField = SearchElement.Blank
     /\ SearchElement.isOpen inField = false
     /\ SearchElement.results onLink = SearchElement.Listing dataAb None
     /\ SearchElement.isOpen onLink = true
     /\ SearchElement.effects onLink = SearchElement.effects v.
Proof.
  split; [reflexivity|]. split; [reflexivity|]. evaluate.
Qed.
(** ** Further properties of the quote list *)

Lemma exists_elem p v l :
  (p, v) ∈ (fun i => (QuoteSystem.productId i, QuoteSystem.variantId i)) <$> l ->
  QuoteSystem.exists_ p v l = true.
Proof.
  intros H. destruct (QuoteSystem.exists_ p v l) eqn:E; [reflexivity|].
  now apply QuoteProofs.exists_false in E.
Qed.

Lemma exists_app p v l l' :
  QuoteSystem.exists_ p v l = true -> QuoteSystem.exists_ p v (l ++ l') = true.
Proof.
  intros H. apply exists_elem. rewrite fmap_app. apply elem_of_app. left.
  now apply QuoteProofs.exists_true.
Qed.

Lemma exists_last i l :
  QuoteSystem.exists_ (QuoteSystem.productId i) (QuoteSystem.variantId i)
    (l ++ [i]) = true.
Proof.
  apply exists_elem. rewrite fmap_app. apply elem_of_app. right.
  apply list_elem_of_here.
Qed.

Lemma saveItems_saveItems w :
  QuoteSystem.saveItems (QuoteSystem.saveItems w) = QuoteSystem.saveItems w.
Proof.
  unfold QuoteSystem.saveItems. cbn. f_equal. apply insert_insert_eq.
Qed.

Lemma addItem_known time button w :
  QuoteSystem.exists_ (QuoteSystem.dataset (QuoteSystem.data_productId button))
    (QuoteSystem.dataset (QuoteSystem.data_variantId button))
    (QuoteSystem.items w) = true ->
  QuoteSystem.addItem time button w = w.
Proof.
  intros E. unfold QuoteSystem.addItem, QuoteSystem.newItem.
  cbn [QuoteSystem.productId QuoteSystem.variantId]. now rewrite E.
Qed.

(** X8.  A second click on the same quote button adds nothing, whenever it
    comes: the list and the storage stay as the first click left them. *)
Theorem second_click_adds_nothing
    (w : QuoteSystem.Widget) (first second : Z) (button : QuoteSystem.Button) :
  QuoteSystem.addItem second button (QuoteSystem.addItem first button w)
  = QuoteSystem.addItem first button w
  /\ QuoteSystem.step
       (QuoteSystem.step w (QuoteSystem.ClickQuoteButton first button))
       (QuoteSystem.ClickQuoteButton second button)
     = QuoteSystem.step w (QuoteSystem.ClickQuoteButton first button).
Proof.
  assert (QuoteSystem.addItem second button (QuoteSystem.addItem first button w)
          = QuoteSystem.addItem first button w) as H.
  { apply addItem_known. unfold QuoteSystem.addItem, QuoteSystem.newItem.
    cbn [QuoteSystem.productId QuoteSystem.variantId].
    destruct (QuoteSystem.exists_ _ _ (QuoteSystem.items w)) eqn:E; [exact E|].
    cbn [QuoteSystem.items QuoteSystem.saveItems QuoteSystem.with_items].
    match goal with
    | |- QuoteSystem.exists_ ?p ?v (?l ++ [?i]) = true =>
      exact (exists_last i l)
    end. }
  split; [exact H|]. cbn [QuoteSystem.step].
  unfold QuoteSystem.open at 1 3.
  assert (forall t b x, QuoteSystem.addItem t b (QuoteSystem.with_isOpen true x)
                        = QuoteSystem.with_isOpen true (QuoteSystem.addItem t b x))
    as Hc.
  { intros t b x. unfold QuoteSystem.addItem, QuoteSystem.newItem. cbn.
    destruct (QuoteSystem.exists_ _ _ _); reflexivity. }
  unfold QuoteSystem.open. rewrite Hc, H. reflexivity.
Qed.

(** [removeItem] drops exactly the items with the given id, keeps the
    others in their order, and writes the new list to the storage. *)
Theorem removeItem_removes_exactly_that_id
    (w : QuoteSystem.Widget) (itemId : jsstring) :
  let w' := QuoteSystem.removeItem itemId w in
  (itemId ∉ (QuoteSystem.id <$> QuoteSystem.items w'))
  /\ (forall i, i ∈ QuoteSystem.items w'
                <-> i ∈ QuoteSystem.items w /\ QuoteSystem.id i <> itemId)
  /\ QuoteSystem.items w' `sublist_of` QuoteSystem.items w
  /\ (itemId ∉ (QuoteSystem.id <$> QuoteSystem.items w) ->
      QuoteSystem.items w' = QuoteSystem.items w)
  /\ QuoteSystem.loadItems (QuoteSystem.localStorage w')
     = QuoteSystem.Items (QuoteSystem.items w').
Proof.
  cbv zeta. unfold QuoteSystem.removeItem.
  cbn [QuoteSystem.items QuoteSystem.saveItems QuoteSystem.with_items].
  repeat apply conj.
  - intros H. apply list_elem_of_fmap in H as (i & Hi & Hin).
    apply list_elem_of_filter in Hin as [Hne _]. congruence.
  - intros i. rewrite list_elem_of_filter. tauto.
  - apply sublist_filter.
  - intros H. apply filter_all. apply Forall_forall. intros i Hi E.
    apply H. apply list_elem_of_fmap. eauto.
  - apply QuoteProofs.Synced_saveItems.
Qed.

(** X9.  Adding an item and removing it again gives back the list, when the
    variant was not in the list and no item had the id of the new one. *)
Theorem add_then_remove_restores
    (w : QuoteSystem.Widget) (time : Z) (button : QuoteSystem.Button) :
  QuoteSystem.exists_ (QuoteSystem.dataset (QuoteSystem.data_productId button))
    (QuoteSystem.dataset (QuoteSystem.data_variantId button))
    (QuoteSystem.items w) = false ->
  JSON.decimal time ∉ (QuoteSystem.id <$> QuoteSystem.items w) ->
  let w1 := QuoteSystem.addItem time button w in
  let w2 := QuoteSystem.removeItem (JSON.decimal time) w1 in
  length (QuoteSystem.items w1) = S (length (QuoteSystem.items w))
  /\ QuoteSystem.items w2 = QuoteSystem.items w
  /\ QuoteSystem.loadItems (QuoteSystem.localStorage w2)
     = QuoteSystem.Items (QuoteSystem.items w).
Proof.
  intros He Hid. cbv zeta.
  assert (QuoteSystem.items
            (QuoteSystem.removeItem (JSON.decimal time)
               (QuoteSystem.addItem time button w))
          = QuoteSystem.items w) as H.
  { unfold QuoteSystem.removeItem, QuoteSystem.addItem, QuoteSystem.newItem.
    cbn [QuoteSystem.productId QuoteSystem.variantId]. rewrite He.
    cbn [QuoteSystem.items QuoteSystem.saveItems QuoteSystem.with_items].
    rewrite filter_app, filter_cons, decide_False, filter_nil, app_nil_r
      by (cbn; tauto).
    apply filter_all. apply Forall_forall. intros i Hi E.
    apply Hid. apply list_elem_of_fmap. eauto. }
  repeat apply conj.
  - unfold QuoteSystem.addItem, QuoteSystem.newItem.
    cbn [QuoteSystem.productId QuoteSystem.variantId]. rewrite He.
    cbn [QuoteSystem.items QuoteSystem.saveItems QuoteSystem.with_items].
    rewrite length_app. cbn. lia.
  - exact H.
  - rewrite <- H. apply QuoteProofs.Synced_saveItems.
Qed.

Lemma add_then_remove_restores_witness :
  let w := QuoteSystem.addItem 1700000000000
             (QuoteSystem.sampleButton "11" "21")
             {| QuoteSystem.items := []; QuoteSystem.isOpen := false;
                QuoteSystem.localStorage := ∅ |} in
  QuoteSystem.items
    (QuoteSystem.removeItem (JSON.decimal 1700000000001)
       (QuoteSystem.addItem 1700000000001
          (QuoteSystem.sampleButton "12" "22") w))
  = QuoteSystem.items w.
Proof.
  exact (proj1 (proj2 (add_then_remove_restores
           (QuoteSystem.addItem 1700000000000
              (QuoteSystem.sampleButton "11" "21")
              {| QuoteSystem.items := []; QuoteSystem.isOpen := false;
                 QuoteSystem.localStorage := ∅ |})
           1700000000001 (QuoteSystem.sampleButton "12" "22")
           ltac:(vm_compute; reflexivity)
           ltac:(apply (bool_decide_unpack _); vm_compute; exact I)))).
Defined.

(** X10.  The id of an item is the time of the click, so two different
    variants added in the same millisecond share their id, and removing
    either of them removes both. *)
Theorem same_millisecond_items_share_their_id
    (w : QuoteSystem.Widget) (time : Z) (one other : QuoteSystem.Button) :
  let key b := (QuoteSystem.dataset (QuoteSystem.data_productId b),
                QuoteSystem.dataset (QuoteSystem.data_variantId b)) in
  key one ∉ (fun i => (QuoteSystem.productId i, QuoteSystem.variantId i))
            <$> QuoteSystem.items w ->
  key other ∉ (fun i => (QuoteSystem.productId i, QuoteSystem.variantId i))
              <$> QuoteSystem.items w ->
  key one <> key other ->
  let w2 := QuoteSystem.addItem time other (QuoteSystem.addItem time one w) in
  length (QuoteSystem.items w2) = S (S (length (QuoteSystem.items w)))
  /\ QuoteSystem.items (QuoteSystem.removeItem (JSON.decimal time) w2)
     = QuoteSystem.items (QuoteSystem.removeItem (JSON.decimal time) w).
Proof.
  intros key H1 H2 Hne. cbv zeta.
  assert (QuoteSystem.exists_ (key one).1 (key one).2 (QuoteSystem.items w)
          = false) as E1.
  { destruct (QuoteSystem.exists_ _ _ _) eqn:E; [|reflexivity].
    apply QuoteProofs.exists_true in E. contradiction. }
  unfold QuoteSystem.addItem at 2 4. unfold QuoteSystem.newItem.
  cbn [QuoteSystem.productId QuoteSystem.variantId]. cbn in E1. rewrite E1.
  unfold QuoteSystem.addItem, QuoteSystem.newItem.
  cbn [QuoteSystem.productId QuoteSystem.variantId QuoteSystem.items
       QuoteSystem.saveItems QuoteSystem.with_items].
  match goal with
  | |- context [QuoteSystem.exists_ ?p ?v (?l ++ [?i])] =>
    assert (QuoteSystem.exists_ p v (l ++ [i]) = false) as E2
  end.
  { match goal with
    | |- ?e = false => destruct e eqn:E; [|reflexivity]
    end.
    apply QuoteProofs.exists_true in E. rewrite fmap_app in E.
    apply elem_of_app in E as [E|E]; [contradiction|].
    cbn in E. apply list_elem_of_singleton in E. subst key. cbn in Hne.
    congruence. }
  rewrite E2.
  cbn [QuoteSystem.items QuoteSystem.saveItems QuoteSystem.with_items
       QuoteSystem.removeItem].
  split.
  - rewrite !length_app. cbn. lia.
  - unfold QuoteSystem.removeItem.
    cbn [QuoteSystem.items QuoteSystem.saveItems QuoteSystem.with_items].
    rewrite !filter_app, !filter_cons, !filter_nil.
    rewrite !decide_False by (cbn; tauto). now rewrite !app_nil_r.
Qed.

Lemma same_millisecond_items_share_their_id_witness :
  QuoteSystem.items
    (QuoteSystem.removeItem (JSON.decimal 1700000000000)
       (QuoteSystem.addItem 1700000000000 (QuoteSystem.sampleButton "12" "22")
          (QuoteSystem.addItem 1700000000000
             (QuoteSystem.sampleButton "11" "21")
             {| QuoteSystem.items := []; QuoteSystem.isOpen := false;
                QuoteSystem.localStorage := ∅ |})))
  = [].
Proof.
  rewrite (proj2 (same_millisecond_items_share_their_id
             {| QuoteSystem.items := []; QuoteSystem.isOpen := false;
                QuoteSystem.localStorage := ∅ |}
             1700000000000 (QuoteSystem.sampleButton "11" "21")
             (QuoteSystem.sampleButton "12" "22")
             ltac:(apply (bool_decide_unpack _); vm_compute; exact I)
             ltac:(apply (bool_decide_unpack _); vm_compute; exact I)
             ltac:(apply (bool_decide_unpack _); vm_compute; exact I))).
  reflexivity.
Defined.

Lemma addLine_prefix l line : l `prefix_of` QuoteSystem.addLine l line.
Proof.
  unfold QuoteSystem.addLine. destruct (QuoteSystem.exists_ _ _ _);
    [reflexivity|apply prefix_app_r; reflexivity].
Qed.

Lemma foldl_addLine_prefix lines : forall l,
  l `prefix_of` foldl QuoteSystem.addLine l lines.
Proof.
  induction lines as [|line lines IH]; intros l; [reflexivity|].
  cbn [foldl]. etransitivity; [apply addLine_prefix|apply IH].
Qed.

Lemma addLine_has_line l line : lineKey line ∈ itemKey <$> QuoteSystem.addLine l line.
Proof.
  unfold QuoteSystem.addLine.
  destruct (QuoteSystem.exists_ _ _ _) eqn:E.
  - now apply QuoteProofs.exists_true in E.
  - rewrite fmap_app. apply elem_of_app. right. apply list_elem_of_here.
Qed.

Lemma foldl_addLine_has_lines lines : forall l line,
  line ∈ lines -> lineKey line ∈ itemKey <$> foldl QuoteSystem.addLine l lines.
Proof.
  induction lines as [|x lines IH]; intros l line Hin; [inversion Hin|].
  cbn [foldl]. apply elem_of_cons in Hin as [->|Hin]; [|now apply IH].
  destruct (foldl_addLine_prefix lines (QuoteSystem.addLine l x)) as [k ->].
  rewrite fmap_app. apply elem_of_app. left. apply addLine_has_line.
Qed.

Lemma foldl_addLine_from_lines lines : forall l i,
  i ∈ foldl QuoteSystem.addLine l lines ->
  i ∈ l \/ exists line, line ∈ lines /\ itemKey i = lineKey line
                        /\ QuoteSystem.quantity i
                           = Some (QuoteSystem.line_quantity line).
Proof.
  induction lines as [|x lines IH]; intros l i Hi; [now left|].
  cbn [foldl] in Hi. apply IH in Hi as [Hi|(line & Hl & Hk)].
  - unfold QuoteSystem.addLine in Hi.
    destruct (QuoteSystem.exists_ _ _ _); [now left|].
    apply elem_of_app in Hi as [Hi|Hi]; [now left|].
    apply list_elem_of_singleton in Hi. subst i. right. exists x.
    split; [apply list_elem_of_here|]. split; reflexivity.
  - right. exists line. split; [now apply list_elem_of_further|exact Hk].
Qed.

Lemma foldl_addLine_known lines : forall l,
  (forall line, line ∈ lines -> lineKey line ∈ itemKey <$> l) ->
  foldl QuoteSystem.addLine l lines = l.
Proof.
  induction lines as [|x lines IH]; intros l H; [reflexivity|].
  cbn [foldl]. unfold QuoteSystem.addLine at 2.
  rewrite (exists_elem _ _ l) by apply (H x), list_elem_of_here.
  apply IH. intros line Hl. apply H. now apply list_elem_of_further.
Qed.

(** X11.  Converting the cart keeps the items the list had, unchanged and in
    front; afterwards every line of the cart has its variant in the list,
    every item is an old one or carries the variant and quantity of a cart
    line, the list is in the storage and the modal is open.  A cart that
    could not be fetched changes nothing. *)
Theorem convertCartToQuote_adds_missing_lines
    (w : QuoteSystem.Widget) (lines : list QuoteSystem.CartLine) :
  let w' := QuoteSystem.convertCartToQuote (Some lines) w in
  QuoteSystem.items w `prefix_of` QuoteSystem.items w'
  /\ (forall line, line ∈ lines ->
      QuoteSystem.exists_
        (QuoteSystem.Text (JSON.decimal (QuoteSystem.product_id line)))
        (QuoteSystem.Text (JSON.decimal (QuoteSystem.variant_id line)))
        (QuoteSystem.items w') = true)
  /\ (forall i, i ∈ QuoteSystem.items w' ->
      i ∈ QuoteSystem.items w
      \/ exists line, line ∈ lines
         /\ QuoteSystem.productId i
            = QuoteSystem.Text (JSON.decimal (QuoteSystem.product_id line))
         /\ QuoteSystem.variantId i
            = QuoteSystem.Text (JSON.decimal (QuoteSystem.variant_id line))
         /\ QuoteSystem.quantity i = Some (QuoteSystem.line_quantity line))
  /\ QuoteSystem.loadItems (QuoteSystem.localStorage w')
     = QuoteSystem.Items (QuoteSystem.items w')
  /\ QuoteSystem.isOpen w' = true
  /\ QuoteSystem.convertCartToQuote None w = w.
Proof.
  cbv zeta. unfold QuoteSystem.convertCartToQuote, QuoteSystem.open.
  cbn [QuoteSystem.items QuoteSystem.saveItems QuoteSystem.with_items
       QuoteSystem.with_isOpen QuoteSystem.isOpen QuoteSystem.localStorage].
  repeat apply conj.
  - apply foldl_addLine_prefix.
  - intros line Hl. apply exists_elem.
    apply (foldl_addLine_has_lines lines _ line Hl).
  - intros i Hi. apply foldl_addLine_from_lines in Hi as [Hi|(line & Hl & Hk & Hq)];
      [now left|]. right. exists line. unfold itemKey, lineKey in Hk.
    injection Hk as Hp Hv. auto.
  - apply QuoteProofs.loadItems_stringify.
  - reflexivity.
  - reflexivity.
Qed.

(** X12.  Converting a cart a second time adds nothing when its lines have the
    products and variants of the first conversion, whatever their other
    fields are by then. *)
Theorem converting_the_cart_again_adds_nothing
    (w : QuoteSystem.Widget) (lines again : list QuoteSystem.CartLine) :
  (fun line => (QuoteSystem.product_id line, QuoteSystem.variant_id line))
    <$> again
  = (fun line => (QuoteSystem.product_id line, QuoteSystem.variant_id line))
      <$> lines ->
  let w' := QuoteSystem.convertCartToQuote (Some lines) w in
  QuoteSystem.convertCartToQuote (Some again) w' = w'.
Proof.
  intros Hk. cbv zeta. unfold QuoteSystem.convertCartToQuote, QuoteSystem.open.
  cbn [QuoteSystem.items QuoteSystem.saveItems QuoteSystem.with_items
       QuoteSystem.with_isOpen QuoteSystem.isOpen QuoteSystem.localStorage].
  rewrite foldl_addLine_known.
  - unfold QuoteSystem.saveItems, QuoteSystem.with_items,
      QuoteSystem.with_isOpen. cbn. f_equal. apply insert_insert_eq.
  - intros line Hl.
    assert ((QuoteSystem.product_id line, QuoteSystem.variant_id line)
            ∈ (fun line => (QuoteSystem.product_id line,
                            QuoteSystem.variant_id line)) <$> again) as Hin
      by (apply list_elem_of_fmap; eauto).
    rewrite Hk in Hin. apply list_elem_of_fmap in Hin as (line' & E & Hl').
    injection E as Ep Ev.
    pose proof (foldl_addLine_has_lines lines (QuoteSystem.items w) line' Hl')
      as H.
    unfold lineKey in *. now rewrite Ep, Ev.
Qed.

Lemma converting_the_cart_again_adds_nothing_witness :
  let w := {| QuoteSystem.items := []; QuoteSystem.isOpen := false;
              QuoteSystem.localStorage := ∅ |} in
  let w' := QuoteSystem.convertCartToQuote
              (Some [sampleLine 1700000000000 11 21 1;
                     sampleLine 1700000000000 12 22 4]) w in
  QuoteSystem.convertCartToQuote
    (Some [sampleLine 1700000005000 11 21 3;
           sampleLine 1700000005000 12 22 4]) w' = w'.
Proof.
  exact (converting_the_cart_again_adds_nothing
           {| QuoteSystem.items := []; QuoteSystem.isOpen := false;
              QuoteSystem.localStorage := ∅ |}
           [sampleLine 1700000000000 11 21 1; sampleLine 1700000000000 12 22 4]
           [sampleLine 1700000005000 11 21 3; sampleLine 1700000005000 12 22 4]
           ltac:(vm_compute; reflexivity)).
Defined.

(** X13.  The list survives a reload: whatever was done on a page, the next
    page constructs its widget with the list the page ended with, the
    modal closed. *)
Theorem reload_restores_the_list
    (storage : gmap jsstring jsstring) (w : QuoteSystem.Widget)
    (es : list QuoteSystem.Event) :
  QuoteSystem.construct storage = Some w ->
  QuoteSystem.construct (QuoteSystem.localStorage (QuoteSystem.run es w))
  = Some (QuoteSystem.close (QuoteSystem.run es w)).
Proof.
  intros Hc. assert (QuoteProofs.Synced w) as Hs.
  { unfold QuoteSystem.construct in Hc. unfold QuoteProofs.Synced.
    destruct (QuoteSystem.loadItems storage) as [l|] eqn:E; [|discriminate].
    injection Hc as <-. exact E. }
  assert (QuoteProofs.Synced (QuoteSystem.run es w)) as Hs'.
  { clear Hc. revert w Hs. unfold QuoteSystem.run.
    induction es as [|e es IH]; intros w Hs; [exact Hs|].
    cbn [foldl]. apply IH. now apply QuoteProofs.Synced_step. }
  apply QuoteProofs.construct_loaded. exact Hs'.
Qed.

Lemma reload_restores_the_list_witness :
  let w := {| QuoteSystem.items := []; QuoteSystem.isOpen := false;
              QuoteSystem.localStorage := ∅ |} in
  let es := [QuoteSystem.ClickQuoteButton 1700000000000
               (QuoteSystem.sampleButton "11" "21");
             QuoteSystem.CartAnswered (Some [sampleLine 1700000005000 12 22 4]);
             QuoteSystem.ClickRemove (lit "1700000000000")] in
  QuoteSystem.construct (QuoteSystem.localStorage (QuoteSystem.run es w))
  = Some (QuoteSystem.close (QuoteSystem.run es w)).
Proof.
  exact (reload_restores_the_list ∅
           {| QuoteSystem.items := []; QuoteSystem.isOpen := false;
              QuoteSystem.localStorage := ∅ |}
           [QuoteSystem.ClickQuoteButton 1700000000000
              (QuoteSystem.sampleButton "11" "21");
            QuoteSystem.CartAnswered (Some [sampleLine 1700000005000 12 22 4]);
            QuoteSystem.ClickRemove (lit "1700000000000")]
           (QuoteProofs.construct_loaded ∅ [] QuoteProofs.loadItems_empty)).
Defined.

(** X14.  A storage entry that is not JSON, or is JSON for a falsy value, gives
    an empty list; the first item added then replaces the entry, and the
    next page loads that one item. *)
Theorem unreadable_storage_starts_empty
    (storage : gmap jsstring jsstring) (text : jsstring)
    (time : Z) (button : QuoteSystem.Button) :
  match JSON.parse text with
  | Some v => JSON.truthy v = false
  | None => True
  end ->
  let broken := <[QuoteSystem.storageKey := text]> storage in
  QuoteSystem.loadItems broken = QuoteSystem.Items []
  /\ exists w item,
       QuoteSystem.construct broken = Some w
       /\ QuoteSystem.items w = []
       /\ QuoteSystem.items (QuoteSystem.addItem time button w) = [item]
       /\ QuoteSystem.loadItems
            (QuoteSystem.localStorage (QuoteSystem.addItem time button w))
          = QuoteSystem.Items [item].
Proof.
  intros Hp. cbv zeta.
  assert (QuoteSystem.loadItems (<[QuoteSystem.storageKey := text]> storage)
          = QuoteSystem.Items []) as Hl.
  { unfold QuoteSystem.loadItems. rewrite lookup_insert_eq.
    destruct (JSON.parse text) as [v|]; [|reflexivity]. now rewrite Hp. }
  split; [exact Hl|]. unfold QuoteSystem.construct. rewrite Hl.
  eexists _, _. split; [reflexivity|]. split; [reflexivity|].
  unfold QuoteSystem.addItem, QuoteSystem.newItem. cbn [QuoteSystem.items].
  change (QuoteSystem.exists_ _ _ []) with false. cbv iota.
  split; [reflexivity|]. apply QuoteProofs.Synced_saveItems.
Qed.

Lemma unreadable_storage_starts_empty_witness :
  QuoteSystem.loadItems (<[QuoteSystem.storageKey := lit "{oops"]> ∅)
  = QuoteSystem.Items []
  /\ QuoteSystem.loadItems (<[QuoteSystem.storageKey := lit "null"]> ∅)
     = QuoteSystem.Items []
  /\ QuoteSystem.loadItems (<[QuoteSystem.storageKey := lit "0.0"]> ∅)
     = QuoteSystem.Items []
  /\ QuoteSystem.loadItems (<[QuoteSystem.storageKey := lit "1e-400"]> ∅)
     = QuoteSystem.Items [].
Proof.
  repeat apply conj.
  - exact (proj1 (unreadable_storage_starts_empty ∅ (lit "{oops") 0
                    (QuoteSystem.sampleButton "11" "21")
                    ltac:(vm_compute; exact I))).
  - exact (proj1 (unreadable_storage_starts_empty ∅ (lit "null") 0
                    (QuoteSystem.sampleButton "11" "21")
                    ltac:(vm_compute; reflexivity))).
  - exact (proj1 (unreadable_storage_starts_empty ∅ (lit "0.0") 0
                    (QuoteSystem.sampleButton "11" "21")
                    ltac:(vm_compute; reflexivity))).
  - exact (proj1 (unreadable_storage_starts_empty ∅ (lit "1e-400") 0
                    (QuoteSystem.sampleButton "11" "21")
                    ltac:(vm_compute; reflexivity))).
Defined.
(** ** Further properties of the product quiz *)

Lemma insert_filter_score (s : Z) x l :
  filter (fun r => ProductQuiz.score r = s) (ProductQuiz.insert x l)
  = filter (fun r => ProductQuiz.score r = s) (x :: l).
Proof.
  induction l as [|y l IH]; [reflexivity|]. cbn [ProductQuiz.insert].
  destruct (Z.ltb_spec (ProductQuiz.score x) (ProductQuiz.score y)) as [Hlt|];
    [|reflexivity].
  rewrite (filter_cons _ y), IH, !filter_cons.
  repeat destruct (decide _); try reflexivity; lia.
Qed.

Lemma sortByScore_stable (s : Z) l :
  filter (fun r => ProductQuiz.score r = s) (ProductQuiz.sortByScore l)
  = filter (fun r => ProductQuiz.score r = s) l.
Proof.
  induction l as [|x l IH]; [reflexivity|].
  change (ProductQuiz.sortByScore (x :: l))
    with (ProductQuiz.insert x (ProductQuiz.sortByScore l)).
  rewrite insert_filter_score, !filter_cons, IH. reflexivity.
Qed.

Lemma sortByScore_constant (c : Z) l :
  Forall (fun r => ProductQuiz.score r = c) l -> ProductQuiz.sortByScore l = l.
Proof.
  induction 1 as [|x l Hx Hl IH]; [reflexivity|].
  change (ProductQuiz.sortByScore (x :: l))
    with (ProductQuiz.insert x (ProductQuiz.sortByScore l)).
  rewrite IH. destruct Hl as [|y l Hy Hl]; [reflexivity|].
  cbn [ProductQuiz.insert].
  destruct (Z.ltb_spec (ProductQuiz.score x) (ProductQuiz.score y));
    [lia|reflexivity].
Qed.

Lemma slice0_take {A} (k : Z) (l : list A) :
  exists n, ProductQuiz.slice0 k l = take n l.
Proof. unfold ProductQuiz.slice0. eauto. Qed.

Lemma filter_take_prefix {A} (P : A -> Prop) `{forall x, Decision (P x)}
    (n : nat) (l : list A) :
  filter P (take n l) `prefix_of` filter P l.
Proof.
  rewrite <- (take_drop n l) at 2. rewrite filter_app. now apply prefix_app_r.
Qed.

Lemma scored_filter_score answers (s : Z) products :
  ProductQuiz.product
    <$> filter (fun r => ProductQuiz.score r = s)
               (ProductQuiz.scored answers products)
  = filter (fun p => ProductQuiz.scoreOf answers p = s) products.
Proof.
  unfold ProductQuiz.scored. induction products as [|p l IH]; [reflexivity|].
  rewrite fmap_cons, !filter_cons. cbn [ProductQuiz.score].
  destruct (decide _); [rewrite fmap_cons; cbn [ProductQuiz.product]|];
    now rewrite IH.
Qed.

(** X15.  Products with the same score are recommended in the order the
    catalogue lists them: for every score, the recommended products with
    that score are the first ones of the catalogue with that score. *)
Theorem ties_keep_catalogue_order
    (products : list ProductQuiz.Product) (answers : ProductQuiz.Answers)
    (k s : Z) :
  ProductQuiz.product
    <$> filter (fun r => ProductQuiz.score r = s)
               (ProductQuiz.getRecommendations products answers k)
  `prefix_of` filter (fun p => ProductQuiz.scoreOf answers p = s) products.
Proof.
  unfold ProductQuiz.getRecommendations.
  destruct (slice0_take k
              (ProductQuiz.sortByScore
                 (filter (fun p => 0 < ProductQuiz.score p)
                         (ProductQuiz.scored answers products)))) as [n ->].
  destruct (Z.lt_ge_cases 0 s) as [Hs|Hs].
  - rewrite <- (scored_filter_score answers s products).
    assert (filter (fun r => ProductQuiz.score r = s)
                   (take n (ProductQuiz.sortByScore
                              (filter (fun p => 0 < ProductQuiz.score p)
                                      (ProductQuiz.scored answers products))))
            `prefix_of` filter (fun r => ProductQuiz.score r = s)
                               (ProductQuiz.scored answers products))
      as [rest ->].
    { etransitivity; [apply filter_take_prefix|].
      rewrite sortByScore_stable, list_filter_filter.
      erewrite list_filter_iff; [reflexivity|]. intros r. cbn. lia. }
    rewrite fmap_app. now apply prefix_app_r.
  - replace (filter _ (take n _)) with (@nil ProductQuiz.Scored);
      [apply prefix_nil|].
    symmetry. apply filter_nil_of_all. intros r Hr Hp.
    apply elem_of_take in Hr as (i & Hr & _).
    apply list_elem_of_lookup_2 in Hr.
    rewrite QuizProofs.sortByScore_Permutation in Hr.
    apply list_elem_of_filter in Hr as [Hr _]. lia.
Qed.

(** X16.  Without answers every product scores 2 when it is available and 0
    when it is not, so the quiz recommends the first [k] available
    products of the catalogue, in catalogue order. *)
Theorem recommendations_without_answers
    (products : list ProductQuiz.Product) (answers : ProductQuiz.Answers)
    (k : Z) :
  ProductQuiz.truthyString (ProductQuiz.goal answers) = None ->
  ProductQuiz.truthyNumber (ProductQuiz.experience answers) = None ->
  ProductQuiz.truthyString (ProductQuiz.space answers) = None ->
  default [] (ProductQuiz.focus answers) = [] ->
  0 <= k ->
  ProductQuiz.getRecommendations products answers k
  = (fun p => {| ProductQuiz.product := p; ProductQuiz.score := 2 |})
      <$> take (Z.to_nat k)
               (filter (fun p => ProductQuiz.available p = true) products).
Proof.
  intros Hg He Hs Hf Hk.
  assert (forall p, ProductQuiz.scoreOf answers p
                    = if ProductQuiz.available p then 2 else 0) as Hscore.
  { intros p. unfold ProductQuiz.scoreOf. rewrite Hg, He, Hs.
    destruct (ProductQuiz.focus answers) as [areas|]; cbn in Hf;
      [subst areas|]; reflexivity. }
  assert (filter (fun r => 0 < ProductQuiz.score r)
                 (ProductQuiz.scored answers products)
          = (fun p => {| ProductQuiz.product := p; ProductQuiz.score := 2 |})
              <$> filter (fun p => ProductQuiz.available p = true) products)
    as Hpos.
  { unfold ProductQuiz.scored. induction products as [|p l IH]; [reflexivity|].
    rewrite fmap_cons, !filter_cons. cbn [ProductQuiz.score].
    rewrite Hscore, IH. destruct (ProductQuiz.available p).
    - rewrite decide_True by lia. rewrite decide_True by reflexivity.
      reflexivity.
    - rewrite decide_False by lia. rewrite decide_False by discriminate.
      reflexivity. }
  unfold ProductQuiz.getRecommendations. rewrite Hpos.
  rewrite (sortByScore_constant 2)
    by (apply Forall_fmap, Forall_forall; intros p _; reflexivity).
  unfold ProductQuiz.slice0. destruct (Z.ltb_spec k 0); [lia|].
  rewrite fmap_take. rewrite length_fmap.
  set (l := filter _ products).
  destruct (Z.le_gt_cases k (Z.of_nat (length l))).
  - now rewrite Z.min_l by lia.
  - rewrite Z.min_r by lia. rewrite Nat2Z.id.
    rewrite !take_ge by (rewrite ?length_fmap; lia). reflexivity.
Qed.

Lemma recommendations_without_answers_witness :
  let rack := ProductQuiz.sampleProduct "rack" None None [] true in
  let rig := ProductQuiz.sampleProduct "rig" None None [] false in
  let mat := ProductQuiz.sampleProduct "mat" None None [] true in
  let bands := ProductQuiz.sampleProduct "bands" None None [] true in
  ProductQuiz.product
    <$> ProductQuiz.getRecommendations [rack; rig; mat; bands]
          {| ProductQuiz.goal := None; ProductQuiz.experience := Some 0;
             ProductQuiz.space := Some []; ProductQuiz.focus := Some [] |} 2
  = [rack; mat].
Proof.
  cbv zeta.
  rewrite (recommendations_without_answers
             [ProductQuiz.sampleProduct "rack" None None [] true;
              ProductQuiz.sampleProduct "rig" None None [] false;
              ProductQuiz.sampleProduct "mat" None None [] true;
              ProductQuiz.sampleProduct "bands" None None [] true]
             {| ProductQuiz.goal := None; ProductQuiz.experience := Some 0;
                ProductQuiz.space := Some []; ProductQuiz.focus := Some [] |}
             2 eq_refl eq_refl eq_refl eq_refl ltac:(lia)).
  vm_compute. reflexivity.
Defined.
(** ** The steps of the product quiz *)

Module QuizStepsProofs.
Import QuizSteps.

(** What never changes, and the range of the current step. *)
Definition InRange (types : list (option jsstring)) (q : Quiz) : Prop :=
  1 <= currentStep q <= totalSteps q
  /\ totalSteps q = Z.of_nat (length (steps q))
  /\ questionType <$> steps q = types
  /\ (progressWidth q = Full
      \/ progressWidth q = Ratio (currentStep q) (totalSteps q)).

(** No step but the current one is visible. *)
Definition OthersHidden (q : Quiz) : Prop :=
  forall i s, steps q !! i = Some s -> hidden s = false ->
              Z.of_nat i = currentStep q - 1.

Lemma types_alter b (i : nat) (l : list Step) :
  questionType <$> alter (setHidden b) i l = questionType <$> l.
Proof.
  apply list_eq. intros j. rewrite !list_lookup_fmap, list_lookup_alter.
  destruct (decide (i = j)) as [->|]; [|reflexivity].
  destruct (l !! j); reflexivity.
Qed.

Lemma setCurrentHidden_steps b q :
  exists l, setCurrentHidden b q = with_steps l q
            /\ length l = length (steps q)
            /\ questionType <$> l = questionType <$> steps q.
Proof.
  unfold setCurrentHidden. destruct (currentStep q - 1 <? 0).
  - exists (steps q). destruct q; auto.
  - eexists. split; [reflexivity|]. split; [apply length_alter|apply types_alter].
Qed.

Lemma setCurrentHidden_pos b q :
  1 <= currentStep q ->
  setCurrentHidden b q
  = with_steps (alter (setHidden b) (Z.to_nat (currentStep q - 1)) (steps q)) q.
Proof.
  intros H. unfold setCurrentHidden.
  destruct (Z.ltb_spec (currentStep q - 1) 0); [lia|reflexivity].
Qed.

Lemma InRange_showResults types q : InRange types q -> InRange types (showResults q).
Proof.
  intros (Hc & Ht & Hy & Hp). unfold showResults.
  destruct (setCurrentHidden_steps true q) as (l & -> & Hl & Hty).
  repeat split; cbn; try lia; try congruence. now left.
Qed.

Lemma InRange_nextStep types q : InRange types q -> InRange types (nextStep q).
Proof.
  intros H. pose proof H as (Hc & Ht & Hy & Hp). unfold nextStep.
  destruct (Z.leb_spec (totalSteps q) (currentStep q)).
  - destruct (stepAt _ _) as [lastStep|]; [|exact H].
    destruct (bool_decide _); [exact H|now apply InRange_showResults].
  - cbv zeta. destruct (setCurrentHidden_steps true q) as (l & -> & Hl & Hty).
    destruct (setCurrentHidden_steps false
                (with_currentStep (currentStep (with_steps l q) + 1)
                                  (with_steps l q)))
      as (l' & -> & Hl' & Hty').
    cbn in *. repeat split; cbn; try lia; try congruence. now right.
Qed.

Lemma InRange_prevStep types q : InRange types q -> InRange types (prevStep q).
Proof.
  intros H. pose proof H as (Hc & Ht & Hy & Hp). unfold prevStep.
  destruct (Z.leb_spec (currentStep q) 1); [exact H|].
  cbv zeta. destruct (setCurrentHidden_steps true q) as (l & -> & Hl & Hty).
  destruct (setCurrentHidden_steps false
              (with_currentStep (currentStep (with_steps l q) - 1)
                                (with_steps l q)))
    as (l' & -> & Hl' & Hty').
  cbn in *. destruct (currentStep q - 1 =? 1);
    repeat split; cbn; try lia; try congruence; now right.
Qed.

Lemma types_imap (l : list Step) :
  questionType
    <$> imap (fun index step => setHidden (negb (index =? 0)%nat) step) l
  = questionType <$> l.
Proof.
  apply list_eq. intros j.
  rewrite !list_lookup_fmap, list_lookup_imap. destruct (l !! j); reflexivity.
Qed.

Lemma hidden_imap (l : list Step) :
  hidden <$> imap (fun index step => setHidden (negb (index =? 0)%nat) step) l
  = match l with
    | [] => []
    | _ :: rest => false :: replicate (length rest) true
    end.
Proof.
  destruct l as [|s l]; [reflexivity|]. cbn [imap fmap list_fmap]. f_equal.
  rewrite (imap_ext _ (const (setHidden true))) by reflexivity.
  rewrite imap_const. induction l as [|x l IH]; [reflexivity|].
  cbn [fmap list_fmap length replicate]. f_equal. exact IH.
Qed.

Lemma InRange_restart types q : InRange types q -> InRange types (restart q).
Proof.
  intros (Hc & Ht & Hy & Hp). unfold restart. cbv zeta.
  repeat split; cbn; rewrite ?length_imap, ?types_imap; try lia; try congruence.
  now right.
Qed.

Lemma InRange_step types q e : InRange types q -> InRange types (step q e).
Proof.
  intros H. destruct e; cbn [step].
  - exact H.
  - destruct (advanceTimers q); [exact H|]. apply InRange_nextStep. exact H.
  - now apply InRange_nextStep.
  - now apply InRange_prevStep.
  - now apply InRange_showResults.
  - now apply InRange_restart.
Qed.

Lemma InRange_run types es : forall q, InRange types q -> InRange types (run es q).
Proof.
  unfold run. induction es as [|e es IH]; intros q H; [exact H|].
  cbn [foldl]. apply IH. now apply InRange_step.
Qed.

Lemma InRange_construct markup nav results :
  markup <> [] -> InRange (questionType <$> markup) (construct markup nav results).
Proof.
  intros H. destruct markup as [|s l]; [contradiction|].
  repeat split; cbn [construct updateProgress with_progressWidth currentStep
                     totalSteps steps progressWidth length]; try lia.
  now right.
Qed.

Lemma OthersHidden_hide q :
  1 <= currentStep q -> OthersHidden q ->
  Forall (fun s => hidden s = true) (steps (setCurrentHidden true q)).
Proof.
  intros Hc Ho. rewrite setCurrentHidden_pos by exact Hc. cbn [steps with_steps].
  apply Forall_lookup. intros i s Hs. rewrite list_lookup_alter in Hs.
  destruct (decide (Z.to_nat (currentStep q - 1) = i)) as [<-|Hne].
  - destruct (steps q !! _); [|discriminate]. injection Hs as <-. reflexivity.
  - destruct (hidden s) eqn:E; [reflexivity|]. apply (Ho i s Hs) in E. lia.
Qed.

Lemma OthersHidden_show q :
  1 <= currentStep q ->
  Forall (fun s => hidden s = true) (steps q) ->
  OthersHidden (setCurrentHidden false q).
Proof.
  intros Hc Hall. rewrite setCurrentHidden_pos by exact Hc.
  intros i s Hs Hh. cbn [steps with_steps currentStep] in *.
  rewrite list_lookup_alter in Hs.
  destruct (decide (Z.to_nat (currentStep q - 1) = i)) as [<-|Hne]; [lia|].
  rewrite Forall_lookup in Hall. rewrite (Hall i s Hs) in Hh. discriminate.
Qed.

Lemma OthersHidden_weaken (q q' : Quiz) :
  steps q' = steps q -> currentStep q' = currentStep q ->
  OthersHidden q -> OthersHidden q'.
Proof. unfold OthersHidden. intros -> ->. auto. Qed.

Lemma OthersHidden_all (q : Quiz) :
  Forall (fun s => hidden s = true) (steps q) -> OthersHidden q.
Proof.
  intros Hall i s Hs Hh. rewrite Forall_lookup in Hall.
  rewrite (Hall i s Hs) in Hh. discriminate.
Qed.

Lemma OthersHidden_showResults types q :
  InRange types q -> OthersHidden q -> OthersHidden (showResults q).
Proof.
  intros (Hc & _) Ho. apply OthersHidden_all. unfold showResults.
  cbn [steps with_progressWidth with_resultsHidden with_navHidden].
  apply OthersHidden_hide; [lia|exact Ho].
Qed.

Lemma OthersHidden_nextStep types q :
  InRange types q -> OthersHidden q -> OthersHidden (nextStep q).
Proof.
  intros H Ho. pose proof H as (Hc & _). unfold nextStep.
  destruct (Z.leb_spec (totalSteps q) (currentStep q)).
  - destruct (stepAt _ _) as [lastStep|]; [|exact Ho].
    destruct (bool_decide _); [exact Ho|].
    now apply (OthersHidden_showResults types).
  - cbv zeta. pose proof (OthersHidden_hide q ltac:(lia) Ho) as Hall.
    destruct (setCurrentHidden_steps true q) as (l & E & _).
    rewrite E in *. cbn [steps with_steps currentStep] in *.
    set (moved := with_currentStep (currentStep q + 1) (with_steps l q)).
    apply (OthersHidden_weaken (setCurrentHidden false moved));
      [reflexivity|reflexivity|].
    apply OthersHidden_show; [cbn; lia|exact Hall].
Qed.

Lemma OthersHidden_prevStep types q :
  InRange types q -> OthersHidden q -> OthersHidden (prevStep q).
Proof.
  intros H Ho. pose proof H as (Hc & _). unfold prevStep.
  destruct (Z.leb_spec (currentStep q) 1); [exact Ho|].
  cbv zeta. pose proof (OthersHidden_hide q ltac:(lia) Ho) as Hall.
  destruct (setCurrentHidden_steps true q) as (l & E & _).
  rewrite E in *. cbn [steps with_steps currentStep] in *.
  set (moved := with_currentStep (currentStep q - 1) (with_steps l q)).
  apply (OthersHidden_weaken (setCurrentHidden false moved)).
  - destruct (currentStep (setCurrentHidden false moved) =? 1); reflexivity.
  - destruct (currentStep (setCurrentHidden false moved) =? 1); reflexivity.
  - apply OthersHidden_show; [cbn; lia|exact Hall].
Qed.

Lemma OthersHidden_restart q : OthersHidden (restart q).
Proof.
  intros i s Hs Hh. unfold restart in *.
  cbn [steps currentStep with_steps with_currentStep with_resultsHidden
       with_navHidden updateProgress with_progressWidth] in *.
  rewrite list_lookup_imap in Hs.
  destruct (steps q !! i) as [s0|]; [|discriminate]. injection Hs as <-.
  cbn in Hh. destruct i; [reflexivity|discriminate].
Qed.

Lemma OthersHidden_step types q e :
  InRange types q -> OthersHidden q -> OthersHidden (step q e).
Proof.
  intros H Ho. destruct e; cbn [step].
  - exact Ho.
  - destruct (advanceTimers q) as [|n] eqn:E; [exact Ho|].
    apply (OthersHidden_nextStep types); [exact H|exact Ho].
  - now apply (OthersHidden_nextStep types).
  - now apply (OthersHidden_prevStep types).
  - now apply (OthersHidden_showResults types).
  - apply OthersHidden_restart.
Qed.

Lemma OthersHidden_run types es : forall q,
  InRange types q -> OthersHidden q -> OthersHidden (run es q).
Proof.
  unfold run. induction es as [|e es IH]; intros q H Ho; [exact Ho|].
  cbn [foldl]. apply IH; [now apply InRange_step|].
  now apply (OthersHidden_step types).
Qed.

Lemma nextStep_currentStep q :
  currentStep (nextStep q)
  = (if totalSteps q <=? currentStep q then currentStep q
     else currentStep q + 1)
  /\ totalSteps (nextStep q) = totalSteps q
  /\ advanceTimers (nextStep q) = advanceTimers q.
Proof.
  unfold nextStep. destruct (totalSteps q <=? currentStep q).
  - destruct (stepAt _ _) as [lastStep|]; [|auto].
    destruct (bool_decide _); [auto|]. unfold showResults.
    destruct (setCurrentHidden_steps true q) as (l & -> & _). auto.
  - cbv zeta. destruct (setCurrentHidden_steps true q) as (l & -> & _).
    destruct (setCurrentHidden_steps false
                (with_currentStep (currentStep (with_steps l q) + 1)
                                  (with_steps l q))) as (l' & -> & _).
    auto.
Qed.

Lemma nextStep_advance q :
  1 <= currentStep q < totalSteps q ->
  nextStep q
  = {| steps := alter (setHidden false) (Z.to_nat (currentStep q))
                  (alter (setHidden true) (Z.to_nat (currentStep q - 1))
                         (steps q));
       currentStep := currentStep q + 1; totalSteps := totalSteps q;
       navHidden := false; resultsHidden := resultsHidden q;
       progressWidth := Ratio (currentStep q + 1) (totalSteps q);
       advanceTimers := advanceTimers q |}.
Proof.
  intros Hc. unfold nextStep.
  destruct (Z.leb_spec (totalSteps q) (currentStep q)); [lia|].
  cbv zeta. rewrite (setCurrentHidden_pos true q) by lia.
  rewrite setCurrentHidden_pos by (cbn; lia).
  cbn. replace (currentStep q + 1 - 1) with (currentStep q) by lia.
  reflexivity.
Qed.

Lemma prevStep_back q :
  1 < currentStep q ->
  prevStep q
  = {| steps := alter (setHidden false) (Z.to_nat (currentStep q - 2))
                  (alter (setHidden true) (Z.to_nat (currentStep q - 1))
                         (steps q));
       currentStep := currentStep q - 1; totalSteps := totalSteps q;
       navHidden := (if currentStep q - 1 =? 1 then true else navHidden q);
       resultsHidden := resultsHidden q;
       progressWidth := Ratio (currentStep q - 1) (totalSteps q);
       advanceTimers := advanceTimers q |}.
Proof.
  intros Hc. unfold prevStep.
  destruct (Z.leb_spec (currentStep q) 1); [lia|].
  cbv zeta. rewrite (setCurrentHidden_pos true q) by lia.
  rewrite setCurrentHidden_pos by (cbn; lia).
  cbn. replace (currentStep q - 1 - 1) with (currentStep q - 2) by lia.
  destruct (currentStep q - 1 =? 1); reflexivity.
Qed.

End QuizStepsProofs.

(** X17.  Whatever is clicked, and whenever the timers fire, the current step
    of a quiz with at least one step stays between 1 and the number of
    steps, the steps keep their number and their types, and the progress
    bar is full or shows the current step over the number of steps. *)
Theorem quiz_step_stays_in_range
    (markup : list QuizSteps.Step) (nav results : bool)
    (es : list QuizSteps.Event) :
  markup <> [] ->
  let q := QuizSteps.run es (QuizSteps.construct markup nav results) in
  1 <= QuizSteps.currentStep q <= QuizSteps.totalSteps q
  /\ QuizSteps.totalSteps q = Z.of_nat (length markup)
  /\ length (QuizSteps.steps q) = length markup
  /\ QuizSteps.questionType <$> QuizSteps.steps q
     = QuizSteps.questionType <$> markup
  /\ (QuizSteps.progressWidth q = QuizSteps.Full
      \/ QuizSteps.progressWidth q
         = QuizSteps.Ratio (QuizSteps.currentStep q) (QuizSteps.totalSteps q)).
Proof.
  intros Hm q.
  destruct (QuizStepsProofs.InRange_run _ es _
              (QuizStepsProofs.InRange_construct markup nav results Hm))
    as (Hc & Ht & Hy & Hp).
  fold q in Hc, Ht, Hy, Hp. repeat apply conj; try lia; try assumption.
  - rewrite Ht. apply (f_equal length) in Hy. rewrite !length_fmap in Hy. lia.
  - apply (f_equal length) in Hy. rewrite !length_fmap in Hy. exact Hy.
Qed.

Lemma quiz_step_stays_in_range_witness :
  let q := QuizSteps.run
             [QuizSteps.ClickOption; QuizSteps.ClickOption;
              QuizSteps.TimerFires; QuizSteps.TimerFires;
              QuizSteps.TimerFires; QuizSteps.ClickBack]
             (QuizSteps.construct
                [QuizSteps.sampleStep false "single";
                 QuizSteps.sampleStep true "multiple";
                 QuizSteps.sampleStep true "email"] true true) in
  1 <= QuizSteps.currentStep q <= QuizSteps.totalSteps q.
Proof.
  exact (proj1 (quiz_step_stays_in_range
           [QuizSteps.sampleStep false "single";
            QuizSteps.sampleStep true "multiple";
            QuizSteps.sampleStep true "email"] true true
           [QuizSteps.ClickOption; QuizSteps.ClickOption;
            QuizSteps.TimerFires; QuizSteps.TimerFires;
            QuizSteps.TimerFires; QuizSteps.ClickBack]
           ltac:(discriminate))).
Defined.

(** X18.  A restart shows the first step only, with the nav and the results
    hidden; from then on, whatever happens, no step but the current one
    is visible. *)
Theorem only_the_current_step_is_visible
    (markup : list QuizSteps.Step) (nav results : bool)
    (before after : list QuizSteps.Event) :
  markup <> [] ->
  let fresh := QuizSteps.restart
                 (QuizSteps.run before
                    (QuizSteps.construct markup nav results)) in
  let q := QuizSteps.run after fresh in
  (QuizSteps.currentStep fresh = 1
   /\ QuizSteps.hidden <$> QuizSteps.steps fresh
      = false :: replicate (length markup - 1) true
   /\ QuizSteps.navHidden fresh = true
   /\ QuizSteps.resultsHidden fresh = true)
  /\ forall i s, QuizSteps.steps q !! i = Some s ->
                 QuizSteps.hidden s = false ->
                 Z.of_nat i = QuizSteps.currentStep q - 1.
Proof.
  intros Hm fresh q.
  pose proof (QuizStepsProofs.InRange_run _ before _
                (QuizStepsProofs.InRange_construct markup nav results Hm))
    as Hr.
  split.
  - repeat apply conj; try reflexivity.
    destruct Hr as (_ & _ & Hy & _). apply (f_equal length) in Hy.
    rewrite !length_fmap in Hy. subst fresh. unfold QuizSteps.restart.
    cbn [QuizSteps.steps QuizSteps.with_steps QuizSteps.with_currentStep
         QuizSteps.with_resultsHidden QuizSteps.with_navHidden
         QuizSteps.updateProgress QuizSteps.with_progressWidth].
    rewrite <- Hy.
    destruct (QuizSteps.steps (QuizSteps.run before _)) as [|s l];
      [destruct markup; [contradiction|discriminate]|].
    rewrite QuizStepsProofs.hidden_imap. cbn [length].
    do 2 f_equal. lia.
  - apply (QuizStepsProofs.OthersHidden_run (QuizSteps.questionType <$> markup)).
    + apply QuizStepsProofs.InRange_restart. exact Hr.
    + apply QuizStepsProofs.OthersHidden_restart.
Qed.

Lemma only_the_current_step_is_visible_witness :
  QuizSteps.hidden
    <$> QuizSteps.steps
          (QuizSteps.restart
             (QuizSteps.run [QuizSteps.ClickContinue; QuizSteps.SkipEmail]
                (QuizSteps.construct
                   [QuizSteps.sampleStep false "single";
                    QuizSteps.sampleStep true "multiple";
                    QuizSteps.sampleStep true "email"] true true)))
  = [false; true; true].
Proof.
  exact (proj1 (proj2 (proj1 (only_the_current_step_is_visible
           [QuizSteps.sampleStep false "single";
            QuizSteps.sampleStep true "multiple";
            QuizSteps.sampleStep true "email"] true true
           [QuizSteps.ClickContinue; QuizSteps.SkipEmail] []
           ltac:(discriminate))))).
Defined.

(** X19.  Back undoes an advance: on a step before the last one that is the
    only visible step, with the nav shown exactly from the second step on
    and the progress bar up to date, going to the next step and back
    gives the same state. *)
Theorem back_undoes_advance (q : QuizSteps.Quiz) :
  1 <= QuizSteps.currentStep q < QuizSteps.totalSteps q ->
  (forall i s, QuizSteps.steps q !! i = Some s ->
     QuizSteps.hidden s = negb (Z.of_nat i =? QuizSteps.currentStep q - 1)) ->
  QuizSteps.navHidden q = (QuizSteps.currentStep q =? 1) ->
  QuizSteps.progressWidth q
  = QuizSteps.Ratio (QuizSteps.currentStep q) (QuizSteps.totalSteps q) ->
  QuizSteps.currentStep (QuizSteps.nextStep q) = QuizSteps.currentStep q + 1
  /\ QuizSteps.navHidden (QuizSteps.nextStep q) = false
  /\ QuizSteps.prevStep (QuizSteps.nextStep q) = q.
Proof.
  intros Hc Hh Hn Hp. rewrite QuizStepsProofs.nextStep_advance by lia.
  split; [reflexivity|]. split; [reflexivity|].
  rewrite QuizStepsProofs.prevStep_back by (cbn; lia).
  cbn [QuizSteps.currentStep QuizSteps.totalSteps QuizSteps.steps
       QuizSteps.navHidden QuizSteps.resultsHidden QuizSteps.advanceTimers].
  replace (QuizSteps.currentStep q + 1 - 1) with (QuizSteps.currentStep q)
    by lia.
  replace (QuizSteps.currentStep q + 1 - 2)
    with (QuizSteps.currentStep q - 1) by lia.
  set (a := Z.to_nat (QuizSteps.currentStep q - 1)).
  set (b := Z.to_nat (QuizSteps.currentStep q)).
  assert (b = S a) as Hb by (subst a b; lia).
  assert (alter (QuizSteps.setHidden false) a
            (alter (QuizSteps.setHidden true) b
               (alter (QuizSteps.setHidden false) b
                  (alter (QuizSteps.setHidden true) a (QuizSteps.steps q))))
          = QuizSteps.steps q) as Hsteps.
  { apply list_eq. intros j. rewrite !list_lookup_alter.
    repeat match goal with
           | |- context [decide ?P] => destruct (decide P); try lia
           end; subst; try reflexivity.
    - destruct (QuizSteps.steps q !! a) as [s|] eqn:E; [|reflexivity].
      cbn. pose proof (Hh a s E) as H'.
      destruct (Z.eqb_spec (Z.of_nat a) (QuizSteps.currentStep q - 1));
        [|subst a; lia].
      destruct s as [h t]. cbn in *. subst h. reflexivity.
    - destruct (QuizSteps.steps q !! b) as [s|] eqn:E; [|reflexivity].
      cbn. pose proof (Hh b s E) as H'.
      destruct (Z.eqb_spec (Z.of_nat b) (QuizSteps.currentStep q - 1));
        [subst a b; lia|].
      destruct s as [h t]. cbn in *. subst h. reflexivity. }
  rewrite Hsteps.
  destruct q as [l c t n r p k]. cbn in *. subst n p.
  destruct (c =? 1); reflexivity.
Qed.

Lemma back_undoes_advance_witness :
  let q := QuizSteps.run [QuizSteps.ClickContinue]
             (QuizSteps.restart
                (QuizSteps.construct
                   [QuizSteps.sampleStep false "single";
                    QuizSteps.sampleStep true "multiple";
                    QuizSteps.sampleStep true "email"] true true)) in
  QuizSteps.currentStep q = 2
  /\ QuizSteps.prevStep (QuizSteps.nextStep q) = q.
Proof.
  cbv zeta. split; [reflexivity|].
  refine (proj2 (proj2 (back_undoes_advance _ _ _ _ _))).
  - vm_compute. split; [discriminate|reflexivity].
  - intros [|[|[|i]]] s H; vm_compute in H; try discriminate;
      injection H as <-; reflexivity.
  - reflexivity.
  - reflexivity.
Defined.

Lemma run_clicks k : forall q,
  QuizSteps.run (replicate k QuizSteps.ClickOption) q
  = QuizSteps.with_advanceTimers (k + QuizSteps.advanceTimers q) q.
Proof.
  induction k as [|k IH]; intros q.
  - destruct q; reflexivity.
  - cbn [replicate QuizSteps.run foldl].
    change (foldl QuizSteps.step ?a ?l) with (QuizSteps.run l a).
    rewrite IH. cbn. unfold QuizSteps.with_advanceTimers. cbn.
    f_equal. lia.
Qed.

Lemma run_timers k : forall q,
  QuizSteps.advanceTimers q = k ->
  let q' := QuizSteps.run (replicate k QuizSteps.TimerFires) q in
  QuizSteps.currentStep q'
  = (if QuizSteps.totalSteps q <=? QuizSteps.currentStep q
     then QuizSteps.currentStep q
     else Z.min (QuizSteps.currentStep q + Z.of_nat k) (QuizSteps.totalSteps q))
  /\ QuizSteps.advanceTimers q' = O
  /\ QuizSteps.totalSteps q' = QuizSteps.totalSteps q.
Proof.
  induction k as [|k IH]; intros q Hk; cbv zeta.
  - cbn. destruct (Z.leb_spec (QuizSteps.totalSteps q) (QuizSteps.currentStep q));
      repeat split; auto; lia.
  - cbn [replicate QuizSteps.run foldl QuizSteps.step]. rewrite Hk.
    change (foldl QuizSteps.step ?a ?l) with (QuizSteps.run l a).
    set (q1 := QuizSteps.nextStep (QuizSteps.with_advanceTimers k q)).
    destruct (QuizStepsProofs.nextStep_currentStep
                (QuizSteps.with_advanceTimers k q)) as (Hc & Ht & Ha).
    fold q1 in Hc, Ht, Ha. cbn in Hc, Ht, Ha.
    destruct (IH q1 Ha) as (IHc & IHa & IHt). rewrite IHc, IHa, IHt, Hc, Ht.
    destruct (Z.leb_spec (QuizSteps.totalSteps q) (QuizSteps.currentStep q)).
    + destruct (Z.leb_spec (QuizSteps.totalSteps q) (QuizSteps.currentStep q));
        [|lia]. auto.
    + destruct (Z.leb_spec (QuizSteps.totalSteps q)
                  (QuizSteps.currentStep q + 1)); repeat split; auto; lia.
Qed.

(** X20.  A click on a single-choice option starts a timer and cancels none, so
    [k] clicks in a row advance the quiz by [k] steps, up to the last
    step: a double click skips a question. *)
Theorem every_click_schedules_an_advance (q : QuizSteps.Quiz) (k : nat) :
  QuizSteps.advanceTimers q = O ->
  QuizSteps.currentStep q <= QuizSteps.totalSteps q ->
  let q' := QuizSteps.run (replicate k QuizSteps.ClickOption
                           ++ replicate k QuizSteps.TimerFires) q in
  QuizSteps.currentStep q'
  = Z.min (QuizSteps.currentStep q + Z.of_nat k) (QuizSteps.totalSteps q)
  /\ QuizSteps.advanceTimers q' = O.
Proof.
  intros Ha Hc. cbv zeta.
  replace (QuizSteps.run (replicate k QuizSteps.ClickOption
                          ++ replicate k QuizSteps.TimerFires) q)
    with (QuizSteps.run (replicate k QuizSteps.TimerFires)
            (QuizSteps.run (replicate k QuizSteps.ClickOption) q))
    by (unfold QuizSteps.run; now rewrite foldl_app).
  rewrite run_clicks, Ha, Nat.add_0_r.
  destruct (run_timers k (QuizSteps.with_advanceTimers k q) eq_refl)
    as (H1 & H2 & _).
  cbn [QuizSteps.currentStep QuizSteps.totalSteps QuizSteps.with_advanceTimers]
    in H1.
  split; [|exact H2]. rewrite H1.
  destruct (Z.leb_spec (QuizSteps.totalSteps q) (QuizSteps.currentStep q)); lia.
Qed.

Lemma every_click_schedules_an_advance_witness :
  QuizSteps.currentStep
    (QuizSteps.run
       [QuizSteps.ClickOption; QuizSteps.ClickOption;
        QuizSteps.TimerFires; QuizSteps.TimerFires]
       (QuizSteps.construct
          [QuizSteps.sampleStep false "single";
           QuizSteps.sampleStep true "single";
           QuizSteps.sampleStep true "single"] true true))
  = 3.
Proof.
  exact (proj1 (every_click_schedules_an_advance
           (QuizSteps.construct
              [QuizSteps.sampleStep false "single";
               QuizSteps.sampleStep true "single";
               QuizSteps.sampleStep true "single"] true true)
           2 eq_refl ltac:(vm_compute; discriminate))).
Defined.
(** ** The multi-select of the product quiz *)

Module MultiChoiceProofs.
Import MultiChoice.

(** The number of selected options. *)
Definition count (l : list MultiOption) : Z :=
  Z.of_nat (length (filter (fun o => isSelected o = true) l)).

Lemma selectedOptions_shift (g : nat -> nat) (l : list MultiOption) :
  (fun entry : nat * MultiOption => entry.1)
    <$> filter (fun entry => isSelected entry.2 = true)
               (imap (fun i o => (g i, o)) l)
  = g <$> selectedOptions l.
Proof.
  unfold selectedOptions. revert g.
  induction l as [|o l IH]; intros g; [reflexivity|].
  pose proof (IH (fun i => g (S i))) as H1. pose proof (IH S) as H2.
  cbn [imap]. unfold compose. cbv beta in *. rewrite !filter_cons. cbn [snd].
  change (imap (fun x => pair (S x)) l)
    with (imap (fun (i : nat) (o : MultiOption) => (S i, o)) l).
  destruct (decide (isSelected o = true)); rewrite ?fmap_cons; cbn [fst];
    rewrite H1, H2, <- (list_fmap_compose S g); reflexivity.
Qed.

Lemma selectedOptions_cons o l :
  selectedOptions (o :: l)
  = (if isSelected o then [O] else []) ++ (S <$> selectedOptions l).
Proof.
  pose proof (selectedOptions_shift S l) as H.
  unfold selectedOptions at 1. cbn [imap]. unfold compose. cbv beta in *.
  rewrite filter_cons. cbn [snd].
  change (imap (fun x => pair (S x)) l)
    with (imap (fun (i : nat) (o : MultiOption) => (S i, o)) l).
  destruct (decide (isSelected o = true)) as [E|E].
  - rewrite fmap_cons, H, E. reflexivity.
  - rewrite H. destruct (isSelected o); [congruence|]. reflexivity.
Qed.

Lemma selectedOptions_sorted l : StronglySorted lt (selectedOptions l).
Proof.
  induction l as [|o l IH]; [constructor|]. rewrite selectedOptions_cons.
  apply StronglySorted_app_2.
  - intros x y Hx Hy. destruct (isSelected o); [|inversion Hx].
    apply list_elem_of_singleton in Hx as ->.
    apply list_elem_of_fmap in Hy as (j & -> & _). lia.
  - destruct (isSelected o); repeat constructor.
  - apply (StronglySorted_fmap S lt lt); [intros x y; lia|exact IH].
Qed.

Lemma selectedOptions_count l : Z.of_nat (length (selectedOptions l)) = count l.
Proof.
  unfold count. f_equal. induction l as [|o l IH]; [reflexivity|].
  rewrite selectedOptions_cons, length_app, length_fmap, IH, filter_cons.
  destruct (isSelected o); [rewrite decide_True by reflexivity
                           |rewrite decide_False by discriminate]; reflexivity.
Qed.

Lemma selectedOptions_elem l i :
  i ∈ selectedOptions l <-> exists o, l !! i = Some o /\ isSelected o = true.
Proof.
  revert i. induction l as [|o l IH]; intros i.
  - split; [intros H; inversion H|intros (o & H & _); discriminate].
  - rewrite selectedOptions_cons, elem_of_app, list_elem_of_fmap. split.
    + intros [H|(j & -> & Hj)].
      * destruct (isSelected o) eqn:E; [|inversion H].
        apply list_elem_of_singleton in H as ->. eauto.
      * apply IH in Hj. exact Hj.
    + intros (o' & Hl & Ho'). destruct i as [|i].
      * injection Hl as ->. rewrite Ho'. left. constructor.
      * right. exists i. split; [reflexivity|]. apply IH. eauto.
Qed.

Lemma count_setSelected b i l o :
  l !! i = Some o ->
  count (setSelected b i l)
  = count l - (if isSelected o then 1 else 0) + (if b then 1 else 0).
Proof.
  unfold count, setSelected. revert i.
  induction l as [|x l IH]; intros i Hi; [discriminate|].
  destruct i as [|i].
  - injection Hi as ->. cbn [alter list_alter]. rewrite !filter_cons.
    cbn [isSelected].
    destruct b, (isSelected o);
      repeat (destruct (decide _); try discriminate; try congruence);
      cbn [length]; lia.
  - cbn [alter list_alter]. rewrite !filter_cons.
    specialize (IH i Hi). cbn [alter] in IH.
    destruct (decide (isSelected x = true)); cbn [length]; lia.
Qed.

Lemma values_setSelected b i l :
  value <$> setSelected b i l = value <$> l.
Proof.
  unfold setSelected. apply list_eq. intros j.
  rewrite !list_lookup_fmap, list_lookup_alter.
  destruct (decide (i = j)) as [->|]; [|reflexivity].
  destruct (l !! j); reflexivity.
Qed.

Lemma lookup_setSelected_ne b i j l :
  i <> j -> setSelected b i l !! j = l !! j.
Proof. intros H. unfold setSelected. now apply list_lookup_alter_ne. Qed.

Lemma lookup_setSelected b i l o :
  l !! i = Some o ->
  setSelected b i l !! i = Some {| value := value o; isSelected := b |}.
Proof.
  intros H. unfold setSelected. rewrite list_lookup_alter_eq, H. reflexivity.
Qed.

(** One click, case by case. *)
Lemma handleMultipleChoice_cases i s o :
  options s !! i = Some o ->
  1 <= orElse (maxSelections s) 3 ->
  let s' := handleMultipleChoice i s in
  maxSelections s' = maxSelections s
  /\ minSelections s' = minSelections s
  /\ value <$> options s' = value <$> options s
  /\ options s' !! i
     = Some {| value := value o; isSelected := negb (isSelected o) |}
  /\ continueDisabled s' = (count (options s') <? orElse (minSelections s) 1)
  /\ (if isSelected o then count (options s') = count (options s) - 1
      else if orElse (maxSelections s) 3 <=? count (options s)
           then count (options s') = count (options s)
           else count (options s') = count (options s) + 1).
Proof.
  intros Hi Hmax. cbv zeta. unfold handleMultipleChoice. rewrite Hi.
  cbv zeta. rewrite selectedOptions_count.
  destruct (isSelected o) eqn:Eo.
  - cbn [options maxSelections minSelections continueDisabled].
    rewrite selectedOptions_count, values_setSelected,
      (lookup_setSelected _ _ _ _ Hi), (count_setSelected _ _ _ _ Hi), Eo.
    repeat split; lia.
  - destruct (Z.leb_spec (orElse (maxSelections s) 3) (count (options s)))
      as [Hfull|Hroom].
    + destruct (selectedOptions (options s)) as [|first rest] eqn:Es.
      * pose proof (selectedOptions_count (options s)) as Hc.
        rewrite Es in Hc. cbn in Hc. lia.
      * assert (first ∈ selectedOptions (options s)) as Hf
          by (rewrite Es; constructor).
        apply selectedOptions_elem in Hf as (o1 & Hl1 & Ho1).
        assert (first <> i) as Hne by (intros ->; congruence).
        cbn [fmap option_fmap option_map options maxSelections minSelections
             continueDisabled].
        assert (setSelected false first (options s) !! i = Some o) as Hi'
          by (rewrite lookup_setSelected_ne by exact Hne; exact Hi).
        rewrite selectedOptions_count, !values_setSelected,
          (lookup_setSelected _ _ _ _ Hi'), (count_setSelected _ _ _ _ Hi'),
          (count_setSelected _ _ _ _ Hl1), Eo, Ho1.
        repeat split; lia.
    + cbn [fmap option_fmap option_map options maxSelections minSelections
           continueDisabled].
      rewrite selectedOptions_count, values_setSelected,
        (lookup_setSelected _ _ _ _ Hi), (count_setSelected _ _ _ _ Hi), Eo.
      repeat split; lia.
Qed.

Lemma handleMultipleChoice_outside i s :
  options s !! i = None -> handleMultipleChoice i s = s.
Proof. intros H. unfold handleMultipleChoice. now rewrite H. Qed.

Lemma selectedValues_count s :
  Z.of_nat (length (selectedValues s)) = count (options s).
Proof. unfold selectedValues, count. now rewrite length_fmap. Qed.

Lemma clicks_bound positions : forall s,
  1 <= orElse (maxSelections s) 3 ->
  count (options s) <= orElse (maxSelections s) 3 ->
  let s' := clicks positions s in
  maxSelections s' = maxSelections s
  /\ value <$> options s' = value <$> options s
  /\ count (options s') <= orElse (maxSelections s) 3.
Proof.
  induction positions as [|i positions IH]; intros s Hmax Hc; cbv zeta.
  - auto.
  - cbn [clicks foldl]. fold (clicks positions (handleMultipleChoice i s)).
    destruct (options s !! i) as [o|] eqn:Hi.
    + destruct (handleMultipleChoice_cases i s o Hi Hmax)
        as (Hm & _ & Hv & _ & _ & Hcount).
      destruct (IH (handleMultipleChoice i s)) as (IH1 & IH2 & IH3).
      * now rewrite Hm.
      * rewrite Hm. destruct (isSelected o); [lia|].
        destruct (Z.leb_spec (orElse (maxSelections s) 3) (count (options s)));
          lia.
      * rewrite IH1, IH2, Hm, Hv in *. auto.
    + rewrite handleMultipleChoice_outside by exact Hi. now apply IH.
Qed.

End MultiChoiceProofs.

(** X21.  With a positive maximum, no sequence of clicks selects more options
    than the maximum; the options keep their values.  The array stored for
    the step then has at most that many entries, so the focus rule of the
    scoring adds at most four points for each of them. *)
Theorem selection_never_exceeds_the_maximum
    (s : MultiChoice.Step) (positions : list nat) :
  let maximum := MultiChoice.orElse (MultiChoice.maxSelections s) 3 in
  1 <= maximum ->
  Z.of_nat (length (MultiChoice.selectedValues s)) <= maximum ->
  let s' := MultiChoice.clicks positions s in
  Z.of_nat (length (MultiChoice.selectedValues s')) <= maximum
  /\ MultiChoice.value <$> MultiChoice.options s'
     = MultiChoice.value <$> MultiChoice.options s
  /\ forall answers product,
       ProductQuiz.focus answers = Some (MultiChoice.selectedValues s') ->
       ProductQuiz.focusPoints answers product <= 4 * maximum.
Proof.
  intros maximum Hmax Hc s'.
  rewrite MultiChoiceProofs.selectedValues_count in Hc.
  destruct (MultiChoiceProofs.clicks_bound positions s Hmax Hc)
    as (_ & Hv & Hb).
  fold s' in Hv, Hb. rewrite <- MultiChoiceProofs.selectedValues_count in Hb.
  repeat apply conj; [exact Hb|exact Hv|].
  intros answers product Hf. unfold ProductQuiz.focusPoints. rewrite Hf.
  cbn [default from_option]. unfold id.
  pose proof (length_filter
                (fun area => ProductQuiz.includes (ProductQuiz.tags product) area
                             = true) (MultiChoice.selectedValues s')).
  subst maximum. lia.
Qed.

Lemma selection_never_exceeds_the_maximum_witness :
  MultiChoice.selectedValues
    (MultiChoice.clicks [0; 1; 2; 3]%nat
       (MultiChoice.sampleStep
          ["strength"; "cardio"; "mobility"; "recovery"]%string (Some 2) None))
  = [lit "mobility"; lit "recovery"]
  /\ Z.of_nat (length (MultiChoice.selectedValues
       (MultiChoice.clicks [0; 1; 2; 3]%nat
          (MultiChoice.sampleStep
             ["strength"; "cardio"; "mobility"; "recovery"]%string
             (Some 2) None)))) <= 2.
Proof.
  split; [vm_compute; reflexivity|].
  exact (proj1 (selection_never_exceeds_the_maximum
           (MultiChoice.sampleStep
              ["strength"; "cardio"; "mobility"; "recovery"]%string
              (Some 2) None)
           [0; 1; 2; 3]%nat ltac:(vm_compute; discriminate)
           ltac:(vm_compute; discriminate))).
Defined.

(** X22.  A click on an option of the step toggles it, and sets the continue
    button: disabled exactly when fewer options than the minimum are
    selected.  Selecting at the maximum keeps the number of selected
    options, which otherwise goes up or down by one. *)
Theorem click_toggles_the_option
    (s : MultiChoice.Step) (i : nat) (o : MultiChoice.MultiOption) :
  MultiChoice.options s !! i = Some o ->
  1 <= MultiChoice.orElse (MultiChoice.maxSelections s) 3 ->
  let s' := MultiChoice.handleMultipleChoice i s in
  let selected (x : MultiChoice.Step) :=
    Z.of_nat (length (MultiChoice.selectedValues x)) in
  MultiChoice.options s' !! i
  = Some {| MultiChoice.value := MultiChoice.value o;
            MultiChoice.isSelected := negb (MultiChoice.isSelected o) |}
  /\ MultiChoice.continueDisabled s'
     = (selected s' <? MultiChoice.orElse (MultiChoice.minSelections s) 1)
  /\ selected s'
     = (if MultiChoice.isSelected o then selected s - 1
        else if MultiChoice.orElse (MultiChoice.maxSelections s) 3 <=? selected s
             then selected s
             else selected s + 1).
Proof.
  intros Hi Hmax s' selected. subst selected. cbv beta.
  rewrite !MultiChoiceProofs.selectedValues_count.
  destruct (MultiChoiceProofs.handleMultipleChoice_cases i s o Hi Hmax)
    as (_ & _ & _ & Ht & Hd & Hc).
  fold s' in Ht, Hd, Hc. repeat apply conj; [exact Ht|exact Hd|].
  destruct (MultiChoice.isSelected o); [exact Hc|].
  destruct (_ <=? _); exact Hc.
Qed.

Lemma click_toggles_the_option_witness :
  let s := MultiChoice.sampleStep ["strength"; "cardio"]%string None None in
  MultiChoice.continueDisabled (MultiChoice.handleMultipleChoice 1 s) = false
  /\ MultiChoice.continueDisabled
       (MultiChoice.handleMultipleChoice 1
          (MultiChoice.handleMultipleChoice 1 s)) = true.
Proof.
  cbv zeta. split.
  - rewrite (proj1 (proj2 (click_toggles_the_option
               (MultiChoice.sampleStep ["strength"; "cardio"]%string None None)
               1%nat _ eq_refl ltac:(vm_compute; discriminate)))).
    vm_compute. reflexivity.
  - vm_compute. reflexivity.
Defined.

(** X23.  At the maximum, the option that gives way is the first selected one
    in document order, not the one selected first: with a maximum of two
    and nothing selected, choosing a later option, then an earlier one,
    then a third leaves the later one and the third selected. *)
Theorem full_selection_drops_first_in_document_order
    (s : MultiChoice.Step) (early late third : nat) :
  MultiChoice.orElse (MultiChoice.maxSelections s) 3 = 2 ->
  MultiChoice.selectedValues s = [] ->
  (early < late < length (MultiChoice.options s))%nat ->
  (third < length (MultiChoice.options s))%nat ->
  third <> early -> third <> late ->
  let s' := MultiChoice.clicks [late; early; third] s in
  forall i o, MultiChoice.options s' !! i = Some o ->
    MultiChoice.isSelected o = bool_decide (i = late \/ i = third).
Proof.
  intros Hmax Hnone Hel Ht Hte Htl s' i o Hi.
  assert (forall j x, MultiChoice.options s !! j = Some x ->
                      MultiChoice.isSelected x = false) as H0.
  { intros j x Hj. destruct (MultiChoice.isSelected x) eqn:E; [|reflexivity].
    assert (x ∈ filter (fun o => MultiChoice.isSelected o = true)
                       (MultiChoice.options s)) as Hin
      by (apply list_elem_of_filter; split;
          [exact E|now apply list_elem_of_lookup_2 in Hj]).
    unfold MultiChoice.selectedValues in Hnone.
    apply fmap_nil_inv in Hnone. rewrite Hnone in Hin. inversion Hin. }
  assert (MultiChoiceProofs.count (MultiChoice.options s) = 0) as Hc0.
  { rewrite <- MultiChoiceProofs.selectedValues_count, Hnone. reflexivity. }
  destruct (lookup_lt_is_Some_2 (MultiChoice.options s) late ltac:(lia))
    as [ol Hl].
  destruct (lookup_lt_is_Some_2 (MultiChoice.options s) early ltac:(lia))
    as [oe He].
  destruct (lookup_lt_is_Some_2 (MultiChoice.options s) third ltac:(lia))
    as [ot Hth].
  subst s'. unfold MultiChoice.clicks in Hi. cbn [foldl] in Hi.
  revert Hi.
  (* first click: [late] *)
  unfold MultiChoice.handleMultipleChoice at 3. rewrite Hl. cbv zeta.
  rewrite (H0 _ _ Hl), MultiChoiceProofs.selectedOptions_count, Hc0, Hmax.
  change (2 <=? 0) with false. cbv iota.
  cbn [fmap option_fmap option_map].
  set (l1 := MultiChoice.setSelected true late (MultiChoice.options s)).
  set (s1 := {| MultiChoice.options := l1 |}).
  assert (MultiChoiceProofs.count l1 = 1) as Hc1.
  { subst l1. rewrite (MultiChoiceProofs.count_setSelected _ _ _ _ Hl),
      (H0 _ _ Hl), Hc0. reflexivity. }
  assert (l1 !! early = Some oe) as He1.
  { subst l1. rewrite MultiChoiceProofs.lookup_setSelected_ne by lia.
    exact He. }
  (* second click: [early] *)
  unfold MultiChoice.handleMultipleChoice at 2.
  cbn [MultiChoice.options MultiChoice.maxSelections MultiChoice.minSelections
       s1].
  rewrite He1. cbv zeta.
  rewrite (H0 _ _ He), MultiChoiceProofs.selectedOptions_count, Hc1, Hmax.
  change (2 <=? 1) with false. cbv iota.
  cbn [fmap option_fmap option_map].
  set (l2 := MultiChoice.setSelected true early l1).
  set (s2 := {| MultiChoice.options := l2 |}).
  assert (MultiChoiceProofs.count l2 = 2) as Hc2.
  { subst l2. rewrite (MultiChoiceProofs.count_setSelected _ _ _ _ He1),
      (H0 _ _ He), Hc1. reflexivity. }
  assert (l2 !! third = Some ot) as Ht2.
  { subst l2 l1. rewrite !MultiChoiceProofs.lookup_setSelected_ne by lia.
    exact Hth. }
  assert (exists rest, MultiChoice.selectedOptions l2 = early :: rest)
    as [rest Hfirst].
  { destruct (MultiChoice.selectedOptions l2) as [|first rest] eqn:Es.
    - pose proof (MultiChoiceProofs.selectedOptions_count l2) as Hc.
      rewrite Es in Hc. cbn in Hc. lia.
    - exists rest. f_equal.
      assert (forall j, j ∈ MultiChoice.selectedOptions l2 ->
                        j = early \/ j = late) as Hsel.
      { intros j Hj.
        apply MultiChoiceProofs.selectedOptions_elem in Hj as (x & Hx & Hs).
        destruct (decide (j = early)); [now left|].
        destruct (decide (j = late)); [now right|]. exfalso.
        subst l2 l1.
        rewrite !MultiChoiceProofs.lookup_setSelected_ne in Hx by lia.
        rewrite (H0 _ _ Hx) in Hs. discriminate. }
      assert (early ∈ MultiChoice.selectedOptions l2) as Hin.
      { apply MultiChoiceProofs.selectedOptions_elem. eexists. split.
        - subst l2. apply (MultiChoiceProofs.lookup_setSelected _ _ _ _ He1).
        - reflexivity. }
      assert (StronglySorted lt (MultiChoice.selectedOptions l2)) as Hsorted
        by apply MultiChoiceProofs.selectedOptions_sorted.
      rewrite Es in Hin, Hsel, Hsorted.
      apply elem_of_cons in Hin as [->|Hin]; [reflexivity|].
      apply StronglySorted_inv in Hsorted as [_ Hlt].
      rewrite Forall_forall in Hlt. specialize (Hlt early Hin).
      destruct (Hsel first ltac:(constructor)) as [->| ->]; lia. }
  (* third click: [third] *)
  unfold MultiChoice.handleMultipleChoice.
  cbn [MultiChoice.options MultiChoice.maxSelections MultiChoice.minSelections
       s2].
  rewrite Ht2. cbv zeta.
  assert (MultiChoice.isSelected ot = false) as Hot by apply (H0 _ _ Hth).
  rewrite Hot, MultiChoiceProofs.selectedOptions_count, Hc2, Hmax, Hfirst.
  change (2 <=? 2) with true. cbv iota.
  cbn [fmap option_fmap option_map MultiChoice.options].
  intros Hi. unfold MultiChoice.setSelected in Hi. subst l2 l1.
  unfold MultiChoice.setSelected in Hi.
  rewrite !list_lookup_alter in Hi.
  repeat match type of Hi with
         | context [decide ?P] => destruct (decide P); try lia
         end; subst;
    destruct (MultiChoice.options s !! i) as [x|] eqn:Ex;
    try discriminate; injection Hi as <-; cbn;
    rewrite ?(H0 _ _ Ex); symmetry;
    try (apply bool_decide_eq_true; lia);
    try (apply bool_decide_eq_false; lia).
Qed.

Lemma full_selection_drops_first_in_document_order_witness :
  MultiChoice.isSelected
    <$> MultiChoice.options
          (MultiChoice.clicks [2; 0; 3]%nat
             (MultiChoice.sampleStep
                ["strength"; "cardio"; "mobility"; "recovery"]%string
                (Some 2) None)) !! 0%nat
  = Some false.
Proof.
  destruct (MultiChoice.options
              (MultiChoice.clicks [2; 0; 3]%nat
                 (MultiChoice.sampleStep
                    ["strength"; "cardio"; "mobility"; "recovery"]%string
                    (Some 2) None)) !! 0%nat) as [o|] eqn:E.
  - cbn [fmap option_fmap option_map]. f_equal.
    rewrite (full_selection_drops_first_in_document_order
               (MultiChoice.sampleStep
                  ["strength"; "cardio"; "mobility"; "recovery"]%string
                  (Some 2) None)
               0 2 3 eq_refl eq_refl ltac:(vm_compute; lia)
               ltac:(vm_compute; lia) ltac:(lia) ltac:(lia) 0%nat o E).
    reflexivity.
  - vm_compute in E. discriminate.
Defined.
(** ** The facets *)

Module FacetsProofs.
Import Facets.

Lemma filter_ext_in {A} (P Q : A -> Prop) `{forall x, Decision (P x)}
    `{forall x, Decision (Q x)} (l : list A) :
  (forall x, x ∈ l -> (P x <-> Q x)) -> filter P l = filter Q l.
Proof.
  induction l as [|x l IH]; intros Hpq; [reflexivity|].
  rewrite !filter_cons.
  assert (filter P l = filter Q l) as ->
    by (apply IH; intros y Hy; apply Hpq; now constructor).
  pose proof (Hpq x ltac:(constructor)) as Hx.
  destruct (decide (P x)), (decide (Q x)); tauto.
Qed.

Lemma foldl_delete (keys : list jsstring) : forall params : Params,
  foldl (fun params key => delete key params) params keys
  = filter (fun entry => entry.1 ∉ keys) params.
Proof.
  induction keys as [|key keys IH]; intros params; cbn [foldl].
  - symmetry. apply filter_all. apply Forall_forall. intros e _ H. inversion H.
  - rewrite IH. unfold delete. rewrite list_filter_filter.
    apply list_filter_iff. intros e. rewrite not_elem_of_cons. tauto.
Qed.

Lemma foldl_append (formData : list (jsstring * jsstring)) :
  forall params : Params,
  foldl (fun params entry =>
           match entry.2 with
           | [] => params
           | _ :: _ => append entry.1 entry.2 params
           end) params formData
  = params ++ filter (fun entry => entry.2 <> []) formData.
Proof.
  induction formData as [|[k v] form IH]; intros params; cbn [foldl snd fst].
  - now rewrite app_nil_r.
  - rewrite IH, filter_cons. cbn [snd]. destruct v as [|c v].
    + rewrite decide_False by tauto. reflexivity.
    + rewrite decide_True by discriminate. unfold append.
      now rewrite <- app_assoc.
Qed.

Lemma applyFilters_closed formData params :
  applyFilters formData params
  = filter (fun entry => isFilter entry.1 = false) params
    ++ filter (fun entry => entry.2 <> []) formData.
Proof.
  unfold applyFilters. cbv zeta. rewrite foldl_append, foldl_delete.
  f_equal. apply filter_ext_in. intros e He. split.
  - intros Hn. destruct (isFilter e.1) eqn:E; [|reflexivity].
    exfalso. apply Hn. apply list_elem_of_fmap. exists e.
    split; [reflexivity|]. apply list_elem_of_filter. auto.
  - intros E Hin. apply list_elem_of_fmap in Hin as (e' & He' & Hin).
    apply list_elem_of_filter in Hin as [Hf _]. rewrite <- He' in Hf.
    congruence.
Qed.

Lemma set_filter_name name value (params : Params) :
  filter (fun entry => entry.1 = name) (set name value params)
  = [(name, value)].
Proof.
  induction params as [|[k v] rest IH]; cbn [set].
  - rewrite filter_cons, decide_True by reflexivity. reflexivity.
  - destruct (bool_decide (k = name)) eqn:E.
    + rewrite filter_cons, decide_True by reflexivity. f_equal.
      unfold delete. rewrite list_filter_filter.
      apply filter_nil_of_all. intros e _. tauto.
    + apply bool_decide_eq_false in E.
      rewrite filter_cons, decide_False by exact E. exact IH.
Qed.

Lemma set_filter_others name value (params : Params) :
  filter (fun entry => entry.1 <> name) (set name value params)
  = filter (fun entry => entry.1 <> name) params.
Proof.
  induction params as [|[k v] rest IH]; cbn [set].
  - rewrite filter_cons, decide_False by (cbn; tauto). reflexivity.
  - destruct (bool_decide (k = name)) eqn:E.
    + apply bool_decide_eq_true in E. subst k.
      rewrite !filter_cons, !decide_False by (cbn; tauto).
      unfold delete. rewrite list_filter_filter.
      apply list_filter_iff. intros e. tauto.
    + apply bool_decide_eq_false in E.
      rewrite !filter_cons, !decide_True by exact E. now rewrite IH.
Qed.

Lemma delete_set name value (params : Params) :
  delete name (set name value params) = delete name params.
Proof. apply set_filter_others. Qed.

Lemma set_set name first second (params : Params) :
  set name second (set name first params) = set name second params.
Proof.
  induction params as [|[k v] rest IH]; cbn [set].
  - rewrite bool_decide_eq_true_2 by reflexivity. reflexivity.
  - destruct (bool_decide (k = name)) eqn:E.
    + cbn [set]. rewrite bool_decide_eq_true_2 by reflexivity.
      f_equal. unfold delete. rewrite list_filter_filter.
      apply list_filter_iff. intros e. tauto.
    + cbn [set]. rewrite E. now rewrite IH.
Qed.

End FacetsProofs.

(** X24.  Applying the filters keeps the parameters that are not filters, in
    their order, drops every filter parameter, and appends the entries of
    the form that have a value, in the order of the form.  When the
    entries with a value are all filters, applying the same form again
    changes nothing. *)
Theorem applyFilters_replaces_the_filters
    (formData : list (jsstring * jsstring)) (params : Facets.Params) :
  Facets.applyFilters formData params
  = filter (fun entry => Facets.isFilter entry.1 = false) params
    ++ filter (fun entry => entry.2 <> []) formData
  /\ ((forall entry, entry ∈ formData -> entry.2 <> [] ->
         Facets.isFilter entry.1 = true) ->
      Facets.applyFilters formData (Facets.applyFilters formData params)
      = Facets.applyFilters formData params).
Proof.
  split; [apply FacetsProofs.applyFilters_closed|].
  intros Hform. rewrite !FacetsProofs.applyFilters_closed.
  rewrite filter_app, list_filter_filter. f_equal.
  rewrite (filter_nil_of_all _ (filter _ formData)), app_nil_r.
  - apply list_filter_iff. intros e. tauto.
  - intros e He E. apply list_elem_of_filter in He as [Hv He].
    rewrite (Hform e He Hv) in E. discriminate.
Qed.

(** X25.  Sorting leaves exactly one [sort_by] parameter, with the chosen
    value, and the other parameters as they were; a second sort replaces
    the first; and applying filters afterwards keeps the sort, as long as
    the form has no [sort_by] entry with a value. *)
Theorem handleSort_sets_one_sort_by
    (sortValue : jsstring) (params : Facets.Params) :
  let sorted := Facets.handleSort sortValue params in
  filter (fun entry => entry.1 = lit "sort_by") sorted
  = [(lit "sort_by", sortValue)]
  /\ filter (fun entry => entry.1 <> lit "sort_by") sorted
     = filter (fun entry => entry.1 <> lit "sort_by") params
  /\ (forall other, Facets.handleSort other sorted
                    = Facets.handleSort other params)
  /\ (forall formData,
      (forall entry, entry ∈ formData -> entry.2 <> [] ->
         entry.1 <> lit "sort_by") ->
      filter (fun entry => entry.1 = lit "sort_by")
             (Facets.applyFilters formData sorted)
      = [(lit "sort_by", sortValue)]).
Proof.
  cbv zeta. unfold Facets.handleSort. repeat apply conj.
  - apply FacetsProofs.set_filter_name.
  - apply FacetsProofs.set_filter_others.
  - intros other. apply FacetsProofs.set_set.
  - intros formData Hform. rewrite FacetsProofs.applyFilters_closed.
    rewrite filter_app, list_filter_filter.
    rewrite (filter_nil_of_all _ (filter _ formData)), app_nil_r.
    + etransitivity;
        [|apply (FacetsProofs.set_filter_name (lit "sort_by") sortValue params)].
      apply list_filter_iff. intros e. split; [tauto|].
      intros ->. split; [reflexivity|]. vm_compute. reflexivity.
    + intros e He E. apply list_elem_of_filter in He as [Hv He].
      exact (Hform e He Hv E).
Qed.
(** ** The theme toggle *)

Module ThemeProofs.
Import ThemeToggle.

(** What [applyTheme] leaves, and what the saved preference says. *)
Record Inv (p : Page) : Prop := {
  inv_dark : darkClass p = bool_decide (currentTheme p = dark);
  inv_light : lightClass p = negb (darkClass p);
  inv_changes : last (changes p) = Some (currentTheme p);
  inv_saved : forall s, saved p = Some s -> s = dark \/ s = light ->
                        currentTheme p = s
}.

(** The theme is one of the two. *)
Definition Valid (p : Page) : Prop :=
  currentTheme p = dark \/ currentTheme p = light.

Lemma dark_light : dark <> light.
Proof. apply (bool_decide_unpack _). vm_compute. exact I. Qed.

Lemma theme_Inv_applyTheme theme cls1 cls2 log pref :
  (forall s, pref = Some s -> s = dark \/ s = light -> theme = s) ->
  Inv (applyTheme theme
         {| currentTheme := theme; saved := pref; darkClass := cls1;
            lightClass := cls2; changes := log |}).
Proof.
  intros Hs. split; cbn.
  - destruct (bool_decide (theme = dark)); reflexivity.
  - destruct (bool_decide (theme = dark)); reflexivity.
  - apply last_snoc.
  - exact Hs.
Qed.

Lemma getInitialTheme_valid preference systemDark :
  getInitialTheme preference systemDark = dark
  \/ getInitialTheme preference systemDark = light.
Proof.
  unfold getInitialTheme. destruct preference as [s|].
  - destruct (truthy (Some s)); cbn [andb].
    + destruct (bool_decide (s = dark)) eqn:E1; cbn [orb].
      * apply bool_decide_eq_true in E1. now left.
      * destruct (bool_decide (s = light)) eqn:E2.
        -- apply bool_decide_eq_true in E2. now right.
        -- destruct systemDark; auto.
    + destruct systemDark; auto.
  - destruct systemDark; auto.
Qed.

Lemma truthy_dark_light s : s = dark \/ s = light -> truthy (Some s) = true.
Proof. intros [->| ->]; reflexivity. Qed.

Lemma getInitialTheme_saved s systemDark :
  s = dark \/ s = light -> getInitialTheme (Some s) systemDark = s.
Proof.
  intros H. unfold getInitialTheme. rewrite (truthy_dark_light s H).
  destruct H as [->| ->].
  - rewrite bool_decide_eq_true_2 by reflexivity. reflexivity.
  - rewrite (bool_decide_eq_true_2 (light = light)) by reflexivity.
    rewrite orb_true_r. reflexivity.
Qed.

Lemma theme_Inv_construct preference systemDark hasDark hasLight :
  Inv (construct preference systemDark hasDark hasLight).
Proof.
  unfold construct. apply theme_Inv_applyTheme. intros s -> Hs.
  now apply getInitialTheme_saved.
Qed.

Lemma theme_Inv_setTheme theme p : Inv p -> Inv (setTheme theme p).
Proof.
  intros Hp. unfold setTheme.
  destruct (_ && _); [exact Hp|]. apply theme_Inv_applyTheme. congruence.
Qed.

Lemma theme_Inv_step p e : Inv p -> Inv (step p e).
Proof.
  intros Hp. destruct e as [|theme|matches|newValue]; cbn [step].
  - now apply theme_Inv_setTheme.
  - now apply theme_Inv_setTheme.
  - unfold systemChanged. destruct (truthy (saved p)) eqn:E; [exact Hp|].
    cbn [negb]. apply theme_Inv_applyTheme. intros s Hs Hv.
    rewrite Hs, (truthy_dark_light s Hv) in E. discriminate.
  - unfold storageChanged. destruct newValue as [[|c s]|]; cbn [saved].
    + destruct Hp. split; cbn; auto. intros s Hs [Hv|Hv]; injection Hs as <-;
        discriminate Hv.
    + apply theme_Inv_applyTheme. congruence.
    + destruct Hp. split; cbn; auto. discriminate.
Qed.

Lemma theme_Inv_run es : forall p, Inv p -> Inv (run es p).
Proof.
  unfold run. induction es as [|e es IH]; intros p Hp; [exact Hp|].
  cbn [foldl]. apply IH. now apply theme_Inv_step.
Qed.

Lemma setTheme_cases theme p :
  (theme = dark \/ theme = light)
  /\ currentTheme (setTheme theme p) = theme
  /\ saved (setTheme theme p) = Some theme
  \/ theme <> dark /\ theme <> light /\ setTheme theme p = p.
Proof.
  unfold setTheme. destruct (decide (theme = dark)) as [->|Hd].
  - left. rewrite (bool_decide_eq_false_2 (dark <> dark)) by tauto. cbn. auto.
  - destruct (decide (theme = light)) as [->|Hl].
    + left. rewrite (bool_decide_eq_false_2 (light <> light)) by tauto.
      rewrite andb_false_r. cbn. auto.
    + right. rewrite !bool_decide_eq_true_2 by assumption. auto.
Qed.

Lemma Valid_setTheme theme p : Valid p -> Valid (setTheme theme p).
Proof.
  intros Hp. unfold Valid.
  destruct (setTheme_cases theme p) as [(Hv & -> & _)|(_ & _ & ->)];
    [exact Hv|exact Hp].
Qed.

Lemma Valid_step p e : fromThisCode e = true -> Valid p -> Valid (step p e).
Proof.
  intros He Hp. destruct e as [|theme|matches|newValue]; cbn [step].
  - now apply Valid_setTheme.
  - now apply Valid_setTheme.
  - unfold systemChanged. destruct (negb _); [|exact Hp].
    unfold Valid. cbn. destruct matches; auto.
  - destruct newValue as [s|]; [|discriminate]. cbn in He.
    assert (s = dark \/ s = light) as Hv.
    { apply orb_true_iff in He as [He|He]; apply bool_decide_eq_true in He;
        auto. }
    unfold storageChanged, Valid. destruct Hv as [->| ->]; cbn; auto.
Qed.

Lemma toggle_theme p :
  currentTheme (toggle p)
  = (if bool_decide (currentTheme p = dark) then light else dark)
  /\ saved (toggle p) = Some (currentTheme (toggle p)).
Proof.
  unfold toggle.
  destruct (bool_decide (currentTheme p = dark)).
  - destruct (setTheme_cases light p) as [(_ & -> & ->)|(_ & H & _)]; tauto.
  - destruct (setTheme_cases dark p) as [(_ & -> & ->)|(H & _ & _)]; tauto.
Qed.

Lemma Valid_run es : forall p,
  Forall (fun e => fromThisCode e = true) es -> Valid p -> Valid (run es p).
Proof.
  unfold run. induction es as [|e es IH]; intros p Hes Hp; [exact Hp|].
  apply Forall_cons in Hes as [He Hes]. cbn [foldl].
  apply IH; [exact Hes|]. now apply Valid_step.
Qed.

(** A preference is saved, and it is one of the two themes. *)
Definition Chosen (p : Page) : Prop :=
  exists s, saved p = Some s /\ (s = dark \/ s = light).

Lemma Chosen_setTheme theme p : Chosen p -> Chosen (setTheme theme p).
Proof.
  intros Hp. destruct (setTheme_cases theme p) as [(Hv & _ & Hs)|(_ & _ & ->)];
    [|exact Hp]. exists theme. auto.
Qed.

Lemma Chosen_toggle p : Chosen (toggle p).
Proof.
  destruct (toggle_theme p) as [Ht Hs]. exists (currentTheme (toggle p)).
  split; [exact Hs|]. rewrite Ht. destruct (bool_decide _); auto.
Qed.

Lemma Chosen_step p e : fromThisCode e = true -> Chosen p -> Chosen (step p e).
Proof.
  intros He (s & Hs & Hv). destruct e as [|theme|matches|newValue]; cbn [step].
  - apply Chosen_toggle.
  - apply Chosen_setTheme. exists s. auto.
  - unfold systemChanged. rewrite Hs, (truthy_dark_light s Hv). cbn.
    exists s. auto.
  - destruct newValue as [t|]; [|discriminate]. cbn in He.
    assert (t = dark \/ t = light) as Ht.
    { apply orb_true_iff in He as [He|He]; apply bool_decide_eq_true in He;
        auto. }
    exists t. unfold storageChanged.
    destruct Ht as [->| ->]; cbn; auto.
Qed.

Lemma Chosen_run es : forall p,
  Forall (fun e => fromThisCode e = true) es -> Chosen p -> Chosen (run es p).
Proof.
  unfold run. induction es as [|e es IH]; intros p Hes Hp; [exact Hp|].
  apply Forall_cons in Hes as [He Hes]. cbn [foldl].
  apply IH; [exact Hes|]. now apply Chosen_step.
Qed.

End ThemeProofs.

(** X26.  Whatever happens, the document element carries exactly one of the two
    classes, [dark-mode] exactly when the current theme is [dark], and the
    last [theme:changed] event carries the current theme.  When the storage events carry themes this
    code wrote, the current theme is [dark] or [light], and toggling twice
    gives back the theme. *)
Theorem classes_follow_the_theme
    (preference : option jsstring) (systemDark hasDark hasLight : bool)
    (es : list ThemeToggle.Event) :
  let p := ThemeToggle.run es
             (ThemeToggle.construct preference systemDark hasDark hasLight) in
  ThemeToggle.darkClass p
  = bool_decide (ThemeToggle.currentTheme p = ThemeToggle.dark)
  /\ ThemeToggle.lightClass p = negb (ThemeToggle.darkClass p)
  /\ last (ThemeToggle.changes p) = Some (ThemeToggle.currentTheme p)
  /\ (Forall (fun e => ThemeToggle.fromThisCode e = true) es ->
      (ThemeToggle.currentTheme p = ThemeToggle.dark
       \/ ThemeToggle.currentTheme p = ThemeToggle.light)
      /\ ThemeToggle.currentTheme (ThemeToggle.toggle (ThemeToggle.toggle p))
         = ThemeToggle.currentTheme p).
Proof.
  intros p.
  destruct (ThemeProofs.theme_Inv_run es _
              (ThemeProofs.theme_Inv_construct preference systemDark hasDark hasLight))
    as [H1 H2 H3 _].
  fold p in H1, H2, H3. repeat apply conj; try assumption.
  intros Hes.
  pose proof (ThemeProofs.Valid_run es
                (ThemeToggle.construct preference systemDark hasDark hasLight)
                Hes
                (ThemeProofs.getInitialTheme_valid preference systemDark))
    as Hv.
  fold p in Hv. split; [exact Hv|].
  rewrite (proj1 (ThemeProofs.toggle_theme (ThemeToggle.toggle p))),
    (proj1 (ThemeProofs.toggle_theme p)).
  assert (bool_decide (ThemeToggle.light = ThemeToggle.dark) = false) as Hld.
  { apply bool_decide_eq_false_2. intros H. symmetry in H.
    exact (ThemeProofs.dark_light H). }
  assert (bool_decide (ThemeToggle.dark = ThemeToggle.dark) = true) as Hdd
    by now apply bool_decide_eq_true_2.
  destruct Hv as [Hv|Hv]; rewrite Hv.
  - rewrite Hdd, Hld. reflexivity.
  - rewrite Hld, Hdd. reflexivity.
Qed.

(** X27.  Once the visitor has toggled the theme, the choice holds: as long as
    the storage events carry themes this code wrote, a change of the
    system preference changes nothing, and a reload starts with the
    current theme whatever the system prefers. *)
Theorem chosen_theme_survives_reload
    (preference : option jsstring) (systemDark hasDark hasLight : bool)
    (before later : list ThemeToggle.Event) :
  Forall (fun e => ThemeToggle.fromThisCode e = true) later ->
  let p := ThemeToggle.run (before ++ ThemeToggle.Toggle :: later)
             (ThemeToggle.construct preference systemDark hasDark hasLight) in
  ThemeToggle.saved p = Some (ThemeToggle.currentTheme p)
  /\ (forall matches, ThemeToggle.systemChanged matches p = p)
  /\ (forall prefersDark dark light,
      ThemeToggle.currentTheme
        (ThemeToggle.construct (ThemeToggle.saved p) prefersDark dark light)
      = ThemeToggle.currentTheme p).
Proof.
  intros Hlater p.
  assert (ThemeProofs.Inv p) as Hi
    by apply ThemeProofs.theme_Inv_run, ThemeProofs.theme_Inv_construct.
  assert (ThemeProofs.Chosen p) as (s & Hs & Hv).
  { subst p. unfold ThemeToggle.run. rewrite foldl_app. cbn [foldl].
    apply ThemeProofs.Chosen_run; [exact Hlater|].
    apply ThemeProofs.Chosen_toggle. }
  pose proof (ThemeProofs.inv_saved p Hi s Hs Hv) as Hc.
  repeat apply conj.
  - now rewrite Hs, Hc.
  - intros matches. unfold ThemeToggle.systemChanged.
    now rewrite Hs, (ThemeProofs.truthy_dark_light s Hv).
  - intros prefersDark d l. rewrite Hs. cbn [ThemeToggle.construct
      ThemeToggle.applyTheme ThemeToggle.currentTheme].
    rewrite (ThemeProofs.getInitialTheme_saved s prefersDark Hv).
    now rewrite Hc.
Qed.

Lemma chosen_theme_survives_reload_witness :
  let p := ThemeToggle.run
             [ThemeToggle.SystemChanged true; ThemeToggle.Toggle;
              ThemeToggle.SystemChanged false]
             (ThemeToggle.construct None false false false) in
  ThemeToggle.saved p = Some (ThemeToggle.currentTheme p).
Proof.
  exact (proj1 (chosen_theme_survives_reload None false false false
           [ThemeToggle.SystemChanged true] [ThemeToggle.SystemChanged false]
           ltac:(repeat constructor))).
Defined.
(** ** Load more *)

Module PaginationProofs.
Import CollectionPagination.

Record Inv (cards : list jsstring) (w : Widget) : Prop := {
  inv_pending : pending w = [] /\ isLoading w = false
                \/ (exists url, pending w = [url]) /\ isLoading w = true;
  inv_disabled : buttonDisabled w = isLoading w;
  inv_container : cards `prefix_of` container w;
  inv_page : 1 <= currentPage w
}.

Lemma pagination_Inv_construct cards next : Inv cards (construct cards next).
Proof.
  split; cbn.
  - left. auto.
  - reflexivity.
  - reflexivity.
  - lia.
Qed.

Lemma pagination_Inv_loadMore cards w : Inv cards w -> Inv cards (loadMore w).
Proof.
  intros H. unfold loadMore.
  destruct (isLoading w) eqn:E; [exact H|].
  destruct H as [Hp Hd Hc Hn].
  destruct Hp as [[Hp _]|[_ Hp]]; [|congruence].
  destruct (nextPage w) as [[|c url]|]; split; cbn; auto;
    rewrite ?Hp; cbn; eauto.
Qed.

Lemma pagination_Inv_settle cards outcome w : Inv cards w -> Inv cards (settle outcome w).
Proof.
  intros H. pose proof H as [Hp Hd Hc Hn]. unfold settle.
  destruct (pending w) as [|url rest] eqn:E; [exact H|].
  destruct Hp as [[Hp _]|[[u Hp] _]]; [discriminate|].
  injection Hp as -> ->.
  destruct outcome as [page|]; split; cbn; auto; try lia.
  now apply prefix_app_r.
Qed.

Lemma pagination_Inv_run cards es : forall w, Inv cards w -> Inv cards (run es w).
Proof.
  unfold run. induction es as [|e es IH]; intros w H; [exact H|].
  cbn [foldl]. apply IH. destruct e; [now apply pagination_Inv_loadMore|now apply pagination_Inv_settle].
Qed.

End PaginationProofs.

(** X28.  At most one page is being fetched at any time: [isLoading] is set
    exactly while one fetch is pending, the button is disabled exactly
    then, and a click in that time changes nothing.  The cards the page
    started with stay in front, and the page number never drops below 1. *)
Theorem load_more_fetches_one_page_at_a_time
    (cards : list jsstring) (next : option jsstring)
    (es : list CollectionPagination.Event) :
  let w := CollectionPagination.run es
             (CollectionPagination.construct cards next) in
  (length (CollectionPagination.pending w) <= 1)%nat
  /\ CollectionPagination.isLoading w
     = bool_decide (CollectionPagination.pending w <> [])
  /\ CollectionPagination.buttonDisabled w = CollectionPagination.isLoading w
  /\ (CollectionPagination.isLoading w = true ->
      CollectionPagination.step w CollectionPagination.Click = w)
  /\ cards `prefix_of` CollectionPagination.container w
  /\ 1 <= CollectionPagination.currentPage w.
Proof.
  intros w.
  destruct (PaginationProofs.pagination_Inv_run cards es _
              (PaginationProofs.pagination_Inv_construct cards next)) as [Hp Hd Hc Hn].
  fold w in Hp, Hd, Hc, Hn. repeat apply conj; try assumption.
  - destruct Hp as [[-> _]|[[u ->] _]]; cbn; lia.
  - destruct Hp as [[-> ->]|[[u ->] ->]]; reflexivity.
  - intros E. cbn [CollectionPagination.step].
    unfold CollectionPagination.loadMore. now rewrite E.
Qed.

Lemma run_loads pages : forall w,
  Forall (fun page => CollectionPagination.hasNext page = true) pages ->
  CollectionPagination.isLoading w = false ->
  CollectionPagination.pending w = [] ->
  CollectionPagination.buttonDisabled w = false ->
  (exists c url, CollectionPagination.nextPage w = Some (c :: url)) ->
  let w' := CollectionPagination.run (CollectionPagination.loads pages) w in
  CollectionPagination.currentPage w'
  = CollectionPagination.currentPage w + Z.of_nat (length pages)
  /\ CollectionPagination.container w'
     = CollectionPagination.container w
       ++ concat (CollectionPagination.newProducts <$> pages)
  /\ CollectionPagination.pending w' = []
  /\ CollectionPagination.isLoading w' = false
  /\ CollectionPagination.buttonShown w' = CollectionPagination.buttonShown w.
Proof.
  induction pages as [|page pages IH]; intros w Hall Hl Hp Hd (c & url & Hn);
    cbv zeta.
  - cbn. rewrite app_nil_r. repeat split; auto; lia.
  - apply Forall_cons in Hall as [Hpage Hall].
    unfold CollectionPagination.loads. cbn [mbind list_bind app].
    fold (CollectionPagination.loads pages).
    cbn [CollectionPagination.run foldl CollectionPagination.step].
    change (foldl CollectionPagination.step ?a ?l)
      with (CollectionPagination.run l a).
    unfold CollectionPagination.hasNext in Hpage.
    destruct (CollectionPagination.newLoadMore page) as [[[|c' url']|]|] eqn:En;
      try discriminate.
    set (w1 := {|
      CollectionPagination.currentPage := CollectionPagination.currentPage w + 1;
      CollectionPagination.isLoading := false;
      CollectionPagination.nextPage := Some (c' :: url');
      CollectionPagination.buttonShown := CollectionPagination.buttonShown w;
      CollectionPagination.buttonDisabled := false;
      CollectionPagination.container :=
        CollectionPagination.container w
        ++ CollectionPagination.newProducts page;
      CollectionPagination.pending := [] |}).
    assert (CollectionPagination.settle (Some page)
              (CollectionPagination.loadMore w) = w1) as ->.
    { unfold CollectionPagination.loadMore. rewrite Hl, Hn.
      unfold CollectionPagination.settle.
      cbn [CollectionPagination.pending CollectionPagination.currentPage
           CollectionPagination.isLoading CollectionPagination.nextPage
           CollectionPagination.buttonShown CollectionPagination.buttonDisabled
           CollectionPagination.container].
      rewrite Hp, En. reflexivity. }
    destruct (IH w1 Hall eq_refl eq_refl eq_refl
                ltac:(exists c', url'; reflexivity))
      as (H1 & H2 & H3 & H4 & H5).
    rewrite H1, H2, H3, H4, H5. subst w1.
    cbn [CollectionPagination.currentPage CollectionPagination.container
         CollectionPagination.buttonShown].
    rewrite fmap_cons. cbn [concat length]. rewrite <- app_assoc.
    repeat split; auto; lia.
Qed.

(** X29.  Pages that each announce a next page, loaded one after the other,
    are appended to the container in order, and the page number goes up
    by one for each; a failed fetch appends nothing, keeps the page number
    and the next page, and leaves the button enabled for another try. *)
Theorem pages_are_appended_in_order
    (cards : list jsstring) (first : jsstring)
    (pages : list CollectionPagination.Fetched) :
  first <> [] ->
  Forall (fun page => CollectionPagination.hasNext page = true) pages ->
  let w0 := CollectionPagination.construct cards (Some first) in
  let w := CollectionPagination.run (CollectionPagination.loads pages) w0 in
  CollectionPagination.currentPage w = 1 + Z.of_nat (length pages)
  /\ CollectionPagination.container w
     = cards ++ concat (CollectionPagination.newProducts <$> pages)
  /\ CollectionPagination.pending w = []
  /\ CollectionPagination.run
       [CollectionPagination.Click; CollectionPagination.Settle None] w0
     = w0.
Proof.
  intros Hf Hall w0 w. destruct first as [|c url]; [contradiction|].
  destruct (run_loads pages w0 Hall eq_refl eq_refl eq_refl
              ltac:(exists c, url; reflexivity)) as (H1 & H2 & H3 & _).
  fold w in H1, H2, H3. repeat apply conj; try assumption. reflexivity.
Qed.

Lemma pages_are_appended_in_order_witness :
  CollectionPagination.container
    (CollectionPagination.run
       (CollectionPagination.loads
          [{| CollectionPagination.newProducts := [lit "c"; lit "d"];
              CollectionPagination.newLoadMore :=
                Some (Some (lit "/collections/all?page=3")) |};
           {| CollectionPagination.newProducts := [lit "e"];
              CollectionPagination.newLoadMore :=
                Some (Some (lit "/collections/all?page=4")) |}])
       (CollectionPagination.construct [lit "a"; lit "b"]
          (Some (lit "/collections/all?page=2"))))
  = [lit "a"; lit "b"; lit "c"; lit "d"; lit "e"].
Proof.
  etransitivity.
  - exact (proj1 (proj2 (pages_are_appended_in_order
             [lit "a"; lit "b"] (lit "/collections/all?page=2")
             [{| CollectionPagination.newProducts := [lit "c"; lit "d"];
                 CollectionPagination.newLoadMore :=
                   Some (Some (lit "/collections/all?page=3")) |};
              {| CollectionPagination.newProducts := [lit "e"];
                 CollectionPagination.newLoadMore :=
                   Some (Some (lit "/collections/all?page=4")) |}]
             ltac:(discriminate) ltac:(repeat constructor)))).
  - reflexivity.
Defined.

(** ** The cart drawer *)

(** X30.  Once a refresh has found no footer in the fetched section, the
    footer of the drawer stays hidden, whatever later refreshes bring:
    a later footer replaces the markup of the hidden footer, and nothing
    sets [display] back. *)
Theorem hidden_footer_stays_hidden
    (footer : CartDrawer.Footer) (before later : list (option jsstring))
    (markup : jsstring) :
  let hidden := CartDrawer.refreshes (before ++ None :: later) footer in
  CartDrawer.display hidden = Some (lit "none")
  /\ CartDrawer.display
       (CartDrawer.refreshes (before ++ None :: later ++ [Some markup]) footer)
     = Some (lit "none")
  /\ CartDrawer.innerHTML
       (CartDrawer.refreshes (before ++ None :: later ++ [Some markup]) footer)
     = markup
  /\ (Forall (fun fetched => fetched <> None) before ->
      CartDrawer.display (CartDrawer.refreshes before footer)
      = CartDrawer.display footer).
Proof.
  assert (forall l f, CartDrawer.display f = Some (lit "none") ->
            CartDrawer.display (CartDrawer.refreshes l f) = Some (lit "none"))
    as Hkeep.
  { unfold CartDrawer.refreshes. induction l as [|x l IH]; intros f Hf;
      [exact Hf|]. cbn [foldl]. apply IH. destruct x; [exact Hf|reflexivity]. }
  assert (forall l l' f, CartDrawer.refreshes (l ++ l') f
                         = CartDrawer.refreshes l' (CartDrawer.refreshes l f))
    as Happ by (intros; unfold CartDrawer.refreshes; apply foldl_app).
  cbv zeta. repeat apply conj.
  - rewrite Happ. change (None :: later) with ([None] ++ later).
    rewrite Happ. apply Hkeep. reflexivity.
  - rewrite Happ.
    change (None :: later ++ [Some markup])
      with ([None] ++ (later ++ [Some markup])).
    rewrite Happ. apply Hkeep. reflexivity.
  - rewrite app_comm_cons, app_assoc, Happ. reflexivity.
  - unfold CartDrawer.refreshes. revert footer.
    induction before as [|x l IH]; intros footer Hall; [reflexivity|].
    apply Forall_cons in Hall as [Hx Hall]. cbn [foldl].
    rewrite IH by exact Hall. destruct x; [reflexivity|contradiction].
Qed.
